(** * PayStabl documentation corpus: payment-required protocol handler

    A shallow embedding of the reference code shown in the PayStabl
    documentation (x402 header handling, payment verification, policy
    enforcement, the agent wallet contract, the LangGraph retry workflow
    and the payment rate limiter), followed by the properties proved
    about it.

    Conventions.
    - Money amounts that the TypeScript code obtains with [parseFloat]
      are exact integers in minor units (cents): "10.00" is 1000.
      Rounding and NaN of IEEE doubles are outside the model.
    - Solidity [uint256] values are [N] with the range check written out.
      The contract carries no pragma; it is written for Base with the
      [call{value: ..}] syntax and is read as Solidity 0.8, where [+] and
      [+=] revert on overflow.
    - JavaScript strings are byte strings ([string]); [null] and
      [undefined] are [None].
    - Awaited helpers that the documentation calls but does not define
      are fields of an environment record, or are modelled from the
      specification where a claim needs their behaviour. *)

From stdpp Require Import base option list gmap strings.
From Stdlib Require Import ZArith NArith Ascii Lia Sorted.
From Stdlib Require QArith Lqa.


(* ===================================================================== *)
(** * Part I: the embedding                                               *)
(* ===================================================================== *)

(** ** The [Payment] record of docs/reference/x402_headers.mdx

    [X402Validator.parsePaymentHeader] fills every field with
    [params.get(..)], which is a string or [null]. *)
Record Payment := mkPayment {
  p_type : option string;
  p_receipt : option string;
  p_signature : option string;
  p_agent : option string;
  p_amount : option string
}.

(** ** SecurePaymentVerification (x402_headers.mdx, "Payment Verification") *)
Module SecurePaymentVerification.

Record TxDetails := mkTx {
  tx_amount : Z;
  tx_recipient : string;
  tx_timestamp : Z
}.

(** The object [this]: its two configuration fields and the awaited
    helpers that read the chain. *)
Record Verifier := mkVerifier {
  verifySignature : Payment -> bool;
  verifyTransactionExists : option string -> bool;
  getTransactionDetails : option string -> TxDetails;
  requiredAmount : Z;
  paymentAddress : string
}.

(** The five [throw new Error(..)] sites. *)
Inductive VerifyError :=
| InvalidSignature
| TransactionNotFound
| InsufficientAmount
| WrongAddress
| AlreadyConsumed.

Definition message (e : VerifyError) : string :=
  match e with
  | InvalidSignature => "Invalid payment signature"
  | TransactionNotFound => "Payment transaction not found"
  | InsufficientAmount => "Insufficient payment amount"
  | WrongAddress => "Payment sent to wrong address"
  | AlreadyConsumed => "Payment already consumed"
  end.

Record VerificationResult := mkResult {
  r_valid : bool;
  r_amount : Z;
  r_timestamp : Z
}.

(** The store of consumed payments: the receipts passed to
    [markPaymentUsed], most recent first. *)
Abbreviation UsedStore := (list (option string)).

(** Modelled from the spec: [checkPaymentUsed] is called by
    [verifyPayment] but not defined in the documentation; following the
    Receipt Ledger of the specification ("records consumed payment
    proofs and rejects reuse") it answers whether the receipt has been
    recorded. *)
Definition checkPaymentUsed (used : UsedStore) (r : option string) : bool :=
  bool_decide (r ∈ used).

(** Modelled from the spec: [markPaymentUsed] is called by
    [verifyPayment] but not defined in the documentation; it records
    the receipt in the store. *)
Definition markPaymentUsed (used : UsedStore) (r : option string) : UsedStore :=
  r :: used.

(** [verifyPayment], for a call during which no other call runs: the
    five awaited helpers answer one after the other.  A thrown error
    leaves the store as it was.  Calls that overlap are modelled below
    ([resume], [interleave]). *)
Definition verifyPayment (this : Verifier) (used : UsedStore) (payment : Payment)
  : (VerifyError + VerificationResult) * UsedStore :=
  if negb (verifySignature this payment) then (inl InvalidSignature, used)
  else if negb (verifyTransactionExists this (p_receipt payment))
       then (inl TransactionNotFound, used)
  else
    let txDetails := getTransactionDetails this (p_receipt payment) in
    if (tx_amount txDetails <? requiredAmount this)%Z
    then (inl InsufficientAmount, used)
    else if negb (bool_decide (tx_recipient txDetails = paymentAddress this))
    then (inl WrongAddress, used)
    else if checkPaymentUsed used (p_receipt payment)
    then (inl AlreadyConsumed, used)
    else (inr {| r_valid := true;
                 r_amount := tx_amount txDetails;
                 r_timestamp := tx_timestamp txDetails |},
          markPaymentUsed used (p_receipt payment)).

(** The four checks that come before the replay check. *)
Definition passesChecks (this : Verifier) (payment : Payment) : bool :=
  verifySignature this payment
  && verifyTransactionExists this (p_receipt payment)
  && negb (tx_amount (getTransactionDetails this (p_receipt payment))
           <? requiredAmount this)%Z
  && bool_decide (tx_recipient (getTransactionDetails this (p_receipt payment))
                  = paymentAddress this).

(** A sequence of verification requests handled one after the other,
    each call over before the next one starts.  The answers of the
    chain helpers may change from one call to the next, so each request
    comes with the verifier it is served by. *)
Fixpoint verifyAll (used : UsedStore) (reqs : list (Verifier * Payment))
  : UsedStore :=
  match reqs with
  | [] => used
  | (this, p) :: reqs' => verifyAll (snd (verifyPayment this used p)) reqs'
  end.

(** How often a receipt is recorded in the store. *)
Definition timesConsumed (used : UsedStore) (r : option string) : nat :=
  length (filter (λ x, x = r) used).

(** *** Calls that overlap

    [verifyPayment] is an async function.  Each of its five [await]s is
    a point at which other calls can run; what lies between two awaits
    runs in one piece.  A call stands at one of its awaits, or has
    thrown, or has returned. *)
Inductive Progress :=
| AtVerifySignature
| AtVerifyTransactionExists
| AtGetTransactionDetails
| AtCheckPaymentUsed (txDetails : TxDetails)
| AtMarkPaymentUsed (txDetails : TxDetails)
| Thrown (e : VerifyError)
| Returned (result : VerificationResult).

Record Call := mkCall {
  c_this : Verifier;
  c_payment : Payment;
  c_at : Progress
}.

(** [this.verifyPayment(payment)], just called. *)
Definition call (this : Verifier) (payment : Payment) : Call :=
  mkCall this payment AtVerifySignature.

(** The awaited helper answers and the call runs on to its next await,
    to a [throw] or to its [return].  Only [markPaymentUsed] writes to
    the store, and [checkPaymentUsed] reads it one await earlier. *)
Definition resume (used : UsedStore) (c : Call) : Call * UsedStore :=
  let this := c_this c in
  let payment := c_payment c in
  match c_at c with
  | AtVerifySignature =>
    (mkCall this payment
       (if negb (verifySignature this payment) then Thrown InvalidSignature
        else AtVerifyTransactionExists),
     used)
  | AtVerifyTransactionExists =>
    (mkCall this payment
       (if negb (verifyTransactionExists this (p_receipt payment))
        then Thrown TransactionNotFound
        else AtGetTransactionDetails),
     used)
  | AtGetTransactionDetails =>
    let txDetails := getTransactionDetails this (p_receipt payment) in
    (mkCall this payment
       (if (tx_amount txDetails <? requiredAmount this)%Z
        then Thrown InsufficientAmount
        else if negb (bool_decide (tx_recipient txDetails = paymentAddress this))
        then Thrown WrongAddress
        else AtCheckPaymentUsed txDetails),
     used)
  | AtCheckPaymentUsed txDetails =>
    (mkCall this payment
       (if checkPaymentUsed used (p_receipt payment) then Thrown AlreadyConsumed
        else AtMarkPaymentUsed txDetails),
     used)
  | AtMarkPaymentUsed txDetails =>
    (mkCall this payment
       (Returned {| r_valid := true;
                    r_amount := tx_amount txDetails;
                    r_timestamp := tx_timestamp txDetails |}),
     markPaymentUsed used (p_receipt payment))
  | Thrown _ | Returned _ => (c, used)
  end.

(** Calls in flight on one store.  The schedule names, turn by turn,
    the call that runs to its next await; a turn given to a call that
    is over, or to no call, does nothing. *)
Fixpoint interleave (schedule : list nat) (calls : list Call) (used : UsedStore)
  : list Call * UsedStore :=
  match schedule with
  | [] => (calls, used)
  | i :: schedule' =>
    match calls !! i with
    | Some c =>
      interleave schedule' (<[i := fst (resume used c)]> calls)
                 (snd (resume used c))
    | None => interleave schedule' calls used
    end
  end.

(** What a call has answered, once it is over. *)
Definition outcome (c : Call) : option (VerifyError + VerificationResult) :=
  match c_at c with
  | Thrown e => Some (inl e)
  | Returned result => Some (inr result)
  | _ => None
  end.

(** The checks a call has behind it passed. *)
Definition sound (c : Call) : Prop :=
  match c_at c with
  | AtVerifySignature | Thrown _ | Returned _ => True
  | AtVerifyTransactionExists => verifySignature (c_this c) (c_payment c) = true
  | AtGetTransactionDetails =>
    verifySignature (c_this c) (c_payment c) = true
    ∧ verifyTransactionExists (c_this c) (p_receipt (c_payment c)) = true
  | AtCheckPaymentUsed _ | AtMarkPaymentUsed _ =>
    passesChecks (c_this c) (c_payment c) = true
  end.

(** A call that is not over and may yet mark the receipt [r]: its
    payment carries [r] and passes the four checks. *)
Definition may_mark (r : option string) (c : Call) : bool :=
  match c_at c with
  | Thrown _ | Returned _ => false
  | _ => passesChecks (c_this c) (c_payment c)
         && bool_decide (p_receipt (c_payment c) = r)
  end.

End SecurePaymentVerification.

(** ** AgentWallet (architecture.mdx, "Smart Contract Architecture") *)
Module AgentWallet.

Abbreviation address := N.
Definition uint256_limit : N := 2 ^ 256.

Record Storage := mkStorage {
  agent : address;
  dailyLimits : gmap N N;
  dailySpent : gmap N N;
  allowlist : gmap N bool
}.

(** Reading a Solidity mapping: absent keys hold the zero value. *)
Definition readN (m : gmap N N) (k : N) : N := default 0%N (m !! k).
Definition readB (m : gmap N bool) (k : N) : bool := default false (m !! k).

Inductive Revert :=
| OnlyAgent          (* "Only agent can execute" *)
| DailyLimitExceeded (* "Daily limit exceeded" *)
| RecipientNotAllowed (* "Recipient not allowed" *)
| PaymentFailed      (* "Payment failed" *)
| Overflow.          (* checked arithmetic panic *)

Definition checked_add (a b : N) : option N :=
  if (a + b <? uint256_limit)%N then Some (a + b)%N else None.

(** One external call [executePayment(recipient, amount, data)] sent
    by [sender]; [call_ok] is the result of the low-level
    [recipient.call{value: amount}(data)].  A revert rolls the storage
    back, so only the successful path returns a new storage. *)
Definition executePayment (st : Storage) (sender recipient : address)
    (amount : N) (call_ok : bool) : Revert + Storage :=
  (* modifier onlyAgent *)
  if negb (sender =? agent st)%N then inl OnlyAgent
  else
    (* modifier withinLimits(amount) *)
    match checked_add (readN (dailySpent st) sender) amount with
    | None => inl Overflow
    | Some total =>
      if negb (total <=? readN (dailyLimits st) sender)%N
      then inl DailyLimitExceeded
      else if negb (readB (allowlist st) recipient)
      then inl RecipientNotAllowed
      else
        match checked_add (readN (dailySpent st) sender) amount with
        | None => inl Overflow
        | Some spent' =>
          if negb call_ok then inl PaymentFailed
          else inr {| agent := agent st;
                      dailyLimits := dailyLimits st;
                      dailySpent := <[sender := spent']> (dailySpent st);
                      allowlist := allowlist st |}
        end
    end.

Record Call := mkCall {
  c_sender : address;
  c_recipient : address;
  c_amount : N;
  c_ok : bool
}.

(** A sequence of transactions: returns the final storage and the
    amounts of the payments that went through, oldest first. *)
Fixpoint execute (st : Storage) (calls : list Call) : Storage * list N :=
  match calls with
  | [] => (st, [])
  | c :: cs =>
    match executePayment st (c_sender c) (c_recipient c) (c_amount c) (c_ok c) with
    | inl _ => execute st cs
    | inr st' => let '(st'', paid) := execute st' cs in (st'', c_amount c :: paid)
    end
  end.

Definition total (amounts : list N) : N := foldr N.add 0%N amounts.

End AgentWallet.

(** ** PolicyEnforcement (security.mdx, "Spending Policies") *)
Module PolicyEnforcement.

Record SpendingPolicies := mkPolicies {
  dailyLimit : Z;
  weeklyLimit : Z;
  monthlyLimit : Z;
  perTransactionLimit : Z;
  allowedHours : list Z;
  allowedDays : list Z;
  timezone : string;
  maxTransactionsPerHour : Z;
  maxTransactionsPerDay : Z;
  cooldownPeriod : Z;
  suspiciousAmountThreshold : Z;
  velocityAlertThreshold : Z;
  emergencyStopEnabled : bool
}.

(** The objects returned by the individual checks; [{ valid: true }]
    leaves [error] and [requiresApproval] undefined. *)
Record ValidationResult := mkValidation {
  valid : bool;
  error : option string;
  requiresApproval : option bool
}.

Record Transaction := mkTransaction {
  amount : Z;
  recipient : string
}.

(** The only field of [getCurrentSpending]'s result that is read. *)
Record CurrentSpend := mkSpend { daily : Z }.

(** The awaited helpers of the class that the documentation does not
    define. *)
Record Helpers := mkHelpers {
  getPolicies : string -> SpendingPolicies;
  getCurrentSpending : string -> CurrentSpend;
  checkTimeRestrictions : SpendingPolicies -> ValidationResult;
  checkVelocityLimits : string -> SpendingPolicies -> ValidationResult;
  checkSuspiciousActivity :
    string -> Transaction -> SpendingPolicies -> ValidationResult
}.

Definition checkSpendingLimits (this : Helpers) (agentId : string)
    (amount : Z) (policies : SpendingPolicies) : ValidationResult :=
  let currentSpend := getCurrentSpending this agentId in
  (* Check per-transaction limit *)
  if (perTransactionLimit policies <? amount)%Z then
    {| valid := false;
       error := Some "Transaction exceeds per-transaction limit";
       requiresApproval := Some true |}
  (* Check daily limit *)
  else if (dailyLimit policies <? daily currentSpend + amount)%Z then
    {| valid := false;
       error := Some "Transaction would exceed daily limit";
       requiresApproval := Some false |}
  else {| valid := true; error := None; requiresApproval := None |}.

(** Which of the four checks of [validateTransaction] was called. *)
Inductive Check :=
| SpendingLimits
| TimeRestrictions
| VelocityLimits
| SuspiciousActivity.

(** A computation that records the checks it calls, in call order. *)
Definition Traced (A : Type) : Type := list Check * A.
Definition tret {A} (a : A) : Traced A := ([], a).
Definition tbind {A B} (m : Traced A) (k : A -> Traced B) : Traced B :=
  let '(t1, a) := m in let '(t2, b) := k a in (t1 ++ t2, b).
Definition called {A} (c : Check) (a : A) : Traced A := ([c], a).

Notation "x <-- m ;; k" := (tbind m (fun x => k))
  (at level 100, m at next level, right associativity).

Record Outcome := mkOutcome {
  o_valid : bool;
  o_errors : list (option string);
  o_requiresApproval : bool
}.

(** JavaScript truthiness of [f.requiresApproval]. *)
Definition truthy (b : option bool) : bool := default false b.

(** [validateTransaction]: the array passed to [Promise.all] is built
    by calling the four checks one after the other; all four results
    are then filtered. *)
Definition validateTransaction (this : Helpers) (agentId : string)
    (transaction : Transaction) : Traced Outcome :=
  let policies := getPolicies this agentId in
  v1 <-- called SpendingLimits
          (checkSpendingLimits this agentId (amount transaction) policies) ;;
  v2 <-- called TimeRestrictions (checkTimeRestrictions this policies) ;;
  v3 <-- called VelocityLimits (checkVelocityLimits this agentId policies) ;;
  v4 <-- called SuspiciousActivity
          (checkSuspiciousActivity this agentId transaction policies) ;;
  let validations := [v1; v2; v3; v4] in
  let failed := filter (λ v, valid v = false) validations in
  tret {| o_valid := bool_decide (length failed = 0);
          o_errors := error <$> failed;
          o_requiresApproval := existsb (λ f, truthy (requiresApproval f)) failed |}.

(** The results of the four checks, in the order of the array given to
    [Promise.all]. *)
Definition checkResults (this : Helpers) (agentId : string)
    (transaction : Transaction) : list ValidationResult :=
  let policies := getPolicies this agentId in
  [ checkSpendingLimits this agentId (amount transaction) policies;
    checkTimeRestrictions this policies;
    checkVelocityLimits this agentId policies;
    checkSuspiciousActivity this agentId transaction policies ].

(** *** Committed spend *)

(** Modelled from the spec: the recording of a committed payment is not
    defined in the documentation.  Following the specification
    (counters are incremented only on a committed payment) a committed
    payment is kept with the day it was made on. *)
Record Committed := mkCommitted {
  on_day : Z;
  paid : Z
}.

(** Modelled from the spec: [getCurrentSpending] is called by
    [checkSpendingLimits] but not defined in the documentation.
    Following the specification (the daily counter is reset at the
    wall-clock start of the day) the daily spend is the sum of the
    payments committed on the current day. *)
Definition spentOn (ledger : list Committed) (day : Z) : Z :=
  foldr Z.add 0%Z (map paid (filter (λ c, on_day c = day) ledger)).

(** The sum of the payments committed in a week; days are numbered from
    the start of a week, so week [w] is days [7w .. 7w+6]. *)
Definition spentInWeek (ledger : list Committed) (week : Z) : Z :=
  foldr Z.add 0%Z (map paid (filter (λ c, (on_day c / 7 = week)%Z) ledger)).

(** The helpers as they answer on [day] with [ledger] committed. *)
Definition helpersAt (this : Helpers) (ledger : list Committed) (day : Z)
  : Helpers :=
  {| getPolicies := getPolicies this;
     getCurrentSpending := λ _, {| daily := spentOn ledger day |};
     checkTimeRestrictions := checkTimeRestrictions this;
     checkVelocityLimits := checkVelocityLimits this;
     checkSuspiciousActivity := checkSuspiciousActivity this |}.

(** Modelled from the spec: the step that commits an authorised payment
    is not in the documentation.  One negotiation on [day] is the
    spending check of the source, followed by the commit when the check
    passes. *)
Definition negotiate (this : Helpers) (agentId : string)
    (ledger : list Committed) (day amount : Z)
  : ValidationResult * list Committed :=
  let r := checkSpendingLimits (helpersAt this ledger day) agentId amount
             (getPolicies this agentId) in
  if valid r then (r, ledger ++ [{| on_day := day; paid := amount |}])
  else (r, ledger).

Fixpoint negotiateAll (this : Helpers) (agentId : string)
    (ledger : list Committed) (reqs : list (Z * Z)) : list Committed :=
  match reqs with
  | [] => ledger
  | (day, amount) :: rest =>
    negotiateAll this agentId (snd (negotiate this agentId ledger day amount)) rest
  end.

End PolicyEnforcement.

(** ** URLSearchParams, as far as [parsePaymentHeader] uses it

    The constructor applied to a string runs the
    application/x-www-form-urlencoded parser: a leading "?" is dropped,
    the input is split at every "&", empty pieces are skipped, a piece
    is split at its first "=" into name and value (the value is empty
    when there is none), "+" becomes a space and percent escapes are
    decoded.  [get] returns the value of the first pair with the given
    name, or [null]. *)
Module URLSearchParams.

Definition is_char (c d : ascii) : bool := bool_decide (c = d).

Fixpoint split_on (sep : ascii) (s : string) : list string :=
  match s with
  | EmptyString => [EmptyString]
  | String c rest =>
    if is_char c sep then EmptyString :: split_on sep rest
    else match split_on sep rest with
         | [] => [String c EmptyString]
         | piece :: pieces => String c piece :: pieces
         end
  end.

Fixpoint split_first (sep : ascii) (s : string) : string * string :=
  match s with
  | EmptyString => (EmptyString, EmptyString)
  | String c rest =>
    if is_char c sep then (EmptyString, rest)
    else let '(name, value) := split_first sep rest in (String c name, value)
  end.

Fixpoint plus_to_space (s : string) : string :=
  match s with
  | EmptyString => EmptyString
  | String c rest =>
    String (if is_char c "+"%char then " "%char else c) (plus_to_space rest)
  end.

Definition hex_value (c : ascii) : option N :=
  let n := N_of_ascii c in
  if (48 <=? n)%N && (n <=? 57)%N then Some (n - 48)%N
  else if (65 <=? n)%N && (n <=? 70)%N then Some (n - 55)%N
  else if (97 <=? n)%N && (n <=? 102)%N then Some (n - 87)%N
  else None.

Fixpoint percent_decode (s : string) : string :=
  match s with
  | EmptyString => EmptyString
  | String c rest =>
    if is_char c "%"%char then
      match rest with
      | String h1 (String h2 rest') =>
        match hex_value h1, hex_value h2 with
        | Some a, Some b =>
          String (ascii_of_N (16 * a + b)) (percent_decode rest')
        | _, _ => String c (percent_decode rest)
        end
      | _ => String c (percent_decode rest)
      end
    else String c (percent_decode rest)
  end.

Definition decode (s : string) : string := percent_decode (plus_to_space s).

Definition strip_question (s : string) : string :=
  match s with
  | String c rest => if is_char c "?"%char then rest else s
  | EmptyString => s
  end.

Definition parse (init : string) : list (string * string) :=
  map (λ piece, let '(name, value) := split_first "="%char piece in
                (decode name, decode value))
      (filter (λ piece, piece ≠ EmptyString)
              (split_on "&"%char (strip_question init))).

Fixpoint get (params : list (string * string)) (name : string) : option string :=
  match params with
  | [] => None
  | (n, v) :: rest => if bool_decide (n = name) then Some v else get rest name
  end.

End URLSearchParams.

(** ** X402Validator (x402_headers.mdx, "Server-Side Implementation") *)
Module X402Validator.

(** [header.replace(/=/g, '&')] *)
Fixpoint replace_eq_by_amp (header : string) : string :=
  match header with
  | EmptyString => EmptyString
  | String c rest =>
    String (if URLSearchParams.is_char c "="%char then "&"%char else c)
           (replace_eq_by_amp rest)
  end.

Definition parsePaymentHeader (header : string) : Payment :=
  let params := URLSearchParams.parse (replace_eq_by_amp header) in
  {| p_type := URLSearchParams.get params "type";
     p_receipt := URLSearchParams.get params "receipt";
     p_signature := URLSearchParams.get params "signature";
     p_agent := URLSearchParams.get params "agent";
     p_amount := URLSearchParams.get params "amount" |}.

(** [verifyPaymentOnChain]: the switch on [payment.type]; the three
    chain-specific verifiers are not defined in the documentation. *)
Record ChainVerifiers := mkChainVerifiers {
  verifyPayStablPayment : Payment -> bool;
  verifyBitcoinPayment : Payment -> bool;
  verifyEthereumPayment : Payment -> bool
}.

Definition verifyPaymentOnChain (this : ChainVerifiers) (payment : Payment) : bool :=
  match p_type payment with
  | Some t =>
    if bool_decide (t = "paystabl") then verifyPayStablPayment this payment
    else if bool_decide (t = "bitcoin") then verifyBitcoinPayment this payment
    else if bool_decide (t = "ethereum") then verifyEthereumPayment this payment
    else false
  | None => false
  end.

End X402Validator.

(** ** X402Handler (x402_headers.mdx, "Client-Side Implementation") *)
Module X402Handler.

(** The result of [paystabl.processPayment]; [pr_receipt] stands for the
    receipt object, kept as the text [JSON.stringify] gives for it. *)
Record PaymentResult := mkPaymentResult {
  txHash : string;
  signature : string;
  agentId : string;
  pr_receipt : string
}.

(** [Headers]: [get] of a header that is not present is [null]. *)
Abbreviation Headers := (gmap string string).

Record PaymentDetails := mkDetails {
  acceptedMethods : list string;
  amount : Z;
  purpose : option string;
  expiresAt : Z
}.

(** The argument object of [processPayment]; [parseX402Headers] sets
    neither [currency] nor [recipient], so both are read as
    [undefined]. *)
Record PaymentRequest := mkRequest {
  q_amount : Z;
  q_currency : option string;
  q_purpose : option string;
  q_recipient : option string
}.

(** What the handler relies on and the documentation does not define:
    the two header parsers, [new Date(..)] (milliseconds since the
    epoch) and the payment collaborator, which returns a result or
    throws. *)
Record Collaborators := mkCollaborators {
  parseAcceptPayment : option string -> list string;
  parseAmount : option string -> Z;
  newDate : option string -> Z;
  processPayment : PaymentRequest -> string + PaymentResult
}.

Definition parseX402Headers (this : Collaborators) (headers : Headers)
  : PaymentDetails :=
  let acceptPayment := headers !! "Accept-Payment" in
  let amount := headers !! "Payment-Amount" in
  let purpose := headers !! "Payment-Purpose" in
  let expires := headers !! "Payment-Expires" in
  {| acceptedMethods := parseAcceptPayment this acceptPayment;
     amount := parseAmount this amount;
     purpose := purpose;
     expiresAt := newDate this expires |}.

Definition formatPaymentHeader (payment : PaymentResult) : string :=
  "type=paystabl receipt=" +:+ txHash payment +:+
  " signature=" +:+ signature payment +:+
  " agent=" +:+ agentId payment.

Record PaymentHeaders := mkPaymentHeaders {
  X_Payment : string;
  X_Payment_Receipt : string
}.

(** The calls made to the payment collaborator, in order. *)
Inductive Effect :=
| ProcessPayment (request : PaymentRequest).

(** [handleX402Response]: returns the calls it made and either the
    error thrown by [processPayment] or the headers for the retry. *)
Definition handleX402Response (this : Collaborators) (responseHeaders : Headers)
  : list Effect * (string + PaymentHeaders) :=
  let paymentDetails := parseX402Headers this responseHeaders in
  let request := {| q_amount := amount paymentDetails;
                    q_currency := None;
                    q_purpose := purpose paymentDetails;
                    q_recipient := None |} in
  match processPayment this request with
  | inl thrown => ([ProcessPayment request], inl thrown)
  | inr payment =>
    ([ProcessPayment request],
     inr {| X_Payment := formatPaymentHeader payment;
            X_Payment_Receipt := pr_receipt payment |})
  end.

End X402Handler.

(** ** PaymentRetryWorkflow (examples/langgraph_retry.mdx) *)
Module PaymentRetryWorkflow.

Inductive RetryStrategy :=
| EXPONENTIAL_BACKOFF
| LINEAR_BACKOFF
| IMMEDIATE
| ALTERNATIVE_SERVICE.

Record ServiceConfig := mkConfig {
  name : string;
  url : string;
  cost : string;
  quality : string;
  features : list string
}.

Definition free_service_config : ServiceConfig :=
  {| name := "Free Community Service";
     url := "https://free-ai.com/api/community";
     cost := "0.00";
     quality := "basic";
     features := ["limited_processing"] |}.

(** [configs.get(service_name, configs["free_service"])] *)
Definition get_service_config (service_name : string) : ServiceConfig :=
  if bool_decide (service_name = "premium_ai_service") then
    {| name := "Premium AI Service";
       url := "https://premium-ai.com/api/analyze";
       cost := "10.00";
       quality := "excellent";
       features := ["advanced_reasoning"; "multimodal"; "real_time"] |}
  else if bool_decide (service_name = "standard_ai_service") then
    {| name := "Standard AI Service";
       url := "https://standard-ai.com/api/process";
       cost := "5.00";
       quality := "good";
       features := ["standard_reasoning"; "text_only"] |}
  else if bool_decide (service_name = "basic_ai_service") then
    {| name := "Basic AI Service";
       url := "https://basic-ai.com/api/simple";
       cost := "2.00";
       quality := "adequate";
       features := ["basic_processing"] |}
  else free_service_config.

(** [float(service_config["cost"])] in cents, on the four cost strings
    of the table above. *)
Definition float_cents (c : string) : Z :=
  if bool_decide (c = "10.00") then 1000
  else if bool_decide (c = "5.00") then 500
  else if bool_decide (c = "2.00") then 200
  else 0.

(** The dictionaries appended to [payment_attempts]. *)
Record AttemptInfo := mkAttempt {
  attempt : nat;
  service : string;
  amount : string;
  timestamp : Z;
  status : string;
  method : option string;
  tx_hash : option string;
  a_error : option string;
  error_code : option string
}.

Record SwitchInfo := mkSwitch {
  from : string;
  to : string;
  reason : string;
  s_timestamp : Z
}.

Inductive LogEntry :=
| AttemptEntry (a : AttemptInfo)
| SwitchEntry (s : SwitchInfo).

Record Summary := mkSummary {
  success : bool;
  final_error : string;
  attempts : nat
}.

(** [WorkflowState], the [retry_strategy] and [completion_summary] keys
    the nodes add to it, and the time of the run: [clock] is the current
    time in seconds (an attempt itself takes no time) and [sleeps] the
    delays [retry_with_backoff] has waited, oldest first.

    The state is a dict and callers pass partial ones (the usage
    examples pass the task alone).  [task] is the one key that is read
    before anything has set it: it is [None] when the dict has no such
    key.  The six keys that [validate_request] sets before any read
    carry whatever the caller put there; [result], [error],
    [retry_strategy] and [completion_summary] are [None] when absent. *)
Record WorkflowState := mkState {
  task : option string;
  payment_attempts : list LogEntry;
  current_service : string;
  retry_count : nat;
  max_retries : nat;
  fallback_services : list string;
  result : option string;
  error : option string;
  total_cost : Z;
  retry_strategy : option RetryStrategy;
  completion_summary : option Summary;
  clock : Z;
  sleeps : list Z
}.

Definition set_payment_attempts (v : list LogEntry) (s : WorkflowState) :=
  mkState (task s) v (current_service s) (retry_count s) (max_retries s)
    (fallback_services s) (result s) (error s) (total_cost s)
    (retry_strategy s) (completion_summary s) (clock s) (sleeps s).
Definition set_current_service (v : string) (s : WorkflowState) :=
  mkState (task s) (payment_attempts s) v (retry_count s) (max_retries s)
    (fallback_services s) (result s) (error s) (total_cost s)
    (retry_strategy s) (completion_summary s) (clock s) (sleeps s).
Definition set_retry_count (v : nat) (s : WorkflowState) :=
  mkState (task s) (payment_attempts s) (current_service s) v (max_retries s)
    (fallback_services s) (result s) (error s) (total_cost s)
    (retry_strategy s) (completion_summary s) (clock s) (sleeps s).
Definition set_max_retries (v : nat) (s : WorkflowState) :=
  mkState (task s) (payment_attempts s) (current_service s) (retry_count s) v
    (fallback_services s) (result s) (error s) (total_cost s)
    (retry_strategy s) (completion_summary s) (clock s) (sleeps s).
Definition set_fallback_services (v : list string) (s : WorkflowState) :=
  mkState (task s) (payment_attempts s) (current_service s) (retry_count s)
    (max_retries s) v (result s) (error s) (total_cost s)
    (retry_strategy s) (completion_summary s) (clock s) (sleeps s).
Definition set_result (v : option string) (s : WorkflowState) :=
  mkState (task s) (payment_attempts s) (current_service s) (retry_count s)
    (max_retries s) (fallback_services s) v (error s) (total_cost s)
    (retry_strategy s) (completion_summary s) (clock s) (sleeps s).
Definition set_error (v : option string) (s : WorkflowState) :=
  mkState (task s) (payment_attempts s) (current_service s) (retry_count s)
    (max_retries s) (fallback_services s) (result s) v (total_cost s)
    (retry_strategy s) (completion_summary s) (clock s) (sleeps s).
Definition set_total_cost (v : Z) (s : WorkflowState) :=
  mkState (task s) (payment_attempts s) (current_service s) (retry_count s)
    (max_retries s) (fallback_services s) (result s) (error s) v
    (retry_strategy s) (completion_summary s) (clock s) (sleeps s).
Definition set_retry_strategy (v : option RetryStrategy) (s : WorkflowState) :=
  mkState (task s) (payment_attempts s) (current_service s) (retry_count s)
    (max_retries s) (fallback_services s) (result s) (error s) (total_cost s)
    v (completion_summary s) (clock s) (sleeps s).
Definition set_completion_summary (v : option Summary) (s : WorkflowState) :=
  mkState (task s) (payment_attempts s) (current_service s) (retry_count s)
    (max_retries s) (fallback_services s) (result s) (error s) (total_cost s)
    (retry_strategy s) v (clock s) (sleeps s).

(** [await asyncio.sleep(d)] *)
Definition sleep (d : Z) (s : WorkflowState) :=
  mkState (task s) (payment_attempts s) (current_service s) (retry_count s)
    (max_retries s) (fallback_services s) (result s) (error s) (total_cost s)
    (retry_strategy s) (completion_summary s) (clock s + d)%Z (sleeps s).

(** A backoff delay: the sleep, recorded. *)
Definition backoff_sleep (d : Z) (s : WorkflowState) :=
  mkState (task s) (payment_attempts s) (current_service s) (retry_count s)
    (max_retries s) (fallback_services s) (result s) (error s) (total_cost s)
    (retry_strategy s) (completion_summary s) (clock s + d)%Z (sleeps s ++ [d]).

(** The dict returned by [agent.pay_api_endpoint], as far as
    [attempt_payment] reads it: [payment_result["data"]] and
    [payment_result["receipt"]["txHash"]], both taken to be dicts.  A
    key that is absent is [None]; [r_receipt] is [Some None] for a
    receipt without [txHash]. *)
Record PaymentResult := mkPaymentResult {
  r_data : option string;
  r_receipt : option (option string)
}.

(** The outcome of [agent.pay_api_endpoint]: the returned dict, or the
    raised exception with its message and its [code] attribute when it
    has one. *)
Inductive PayOutcome :=
| Returned (payment_result : PaymentResult)
| Raised (msg : string) (code : option string).

(** A well-formed result: data and a receipt with its transaction
    hash. *)
Definition Paid (data txHash : string) : PayOutcome :=
  Returned {| r_data := Some data; r_receipt := Some (Some txHash) |}.

(** The paid services, seen from the workflow: the outcome of a call may
    depend on everything that happened before it. *)
Definition World := WorkflowState -> PayOutcome.

Definition default_fallback_services : list string :=
  ["premium_ai_service"; "standard_ai_service"; "basic_ai_service"; "free_service"].

(** The assignments of [validate_request].  [fallback_services[0]]
    raises IndexError on an empty list; the list set just before is not
    empty.  The f-string printed after the assignments reads
    [state['task']] and raises KeyError on a state without that key:
    see [validate_request_raises] and [step]. *)
Definition validate_request (state : WorkflowState) : WorkflowState :=
  let state := set_payment_attempts [] state in
  let state := set_retry_count 0 state in
  let state := set_max_retries 5 state in
  let state := set_total_cost 0 state in
  let state := set_fallback_services default_fallback_services state in
  set_current_service (default "" (head (fallback_services state))) state.

(** [validate_request] raises KeyError at its first [print] when the
    state has no task. *)
Definition validate_request_raises (state : WorkflowState) : bool :=
  bool_decide (task state = None).

(** [attempt_payment], with [datetime.now()] read from the clock of the
    run (the example calls [datetime] without importing it: see
    [step_as_shown]).  Everything from the read of [state["task"]] to
    the read of the transaction hash is inside the [try]: an exception
    raised there, by the call or by a missing key, is logged as a failed
    attempt, with the [code] attribute of the exception or "UNKNOWN".
    The cost is added after [payment_result["data"]] and before
    [payment_result["receipt"]["txHash"]] is read, so a result without
    its receipt is charged and logged as failed.  [str] of a KeyError is
    the key in quotes. *)
Definition attempt_payment (world : World) (state : WorkflowState) : WorkflowState :=
  let service_config := get_service_config (current_service state) in
  let attempt_info (status : string) method tx err code :=
    {| attempt := retry_count state + 1;
       service := current_service state;
       amount := cost service_config;
       timestamp := clock state;
       status := status;
       method := method;
       tx_hash := tx;
       a_error := err;
       error_code := code |} in
  let failed (state : WorkflowState) (msg : string) (code : option string) :=
    (set_error (Some msg) state,
     attempt_info "failed" None None (Some msg) (Some (default "UNKNOWN" code))) in
  let '(state', info) :=
    match task state with
    | None => failed state "'task'" None
    | Some task =>
      if bool_decide (cost service_config = "0.00") then
        (* call_free_service: sleeps 2 seconds and returns *)
        let state := sleep 2 state in
        let state := set_result (Some ("Basic analysis of: " +:+ task)) state in
        (state, attempt_info "success" (Some "free_service") None None None)
      else
        match world state with
        | Raised msg code => failed state msg code
        | Returned payment_result =>
          match r_data payment_result with
          | None => failed state "'data'" None
          | Some data =>
            let state := set_result (Some data) state in
            let state := set_total_cost
                           (total_cost state + float_cents (cost service_config))%Z
                           state in
            match r_receipt payment_result with
            | None => failed state "'receipt'" None
            | Some None => failed state "'txHash'" None
            | Some (Some tx) =>
              (state, attempt_info "success" (Some "paystabl_payment") (Some tx)
                        None None)
            end
          end
        end
    end in
  set_payment_attempts (payment_attempts state' ++ [AttemptEntry info]) state'.

Inductive PaymentRoute := R_success | R_retry | R_failed.

(** The routers and nodes return [None] where the Python code raises
    (IndexError on an empty log or list, KeyError on a missing key,
    ValueError of [list.index]). *)
Definition route_payment_result (state : WorkflowState) : option PaymentRoute :=
  match last (payment_attempts state) with
  | Some (AttemptEntry last_attempt) =>
    if bool_decide (status last_attempt = "success") then Some R_success
    else if bool_decide (retry_count state < max_retries state) then Some R_retry
    else Some R_failed
  | _ => None
  end.

(** [last_attempt.get("error_code", "UNKNOWN")] *)
Definition entry_error_code (e : LogEntry) : string :=
  match e with
  | AttemptEntry a => default "UNKNOWN" (error_code a)
  | SwitchEntry _ => "UNKNOWN"
  end.

Definition strategy_for (code : string) : RetryStrategy :=
  if bool_decide (code = "INSUFFICIENT_FUNDS") then ALTERNATIVE_SERVICE
  else if bool_decide (code = "NETWORK_ERROR") then EXPONENTIAL_BACKOFF
  else if bool_decide (code = "API_UNAVAILABLE") then ALTERNATIVE_SERVICE
  else if bool_decide (code = "RATE_LIMITED") then LINEAR_BACKOFF
  else ALTERNATIVE_SERVICE.

Definition handle_payment_failure (state : WorkflowState) : option WorkflowState :=
  match last (payment_attempts state) with
  | Some last_attempt =>
    Some (set_retry_strategy
            (Some (strategy_for (entry_error_code last_attempt))) state)
  | None => None
  end.

(** [list.index] *)
Fixpoint index (l : list string) (x : string) : option nat :=
  match l with
  | [] => None
  | y :: l' => if bool_decide (y = x) then Some 0 else S <$> index l' x
  end.

Inductive FailureRoute := R_backoff | R_alternative | R_fallback | R_give_up.

Definition route_failure_handling (state : WorkflowState) : option FailureRoute :=
  match retry_strategy state with
  | None => None
  | Some EXPONENTIAL_BACKOFF => Some R_backoff
  | Some LINEAR_BACKOFF => Some R_backoff
  | Some ALTERNATIVE_SERVICE =>
    match index (fallback_services state) (current_service state) with
    | None => None
    | Some current_index =>
      if bool_decide (current_index < length (fallback_services state) - 1)
      then Some R_alternative
      else Some R_fallback
    end
  | Some IMMEDIATE => Some R_give_up
  end.

Definition retry_with_backoff (state : WorkflowState) : option WorkflowState :=
  match retry_strategy state with
  | None => None
  | Some strategy =>
    let state := set_retry_count (retry_count state + 1) state in
    let delay :=
      match strategy with
      | EXPONENTIAL_BACKOFF => (2 ^ Z.of_nat (retry_count state))%Z
      | LINEAR_BACKOFF => (Z.of_nat (retry_count state) * 5)%Z
      | _ => 1%Z
      end in
    Some (backoff_sleep (Z.min delay 60) state)
  end.

Definition try_alternative_service (state : WorkflowState) : option WorkflowState :=
  match index (fallback_services state) (current_service state) with
  | None => None
  | Some current_index =>
    let next_index := current_index + 1 in
    match fallback_services state !! next_index with
    | Some next =>
      let old_service := current_service state in
      let state := set_current_service next state in
      let state := set_retry_count 0 state in
      let switch_info := {| from := old_service;
                            to := current_service state;
                            reason := "payment_failure";
                            s_timestamp := clock state |} in
      Some (set_payment_attempts
              (payment_attempts state ++ [SwitchEntry switch_info]) state)
    | None => Some (set_error (Some "All services exhausted") state)
    end
  end.

Definition use_fallback_service (state : WorkflowState) : option WorkflowState :=
  match last (fallback_services state) with
  | None => None
  | Some final =>
    let state := set_current_service final state in
    Some (set_retry_count 0 state)
  end.

Definition complete_task (state : WorkflowState) : WorkflowState :=
  set_completion_summary
    (Some {| success := true;
             final_error := "";
             attempts := length (payment_attempts state) |}) state.

Definition handle_final_failure (state : WorkflowState) : WorkflowState :=
  set_completion_summary
    (Some {| success := false;
             final_error := default "Unknown error" (error state);
             attempts := length (payment_attempts state) |}) state.

(** *** The graph of [build_workflow] *)
Inductive Node :=
| N_validate_request
| N_attempt_payment
| N_handle_failure
| N_retry_with_backoff
| N_try_alternative
| N_use_fallback
| N_complete_task
| N_final_failure
| N_END      (* the run is over *)
| N_RAISED.  (* a node or router raised *)

Definition or_raised (state : WorkflowState) (r : option (Node * WorkflowState))
  : Node * WorkflowState :=
  default (N_RAISED, state) r.

(** One node of the graph followed by its outgoing edge, where the
    name [datetime] is bound to the clock. *)
Definition step (world : World) (node : Node) (state : WorkflowState)
  : Node * WorkflowState :=
  match node with
  | N_validate_request =>
    if validate_request_raises state then (N_RAISED, validate_request state)
    else (N_attempt_payment, validate_request state)
  | N_attempt_payment =>
    let state := attempt_payment world state in
    match route_payment_result state with
    | Some R_success => (N_complete_task, state)
    | Some R_retry => (N_handle_failure, state)
    | Some R_failed => (N_final_failure, state)
    | None => (N_RAISED, state)
    end
  | N_handle_failure =>
    match handle_payment_failure state with
    | None => (N_RAISED, state)
    | Some state =>
      match route_failure_handling state with
      | Some R_backoff => (N_retry_with_backoff, state)
      | Some R_alternative => (N_try_alternative, state)
      | Some R_fallback => (N_use_fallback, state)
      | Some R_give_up => (N_final_failure, state)
      | None => (N_RAISED, state)
      end
    end
  | N_retry_with_backoff =>
    or_raised state (pair N_attempt_payment <$> retry_with_backoff state)
  | N_try_alternative =>
    or_raised state (pair N_attempt_payment <$> try_alternative_service state)
  | N_use_fallback =>
    or_raised state (pair N_attempt_payment <$> use_fallback_service state)
  | N_complete_task => (N_END, complete_task state)
  | N_final_failure => (N_END, handle_final_failure state)
  | N_END => (N_END, state)
  | N_RAISED => (N_RAISED, state)
  end.

Definition finished (node : Node) : bool :=
  match node with
  | N_END | N_RAISED => true
  | _ => false
  end.

(** The run of the compiled graph, for at most [fuel] nodes. *)
Fixpoint run (world : World) (fuel : nat) (node : Node) (state : WorkflowState)
  : Node * WorkflowState :=
  match fuel with
  | 0 => (node, state)
  | S fuel' =>
    if finished node then (node, state)
    else let '(node', state') := step world node state in
         run world fuel' node' state'
  end.

(** *** The example as it is printed

    The example imports [asyncio], [typing] and [enum], not [datetime].
    Run as printed, [datetime.now()] raises NameError: in
    [attempt_payment] before the [try], and in [try_alternative_service]
    in the branch that switches, after the current service and the retry
    count have been set. *)
Definition step_as_shown (world : World) (node : Node) (state : WorkflowState)
  : Node * WorkflowState :=
  match node with
  | N_attempt_payment => (N_RAISED, state)
  | N_try_alternative =>
    match index (fallback_services state) (current_service state) with
    | None => (N_RAISED, state)
    | Some current_index =>
      match fallback_services state !! (current_index + 1) with
      | Some next =>
        (N_RAISED, set_retry_count 0 (set_current_service next state))
      | None => step world node state
      end
    end
  | _ => step world node state
  end.

Fixpoint run_as_shown (world : World) (fuel : nat) (node : Node)
    (state : WorkflowState) : Node * WorkflowState :=
  match fuel with
  | 0 => (node, state)
  | S fuel' =>
    if finished node then (node, state)
    else let '(node', state') := step_as_shown world node state in
         run_as_shown world fuel' node' state'
  end.

(** *** Notions used to state the properties of a run *)

(** A service whose configured cost is "0.00" is called through
    [call_free_service], every other one through [pay_api_endpoint]. *)
Definition is_free (service_name : string) : bool :=
  bool_decide (cost (get_service_config service_name) = "0.00").

(** The place of the current service in the hierarchy. *)
Definition position (state : WorkflowState) : option nat :=
  index (fallback_services state) (current_service state).

(** A state the retry loop is safe on: it carries a task, no service
    is listed twice, the current service is in the hierarchy, the last
    one is free, and the retry count has not passed its maximum. *)
Definition well_configured (state : WorkflowState) : Prop :=
  is_Some (task state)
  ∧ NoDup (fallback_services state)
  ∧ current_service state ∈ fallback_services state
  ∧ (∃ final, last (fallback_services state) = Some final
              ∧ is_free final = true)
  ∧ retry_count state ≤ max_retries state.


(** A paid call that raises or returns a well-formed result. *)
Definition well_formed (outcome : PayOutcome) : Prop :=
  match outcome with
  | Raised _ _ => True
  | Returned payment_result =>
    ∃ data txHash,
      payment_result = {| r_data := Some data; r_receipt := Some (Some txHash) |}
  end.

(** The quantity that decreases from one attempt to the next: services
    left after the current one, then retries left on the current one. *)
Definition variant (state : WorkflowState) : nat :=
  (length (fallback_services state) - 1 - default 0 (position state))
  * (max_retries state + 1)
  + (max_retries state - retry_count state).



(** What the log says: the attempts, their start times, the switches. *)
Definition attempt_entries (log : list LogEntry) : list AttemptInfo :=
  omap (λ e, match e with AttemptEntry a => Some a | SwitchEntry _ => None end) log.

Definition switch_entries (log : list LogEntry) : list SwitchInfo :=
  omap (λ e, match e with SwitchEntry s => Some s | AttemptEntry _ => None end) log.

End PaymentRetryWorkflow.

(** ** PaymentRateLimit (x402_headers.mdx, "Rate Limiting") *)
Module PaymentRateLimit.

(** The [attempts] map and the callbacks registered with [setTimeout]
    that have not run yet: the time each is due at (in milliseconds) and
    the key it deletes, in registration order. *)
Record Limiter := mkLimiter {
  attempts : gmap string nat;
  timers : list (Z * string)
}.

Definition empty : Limiter := {| attempts := ∅; timers := [] |}.

Definition hour_ms : Z := 60 * 60 * 1000.

(** [checkRateLimit(clientId)] called at time [now]. *)
Definition checkRateLimit (now : Z) (clientId : string) (this : Limiter)
  : bool * Limiter :=
  let key := "payment_attempts:" +:+ clientId in
  let attempts_ := default 0 (attempts this !! key) in
  if bool_decide (10 ≤ attempts_) then (false, this)
  else
    (true,
     {| attempts := <[key := attempts_ + 1]> (attempts this);
        timers := timers this ++ [((now + hour_ms)%Z, key)] |}).

(** The body of the callback: [this.attempts.delete(key)]. *)
Definition expire (key : string) (m : gmap string nat) : gmap string nat :=
  delete key m.

(** The event loop up to time [now]: every callback that is due runs,
    in registration order, and is removed from the pending ones. *)
Definition run_timers (now : Z) (this : Limiter) : Limiter :=
  {| attempts :=
       foldl (λ m t, expire (snd t) m) (attempts this)
             (filter (λ t, (fst t ≤ now)%Z) (timers this));
     timers := filter (λ t, ¬ (fst t ≤ now)%Z) (timers this) |}.

(** A request of [clientId] arriving at time [at_ms]. *)
Record Request := mkRequest {
  at_ms : Z;
  clientId : string
}.

(** Requests served in order of arrival; returns the final limiter and
    the answers of [checkRateLimit], oldest first. *)
Fixpoint serve (this : Limiter) (reqs : list Request) : Limiter * list bool :=
  match reqs with
  | [] => (this, [])
  | r :: rest =>
    let '(ok, this') := checkRateLimit (at_ms r) (clientId r)
                          (run_timers (at_ms r) this) in
    let '(final, oks) := serve this' rest in
    (final, ok :: oks)
  end.

(** The number of requests of [client] admitted in the time interval
    from [lo] to [hi]. *)
Definition admitted_between (lo hi : Z) (client : string)
    (reqs : list Request) (oks : list bool) : nat :=
  length (filter (λ p : Request * bool,
                    snd p = true ∧ clientId (fst p) = client ∧
                    (lo ≤ at_ms (fst p))%Z ∧ (at_ms (fst p) ≤ hi)%Z)
                 (zip reqs oks)).

End PaymentRateLimit.

(** ** X402Validator.validatePaymentHeader and the Express middleware
       (x402_headers.mdx, "Server-Side Validation", "Express.js Middleware") *)
Module X402Middleware.

Record ValidationResult := mkValidationResult {
  valid : bool;
  error : option string;
  code : option string;
  payment : option Payment
}.

(** The object [this] of the validator.  [isValidFormat] and
    [verifyPaymentAmount] are not defined in the documentation; [None]
    stands for a helper that throws.  The middleware builds the
    validator with [new X402Validator()], which sets no
    [requiredAmount]. *)
Record Validator := mkValidator {
  isValidFormat : Payment -> option bool;
  chain : X402Validator.ChainVerifiers;
  verifyPaymentAmount : Payment -> option string -> option bool;
  requiredAmount : option string
}.

(** [validatePaymentHeader]; [None] when a helper threw. *)
Definition validatePaymentHeader (this : Validator) (header : string)
  : option ValidationResult :=
  let payment := X402Validator.parsePaymentHeader header in
  formatOk ← isValidFormat this payment;
  if negb formatOk then
    Some {| valid := false;
            error := Some "Invalid payment header format";
            code := Some "INVALID_FORMAT";
            payment := None |}
  else if negb (X402Validator.verifyPaymentOnChain (chain this) payment) then
    Some {| valid := false;
            error := Some "Payment not found or invalid";
            code := Some "PAYMENT_NOT_FOUND";
            payment := None |}
  else
    amountValid ← verifyPaymentAmount this payment (requiredAmount this);
    if negb amountValid then
      Some {| valid := false;
              error := Some "Payment amount insufficient";
              code := Some "INSUFFICIENT_AMOUNT";
              payment := None |}
    else
      Some {| valid := true; error := None; code := None;
              payment := Some payment |}.

(** The [payment] object of the 402 body. *)
Record PaymentInfo := mkPaymentInfo {
  i_amount : string;
  i_currency : string;
  i_methods : list string;
  i_expires_in : Z
}.

(** The JSON bodies the middleware sends. *)
Record Body := mkBody {
  b_error : string;
  b_code : option string;
  b_message : option string;
  b_payment : option PaymentInfo
}.

(** What the middleware does with a request: it answers, or it stores
    the payment in [req.payment] and calls [next()]. *)
Inductive Reply :=
| Respond (status : Z) (headers : gmap string string) (body : Body)
| Next (payment : option Payment).

(** [!paymentHeader]: the header is missing or the empty string. *)
Definition falsy (header : option string) : bool :=
  match header with
  | None => true
  | Some h => bool_decide (h = EmptyString)
  end.

(** The middleware returned by [x402Middleware(requiredAmount,
    currency)], run on a request whose [x-payment] header is
    [paymentHeader] at time [now] (milliseconds); [toUTCString] is the
    formatting of [Date]. *)
Definition x402Middleware (requiredAmount currency : string)
    (validator : Validator) (toUTCString : Z -> string) (now : Z)
    (paymentHeader : option string) : Reply :=
  if falsy paymentHeader then
    Respond 402
      (<["Accept-Payment" := "paystabl agent=required, bitcoin lightning=optional"]>
       (<["Payment-Amount" :=
            "amount=" +:+ requiredAmount +:+ " currency=" +:+ currency]>
       (<["Payment-Purpose" := "API access fee"]>
       (<["Payment-Expires" := toUTCString (now + 15 * 60 * 1000)%Z]> ∅))))
      {| b_error := "payment_required";
         b_code := None;
         b_message := Some ("Payment of " +:+ requiredAmount +:+ " "
                            +:+ currency +:+ " required");
         b_payment := Some {| i_amount := requiredAmount;
                              i_currency := currency;
                              i_methods := ["paystabl"; "bitcoin"];
                              i_expires_in := 900 |} |}
  else
    match validatePaymentHeader validator (default EmptyString paymentHeader) with
    | Some result =>
      if negb (valid result) then
        Respond 400 ∅
          {| b_error := "payment_invalid";
             b_code := code result;
             b_message := error result;
             b_payment := None |}
      else Next (payment result)
    | None =>
      Respond 500 ∅
        {| b_error := "payment_processing_error";
           b_code := None;
           b_message := Some "Error validating payment";
           b_payment := None |}
    end.

(** A string without the character "=". *)
Fixpoint no_equals (s : string) : Prop :=
  match s with
  | EmptyString => True
  | String c rest => c ≠ "="%char ∧ no_equals rest
  end.

End X402Middleware.

(** ** SecureAgentWallet (security.mdx, "Smart Wallet Architecture") *)
Module SecureAgentWallet.

(** [lastResetTime] is keyed by [keccak256(abi.encodePacked(day))];
    the key is represented by the day number itself (distinct days have
    distinct keys). *)
Record Storage := mkStorage {
  signers : gmap N bool;
  requiredSignatures : N;
  dailyLimits : gmap N N;
  dailySpent : gmap N N;
  lastResetTime : gmap N N;
  emergencyStop : bool;
  emergencyContact : N
}.

Inductive Revert :=
| UnauthorizedSigner       (* "Unauthorized signer" *)
| EmergencyStopActivated   (* "Emergency stop activated" *)
| DailyLimitExceeded       (* "Daily limit exceeded" *)
| InvalidSignatures        (* "Invalid signatures" *)
| TransactionFailed        (* "Transaction failed" *)
| Overflow.                (* checked arithmetic panic *)

(** [1 days] *)
Definition one_day : N := 86400.

(** [block.timestamp / 1 days] *)
Definition day_of (timestamp : N) : N := (timestamp / one_day)%N.

(** The first part of the modifier [withinDailyLimit]: on the first
    call of a day the sender's counter is cleared and the day is
    stamped. *)
Definition reset_if_new_day (st : Storage) (sender timestamp : N) : Storage :=
  if (AgentWallet.readN (lastResetTime st) (day_of timestamp) =? 0)%N then
    {| signers := signers st;
       requiredSignatures := requiredSignatures st;
       dailyLimits := dailyLimits st;
       dailySpent := <[sender := 0%N]> (dailySpent st);
       lastResetTime := <[day_of timestamp := timestamp]> (lastResetTime st);
       emergencyStop := emergencyStop st;
       emergencyContact := emergencyContact st |}
  else st.

(** [executeTransaction(to, value, data, signatures)] sent by [sender]
    in a block with the given [timestamp]; [signatures_ok] is the answer
    of [validateSignatures], which the documentation does not define,
    and [call_ok] the result of the low-level call.  A revert rolls the
    storage back, the reset of the modifier included. *)
Definition executeTransaction (st : Storage) (sender to value : N)
    (signatures_ok call_ok : bool) (timestamp : N) : Revert + Storage :=
  (* modifier onlyAuthorized *)
  if negb (AgentWallet.readB (signers st) sender) then inl UnauthorizedSigner
  (* modifier notEmergencyStopped *)
  else if emergencyStop st then inl EmergencyStopActivated
  else
    (* modifier withinDailyLimit(value) *)
    let st := reset_if_new_day st sender timestamp in
    match AgentWallet.checked_add (AgentWallet.readN (dailySpent st) sender) value with
    | None => inl Overflow
    | Some total =>
      if negb (total <=? AgentWallet.readN (dailyLimits st) sender)%N
      then inl DailyLimitExceeded
      else if negb signatures_ok then inl InvalidSignatures
      else
        match AgentWallet.checked_add
                (AgentWallet.readN (dailySpent st) sender) value with
        | None => inl Overflow
        | Some spent' =>
          if negb call_ok then inl TransactionFailed
          else inr {| signers := signers st;
                      requiredSignatures := requiredSignatures st;
                      dailyLimits := dailyLimits st;
                      dailySpent := <[sender := spent']> (dailySpent st);
                      lastResetTime := lastResetTime st;
                      emergencyStop := emergencyStop st;
                      emergencyContact := emergencyContact st |}
        end
    end.

Record Tx := mkTx {
  t_sender : N;
  t_to : N;
  t_value : N;
  t_signatures_ok : bool;
  t_call_ok : bool;
  t_timestamp : N
}.

(** A transaction that went through, and whether it was the one that
    opened its day (the one the modifier reset the counter for). *)
Record Executed := mkExecuted {
  x_tx : Tx;
  x_opened_day : bool
}.

(** A sequence of transactions, in block order: the final storage and
    the transactions that went through, oldest first. *)
Fixpoint execute (st : Storage) (txs : list Tx) : Storage * list Executed :=
  match txs with
  | [] => (st, [])
  | tx :: rest =>
    match executeTransaction st (t_sender tx) (t_to tx) (t_value tx)
            (t_signatures_ok tx) (t_call_ok tx) (t_timestamp tx) with
    | inl _ => execute st rest
    | inr st' =>
      let opened := (AgentWallet.readN (lastResetTime st)
                       (day_of (t_timestamp tx)) =? 0)%N in
      (fst (execute st' rest),
       {| x_tx := tx; x_opened_day := opened |} :: snd (execute st' rest))
    end
  end.

(** What [sender] got executed on [day], and in all. *)
Definition spent_on (log : list Executed) (sender day : N) : N :=
  foldr N.add 0%N
    (map (λ x, t_value (x_tx x))
         (filter (λ x, t_sender (x_tx x) = sender
                       ∧ day_of (t_timestamp (x_tx x)) = day) log)).

Definition spent_by (log : list Executed) (sender : N) : N :=
  foldr N.add 0%N
    (map (λ x, t_value (x_tx x))
         (filter (λ x, t_sender (x_tx x) = sender) log)).

End SecureAgentWallet.

(** ** AdaptiveRateLimiter (security.mdx, "Rate Limiting and Abuse
       Prevention") *)
Module AdaptiveRateLimiter.

Record RateLimit := mkRateLimit {
  count : Z;
  maxRequests : Z;
  windowMs : Z;
  windowStart : Z
}.

Record RateLimitResult := mkRateLimitResult {
  allowed : bool;
  remainingRequests : Z;
  resetTime : Z
}.

(** [Math.floor(now / limit.windowMs) * limit.windowMs], for a window
    length other than zero. *)
Definition window_of (now windowMs : Z) : Z := (now / windowMs * windowMs)%Z.

(** [checkAndUpdateLimit(agentId, operation)] called at time [now].
    [getDefaultLimit] is not defined in the documentation; it is taken
    to return a fresh object on every call.  The [limit] object found
    in the map is changed in place, so the window reset is kept in the
    map even when the request is then refused; a default object that is
    refused is not put into the map. *)
Definition checkAndUpdateLimit (getDefaultLimit : string -> RateLimit)
    (now : Z) (agentId operation : string) (limits : gmap string RateLimit)
  : RateLimitResult * gmap string RateLimit :=
  let key := agentId +:+ ":" +:+ operation in
  let limit := default (getDefaultLimit operation) (limits !! key) in
  let stored := bool_decide (is_Some (limits !! key)) in
  let windowStart_ := window_of now (windowMs limit) in
  let limit :=
    if bool_decide (windowStart limit ≠ windowStart_) then
      {| count := 0; maxRequests := maxRequests limit;
         windowMs := windowMs limit; windowStart := windowStart_ |}
    else limit in
  if bool_decide (maxRequests limit ≤ count limit)%Z then
    ({| allowed := false; remainingRequests := 0;
        resetTime := (windowStart_ + windowMs limit)%Z |},
     if stored then <[key := limit]> limits else limits)
  else
    let limit := {| count := (count limit + 1)%Z;
                    maxRequests := maxRequests limit;
                    windowMs := windowMs limit;
                    windowStart := windowStart limit |} in
    ({| allowed := true;
        remainingRequests := (maxRequests limit - count limit)%Z;
        resetTime := (windowStart_ + windowMs limit)%Z |},
     <[key := limit]> limits).

Record Request := mkRequest {
  at_ms : Z;
  agentId : string;
  operation : string
}.

(** Requests served one after the other; returns the final map and the
    results, oldest first. *)
Fixpoint serve (getDefaultLimit : string -> RateLimit)
    (limits : gmap string RateLimit) (reqs : list Request)
  : gmap string RateLimit * list RateLimitResult :=
  match reqs with
  | [] => (limits, [])
  | r :: rest =>
    let step := checkAndUpdateLimit getDefaultLimit (at_ms r) (agentId r)
                  (operation r) limits in
    (fst (serve getDefaultLimit (snd step) rest),
     fst step :: snd (serve getDefaultLimit (snd step) rest))
  end.

(** The key a request is counted under. *)
Definition key_of (r : Request) : string :=
  agentId r +:+ ":" +:+ operation r.

(** How many of the requests counted under [key] were allowed. *)
Definition allowed_for (key : string) (reqs : list Request)
    (results : list RateLimitResult) : nat :=
  length (filter (λ p : Request * RateLimitResult,
                    allowed (snd p) = true ∧ key_of (fst p) = key)
                 (zip reqs results)).

(** What is left for [key] in the window that starts at [start], when
    every limit of the key allows [most] requests per window. *)
Definition allowance (start most : Z) (key : string)
    (limits : gmap string RateLimit) : Z :=
  match limits !! key with
  | Some limit =>
    if bool_decide (windowStart limit = start) then (most - count limit)%Z
    else most
  | None => most
  end.

(** The configuration of a key: every limit the key can be counted on,
    the stored one or the default of a request, has window length [w],
    allows [most] requests and has a count that is not negative. *)
Definition configured (getDefaultLimit : string -> RateLimit) (w most : Z)
    (key : string) (limits : gmap string RateLimit) (reqs : list Request)
  : Prop :=
  (∀ limit, limits !! key = Some limit ->
            windowMs limit = w ∧ maxRequests limit = most
            ∧ (0 ≤ count limit)%Z)
  ∧ Forall (λ r, key_of r = key ->
                 windowMs (getDefaultLimit (operation r)) = w
                 ∧ maxRequests (getDefaultLimit (operation r)) = most
                 ∧ (0 ≤ count (getDefaultLimit (operation r)))%Z) reqs.

End AdaptiveRateLimiter.

(** ** AdvancedRetryStrategies (examples/langgraph_retry.mdx) *)
Module AdvancedRetryStrategies.
Import PaymentRetryWorkflow.

(** [failure_history[-5:]] *)
Definition last_five (failure_history : list LogEntry) : list LogEntry :=
  drop (length failure_history - 5) failure_history.

(** The loop that fills [error_counts]. *)
Definition count_codes (failures : list LogEntry) : gmap string nat :=
  foldl (λ error_counts failure,
           let error_code := entry_error_code failure in
           <[error_code := default 0 (error_counts !! error_code) + 1]>
             error_counts)
        ∅ failures.

(** [adaptive_retry]; its [workflow_state] argument is not used. *)
Definition adaptive_retry (failure_history : list LogEntry) : RetryStrategy :=
  let recent_failures := last_five failure_history in
  let error_counts := count_codes recent_failures in
  if bool_decide (2 < default 0 (error_counts !! "NETWORK_ERROR")) then
    EXPONENTIAL_BACKOFF
  else if bool_decide (1 < default 0 (error_counts !! "RATE_LIMITED")) then
    LINEAR_BACKOFF
  else if bool_decide (0 < default 0 (error_counts !! "INSUFFICIENT_FUNDS")) then
    ALTERNATIVE_SERVICE
  else EXPONENTIAL_BACKOFF.

(** How often an error code occurs among failures. *)
Definition occurrences (code : string) (failures : list LogEntry) : nat :=
  length (filter (λ failure, entry_error_code failure = code) failures).

Definition quality_hierarchy : list string :=
  ["basic"; "adequate"; "good"; "excellent"].

(** [quality_threshold_retry]; [None] where [list.index] raises
    ValueError. *)
Definition quality_threshold_retry (workflow_state : WorkflowState)
    (minimum_quality : string) : option bool :=
  min_quality_index ← index quality_hierarchy minimum_quality;
  let current_service_config :=
    get_service_config (current_service workflow_state) in
  current_quality_index ←
    index quality_hierarchy (quality current_service_config);
  Some (bool_decide (current_quality_index < min_quality_index)).

(** [cost_aware_retry], amounts in cents; [None] where [list.index]
    raises ValueError. *)
Definition cost_aware_retry (workflow_state : WorkflowState)
    (budget_limit : Z) : option bool :=
  let remaining_budget := (budget_limit - total_cost workflow_state)%Z in
  current_service_index ←
    index (fallback_services workflow_state) (current_service workflow_state);
  let next_service_cost :=
    if bool_decide (current_service_index
                    < length (fallback_services workflow_state) - 1)
    then match fallback_services workflow_state !! (current_service_index + 1) with
         | Some next_service =>
           float_cents (cost (get_service_config next_service))
         | None => 0%Z
         end
    else 0%Z in
  Some (bool_decide (next_service_cost ≤ remaining_budget)%Z).

(** The delay before retry number [k] under linear backoff. *)
Definition linear_delay (k : nat) : Z := Z.min (Z.of_nat k * 5) 60.

(** What a run has charged: nothing, or, once a paid call has succeeded
    and the run is being completed, the price of that one service. *)
Definition charged_once (node : Node) (state : WorkflowState) : Prop :=
  total_cost state = 0%Z
  ∨ ((node = N_complete_task
      ∨ (node = N_END
         ∧ ∃ n, completion_summary state
                = Some {| success := true; final_error := ""; attempts := n |}))
     ∧ total_cost state
       = float_cents (cost (get_service_config (current_service state)))
     ∧ ∃ a, last (payment_attempts state) = Some (AttemptEntry a)
            ∧ service a = current_service state
            ∧ status a = "success"
            ∧ method a = Some "paystabl_payment").

(** The prices of the services listed before position [i] of the
    built-in hierarchy, added up. *)
Definition prices_before (i : nat) : Z :=
  foldr Z.add 0%Z
        ((λ s, float_cents (cost (get_service_config s)))
           <$> take i default_fallback_services).

(** What a run has charged at most, whatever the paid services return:
    the prices of the services it has left behind, and that of the
    current one once an attempt on it has been charged.  A failed
    attempt that was charged carries the code "UNKNOWN", which makes
    the run leave the service. *)
Definition charged_in_order (node : Node) (state : WorkflowState) : Prop :=
  match node with
  | N_validate_request => True
  | _ =>
    (0 ≤ total_cost state)%Z
    ∧ fallback_services state = default_fallback_services
    ∧ ∃ i, position state = Some i
      ∧ match node with
        | N_attempt_payment | N_retry_with_backoff =>
          (total_cost state ≤ prices_before i)%Z
        | N_handle_failure =>
          (total_cost state ≤ prices_before i)%Z
          ∨ ((total_cost state ≤ prices_before (i + 1))%Z
             ∧ ∃ e, last (payment_attempts state) = Some e
                    ∧ entry_error_code e = "UNKNOWN")
        | _ => (total_cost state ≤ prices_before (i + 1))%Z
        end
  end.

End AdvancedRetryStrategies.

(** ** RetryAnalytics (examples/langgraph_retry.mdx)

    Python's floats are read as exact rationals, costs in cents. *)
Module RetryAnalytics.
Import PaymentRetryWorkflow.
Import QArith.
Local Close Scope Q_scope.

(** A Python dict with string keys: its items in insertion order.
    [d.get(key)] and [d[key] = value]. *)
Fixpoint dict_get {V} (d : list (string * V)) (key : string) : option V :=
  match d with
  | [] => None
  | (k, v) :: d' => if bool_decide (k = key) then Some v else dict_get d' key
  end.

Fixpoint dict_set {V} (d : list (string * V)) (key : string) (value : V)
  : list (string * V) :=
  match d with
  | [] => [(key, value)]
  | (k, v) :: d' =>
    if bool_decide (k = key) then (k, value) :: d'
    else (k, v) :: dict_set d' key value
  end.

Record ServiceStats := mkStats {
  s_attempts : nat;
  s_successes : nat;
  s_reliability : Q
}.

Record CostAnalysis := mkCost {
  average_cost : Q;
  cost_by_service : list (string * Q);
  cost_efficiency : Q
}.

Record Analysis := mkAnalysis {
  total_workflows : nat;
  success_rate : Q;
  average_retries : Q;
  common_failure_points : list (string * nat);
  cost_analysis : CostAnalysis;
  service_reliability : list (string * ServiceStats)
}.

(** [attempt.get("status")] and [attempt.get("service")]: the entries
    that record a switch of service have neither key. *)
Definition entry_status (attempt : LogEntry) : option string :=
  match attempt with
  | AttemptEntry a => Some (status a)
  | SwitchEntry _ => None
  end.

Definition entry_service (attempt : LogEntry) : option string :=
  match attempt with
  | AttemptEntry a => Some (service a)
  | SwitchEntry _ => None
  end.

(** The two updates of the inner loop. *)
Definition count_failure (failure_points : list (string * nat))
    (attempt : LogEntry) : list (string * nat) :=
  if bool_decide (entry_status attempt = Some "failed") then
    let error_code := entry_error_code attempt in
    dict_set failure_points error_code
             (default 0 (dict_get failure_points error_code) + 1)
  else failure_points.

Definition count_service (reliability : list (string * ServiceStats))
    (attempt : LogEntry) : list (string * ServiceStats) :=
  match entry_service attempt with
  | None => reliability
  | Some service =>
    if bool_decide (service = "") then reliability
    else
      let reliability :=
        match dict_get reliability service with
        | None => dict_set reliability service (mkStats 0 0 0)
        | Some _ => reliability
        end in
      let reliability :=
        match dict_get reliability service with
        | Some stats =>
          dict_set reliability service
                   (mkStats (s_attempts stats + 1) (s_successes stats)
                            (s_reliability stats))
        | None => reliability
        end in
      if bool_decide (entry_status attempt = Some "success") then
        match dict_get reliability service with
        | Some stats =>
          dict_set reliability service
                   (mkStats (s_attempts stats) (s_successes stats + 1)
                            (s_reliability stats))
        | None => reliability
        end
      else reliability
  end.

(** The local variables of [analyze_retry_patterns] and the two
    dictionaries it fills. *)
Record Tally := mkTally {
  successful_workflows : nat;
  total_retries : nat;
  total_cost_sum : Z;
  failure_points : list (string * nat);
  reliability : list (string * ServiceStats)
}.

(** [state.get("completion_summary", {}).get("success")] *)
Definition succeeded (state : WorkflowState) : bool :=
  match completion_summary state with
  | Some summary => success summary
  | None => false
  end.

Definition count_state (tally : Tally) (state : WorkflowState) : Tally :=
  {| successful_workflows :=
       if succeeded state then successful_workflows tally + 1
       else successful_workflows tally;
     total_retries := total_retries tally + retry_count state;
     total_cost_sum := total_cost_sum tally + total_cost state;
     failure_points :=
       foldl count_failure (failure_points tally) (payment_attempts state);
     reliability :=
       foldl count_service (reliability tally) (payment_attempts state) |}.

Definition of_nat (n : nat) : Q := inject_Z (Z.of_nat n).

(** The last loop: the reliability of a service in percent. *)
Definition with_reliability (stats : ServiceStats) : ServiceStats :=
  if bool_decide (0 < s_attempts stats) then
    mkStats (s_attempts stats) (s_successes stats)
            (of_nat (s_successes stats) / of_nat (s_attempts stats) * 100)%Q
  else stats.

(** [analyze_retry_patterns]; [None] where the division by
    [len(workflow_states)] raises ZeroDivisionError. *)
Definition analyze_retry_patterns (workflow_states : list WorkflowState)
  : option Analysis :=
  let tally := foldl count_state (mkTally 0 0 0 [] []) workflow_states in
  let n := length workflow_states in
  if bool_decide (n = 0) then None
  else
    Some {| total_workflows := n;
            success_rate := (of_nat (successful_workflows tally) / of_nat n * 100)%Q;
            average_retries := (of_nat (total_retries tally) / of_nat n)%Q;
            common_failure_points := failure_points tally;
            cost_analysis :=
              {| average_cost := (inject_Z (total_cost_sum tally) / of_nat n)%Q;
                 cost_by_service := [];
                 cost_efficiency := 0 |};
            service_reliability :=
              prod_map id with_reliability <$> reliability tally |}.

(** [a < b] on floats *)
Definition Qlt_bool (a b : Q) : bool := negb (Qle_bool b a).

(** [generate_retry_recommendations]; the average cost is in cents, so
    5.0 is 500. *)
Definition generate_retry_recommendations (analysis : Analysis) : list string :=
  let recommendations := [] in
  let recommendations :=
    if Qlt_bool (success_rate analysis) 80 then
      recommendations
      ++ ["Consider increasing retry limits or improving service reliability"]
    else recommendations in
  let recommendations :=
    if Qlt_bool 500 (average_cost (cost_analysis analysis)) then
      recommendations
      ++ ["Review service hierarchy to prioritize cost-effective options"]
    else recommendations in
  let unreliable_services :=
    fst <$> filter (λ item, Qlt_bool (s_reliability (snd item)) 70 = true)
                   (service_reliability analysis) in
  let recommendations :=
    match unreliable_services with
    | [] => recommendations
    | _ =>
      recommendations
      ++ ["Consider replacing unreliable services: "
          +:+ String.concat ", " unreliable_services]
    end in
  let recommendations :=
    if bool_decide (is_Some (dict_get (common_failure_points analysis)
                                      "INSUFFICIENT_FUNDS")) then
      recommendations
      ++ ["Implement automatic wallet funding or better balance monitoring"]
    else recommendations in
  if bool_decide (is_Some (dict_get (common_failure_points analysis)
                                    "NETWORK_ERROR")) then
    recommendations
    ++ ["Implement better network error handling and longer timeouts"]
  else recommendations.

(** *** What the logs of the analysed runs contain *)

Definition all_attempts (workflow_states : list WorkflowState) : list LogEntry :=
  workflow_states ≫= payment_attempts.

Definition attempts_on (service : string) (log : list LogEntry) : nat :=
  length (filter (λ e, entry_service e = Some service) log).

Definition successes_on (service : string) (log : list LogEntry) : nat :=
  length (filter (λ e, entry_service e = Some service
                       ∧ entry_status e = Some "success") log).

Definition failures_with (code : string) (log : list LogEntry) : nat :=
  length (filter (λ e, entry_status e = Some "failed"
                       ∧ entry_error_code e = code) log).

(** A log in which every attempt on a free service succeeded. *)
Definition free_attempts_succeed (log : list LogEntry) : Prop :=
  Forall (λ e, match e with
               | AttemptEntry a =>
                 is_free (service a) = true → status a = "success"
               | SwitchEntry _ => True
               end) log.

(** The final state of some run of the workflow. *)
Definition final_state_of_a_run (state : WorkflowState) : Prop :=
  ∃ world fuel initial,
    state = snd (run world (S fuel) N_validate_request initial).

End RetryAnalytics.

(** ** PaymentErrorHandler (x402_headers.mdx, "Error Handling Implementation") *)
Module PaymentErrorHandler.

(** [PaymentError]: a field that is [undefined] is [None]. *)
Record PaymentError := mkError {
  code : option string;
  receivedAmount : option string;
  requiredAmount : option string;
  expiredAt : option string;
  paymentId : option string
}.

(** [ErrorResponse]: a key that is absent or [undefined] is [None]. *)
Record ErrorResponse := mkResponse {
  status : Z;
  error : string;
  r_code : option string;
  message : string;
  required_amount : option string;
  received_amount : option string;
  expired_at : option string;
  current_time : option string;
  payment_id : option string
}.

(** A value inside a template literal. *)
Definition shown (value : option string) : string := default "undefined" value.

(** [handlePaymentError]; [now] is [new Date().toISOString()]. *)
Definition handlePaymentError (now : string) (e : PaymentError) : ErrorResponse :=
  if bool_decide (code e = Some "INSUFFICIENT_AMOUNT") then
    {| status := 400;
       error := "payment_invalid";
       r_code := code e;
       message := "Payment amount " +:+ shown (receivedAmount e)
                  +:+ " is less than required " +:+ shown (requiredAmount e);
       required_amount := requiredAmount e;
       received_amount := receivedAmount e;
       expired_at := None; current_time := None; payment_id := None |}
  else if bool_decide (code e = Some "PAYMENT_EXPIRED") then
    {| status := 400;
       error := "payment_expired";
       r_code := code e;
       message := "Payment offer has expired, please request a new payment";
       required_amount := None; received_amount := None;
       expired_at := expiredAt e;
       current_time := Some now;
       payment_id := None |}
  else if bool_decide (code e = Some "PAYMENT_NOT_FOUND") then
    {| status := 400;
       error := "payment_not_found";
       r_code := code e;
       message := "Payment transaction not found on blockchain";
       required_amount := None; received_amount := None;
       expired_at := None; current_time := None;
       payment_id := paymentId e |}
  else
    {| status := 500;
       error := "payment_processing_error";
       r_code := Some "UNKNOWN_ERROR";
       message := "An error occurred processing the payment";
       required_amount := None; received_amount := None;
       expired_at := None; current_time := None; payment_id := None |}.

(** The table "Common Error Codes": each code with its HTTP status. *)
Definition common_error_codes : list (string * Z) :=
  [("PAYMENT_REQUIRED", 402); ("PAYMENT_INVALID", 400);
   ("PAYMENT_NOT_FOUND", 400); ("INSUFFICIENT_AMOUNT", 400);
   ("PAYMENT_EXPIRED", 400); ("PAYMENT_ALREADY_USED", 400);
   ("UNSUPPORTED_METHOD", 400)]%Z.

Definition with_code (c : string) (e : PaymentError) : PaymentError :=
  mkError (Some c) (receivedAmount e) (requiredAmount e) (expiredAt e)
          (paymentId e).

End PaymentErrorHandler.

(** ** The FastAPI handler (x402_headers.mdx, "FastAPI Implementation") *)
Module FastAPI.

(** The Python class [X402Handler]. *)
Record Handler := mkHandler {
  amount : string;
  currency : string
}.

Record PaymentOffer := mkOffer {
  o_amount : string;
  o_currency : string;
  methods : list string
}.

Record Detail := mkDetail {
  d_error : string;
  d_message : string;
  d_payment : PaymentOffer
}.

Record HTTPException := mkException {
  status_code : Z;
  detail : Detail;
  headers : gmap string string
}.

Record Validated := mkValidated {
  valid : bool;
  v_amount : string
}.

Definition validate_payment (self : Handler) (payment_header : string)
  : Validated :=
  {| valid := true; v_amount := amount self |}.

(** [require_payment]: the raised exception or the returned payment.
    [not x_payment] holds for [None] and for the empty string. *)
Definition require_payment (self : Handler) (x_payment : option string)
  : HTTPException + Validated :=
  match x_payment with
  | Some payment_header =>
    if bool_decide (payment_header = "") then
      inl {| status_code := 402;
             detail :=
               {| d_error := "payment_required";
                  d_message := "Payment of " +:+ amount self +:+ " "
                               +:+ currency self +:+ " required";
                  d_payment := {| o_amount := amount self;
                                  o_currency := currency self;
                                  methods := ["paystabl"; "bitcoin"] |} |};
             headers :=
               <["Accept-Payment" :=
                   "paystabl agent=required, bitcoin lightning=optional"]>
               (<["Payment-Amount" :=
                    "amount=" +:+ amount self +:+ " currency=" +:+ currency self]>
               (<["Payment-Purpose" := "API access fee"]> ∅)) |}
    else inr (validate_payment self payment_header)
  | None =>
      inl {| status_code := 402;
             detail :=
               {| d_error := "payment_required";
                  d_message := "Payment of " +:+ amount self +:+ " "
                               +:+ currency self +:+ " required";
                  d_payment := {| o_amount := amount self;
                                  o_currency := currency self;
                                  methods := ["paystabl"; "bitcoin"] |} |};
             headers :=
               <["Accept-Payment" :=
                   "paystabl agent=required, bitcoin lightning=optional"]>
               (<["Payment-Amount" :=
                    "amount=" +:+ amount self +:+ " currency=" +:+ currency self]>
               (<["Payment-Purpose" := "API access fee"]> ∅)) |}
  end.

End FastAPI.

(** ** Concrete inputs used by the examples of Part II *)
Module Scenarios.

(** A verifier that requires 2.50 paid to "0xmerchant", knows the
    transaction 0x1234 and accepts the signature 0xabcd. *)
Definition merchant : SecurePaymentVerification.Verifier :=
  {| SecurePaymentVerification.verifySignature :=
       λ p, bool_decide (p_signature p = Some "0xabcd");
     SecurePaymentVerification.verifyTransactionExists :=
       λ r, bool_decide (r = Some "0x1234");
     SecurePaymentVerification.getTransactionDetails :=
       λ _, {| SecurePaymentVerification.tx_amount := 250;
               SecurePaymentVerification.tx_recipient := "0xmerchant";
               SecurePaymentVerification.tx_timestamp := 1705314300 |};
     SecurePaymentVerification.requiredAmount := 250;
     SecurePaymentVerification.paymentAddress := "0xmerchant" |}.

Definition genuine : Payment :=
  {| p_type := Some "paystabl"; p_receipt := Some "0x1234";
     p_signature := Some "0xabcd"; p_agent := Some "agent_123";
     p_amount := None |}.

(** A wallet whose agent (address 1) has a daily limit of 10.00 and
    may pay the recipient at address 2. *)
Definition wallet : AgentWallet.Storage :=
  {| AgentWallet.agent := 1%N;
     AgentWallet.dailyLimits := {[ 1%N := 1000%N ]};
     AgentWallet.dailySpent := ∅;
     AgentWallet.allowlist := {[ 2%N := true ]} |}.

(** A payment of 6.00 by the agent to the allowlisted recipient. *)
Definition pay6 : AgentWallet.Call :=
  {| AgentWallet.c_sender := 1%N; AgentWallet.c_recipient := 2%N;
     AgentWallet.c_amount := 600%N; AgentWallet.c_ok := true |}.

(** Policies with every limit at 10.00, and helpers whose other checks
    always pass. *)
Definition policies10 : PolicyEnforcement.SpendingPolicies :=
  {| PolicyEnforcement.dailyLimit := 1000;
     PolicyEnforcement.weeklyLimit := 1000;
     PolicyEnforcement.monthlyLimit := 1000;
     PolicyEnforcement.perTransactionLimit := 1000;
     PolicyEnforcement.allowedHours := [];
     PolicyEnforcement.allowedDays := [];
     PolicyEnforcement.timezone := "UTC";
     PolicyEnforcement.maxTransactionsPerHour := 100;
     PolicyEnforcement.maxTransactionsPerDay := 100;
     PolicyEnforcement.cooldownPeriod := 0;
     PolicyEnforcement.suspiciousAmountThreshold := 100000;
     PolicyEnforcement.velocityAlertThreshold := 100;
     PolicyEnforcement.emergencyStopEnabled := false |}.

Definition pass : PolicyEnforcement.ValidationResult :=
  {| PolicyEnforcement.valid := true;
     PolicyEnforcement.error := None;
     PolicyEnforcement.requiresApproval := None |}.

Definition lenient : PolicyEnforcement.Helpers :=
  {| PolicyEnforcement.getPolicies := λ _, policies10;
     PolicyEnforcement.getCurrentSpending :=
       λ _, {| PolicyEnforcement.daily := 0 |};
     PolicyEnforcement.checkTimeRestrictions := λ _, pass;
     PolicyEnforcement.checkVelocityLimits := λ _ _, pass;
     PolicyEnforcement.checkSuspiciousActivity := λ _ _ _, pass |}.

(** Helpers whose time-restriction check fails. *)
Definition outsideHours : PolicyEnforcement.ValidationResult :=
  {| PolicyEnforcement.valid := false;
     PolicyEnforcement.error := Some "Transaction outside allowed hours";
     PolicyEnforcement.requiresApproval := Some false |}.

Definition afterHours : PolicyEnforcement.Helpers :=
  {| PolicyEnforcement.getPolicies := λ _, policies10;
     PolicyEnforcement.getCurrentSpending :=
       λ _, {| PolicyEnforcement.daily := 0 |};
     PolicyEnforcement.checkTimeRestrictions := λ _, outsideHours;
     PolicyEnforcement.checkVelocityLimits := λ _ _, pass;
     PolicyEnforcement.checkSuspiciousActivity := λ _ _ _, pass |}.

(** The payment collaborator of the client: it knows the date of the
    documentation's example and pays whatever it is asked to. *)
Definition sdk : X402Handler.Collaborators :=
  {| X402Handler.parseAcceptPayment := λ _, ["paystabl"];
     X402Handler.parseAmount :=
       λ h, if bool_decide (h = Some "amount=2.50 currency=USD") then 250%Z else 0%Z;
     X402Handler.newDate :=
       λ h, if bool_decide (h = Some "Mon, 15 Jan 2024 10:30:00 GMT")
            then 1705314600000%Z else 0%Z;
     X402Handler.processPayment :=
       λ _, inr {| X402Handler.txHash := "0x1234";
                   X402Handler.signature := "0xabcd";
                   X402Handler.agentId := "agent_123";
                   X402Handler.pr_receipt := "{}" |} |}.

(** The 402 response of the documentation's complete example. *)
Definition offer : gmap string string :=
  <["Accept-Payment" := "paystabl agent=required"]>
  (<["Payment-Amount" := "amount=2.50 currency=USD"]>
  (<["Payment-Purpose" := "Premium API access for data analysis"]>
  (<["Payment-Expires" := "Mon, 15 Jan 2024 10:30:00 GMT"]> ∅))).

(** 1 January 2026, in milliseconds since the epoch. *)
Definition in2026 : Z := 1767225600000.

(** The caller's ceiling of 2.00. *)
Definition ceiling200 : Z := 200.

Definition paid1234 : X402Handler.PaymentResult :=
  {| X402Handler.txHash := "0x1234";
     X402Handler.signature := "0xabcd";
     X402Handler.agentId := "agent_123";
     X402Handler.pr_receipt := "{}" |}.

(** The state a run of the retry workflow is invoked with: the dict of
    the usage example, which carries the task alone. *)
Definition fresh : PaymentRetryWorkflow.WorkflowState :=
  PaymentRetryWorkflow.mkState
    (Some "Analyze customer sentiment from 10,000 reviews and generate insights")
    [] "" 0 0 [] None None 0 None None 0 [].


(** Every paid call fails with a network error. *)
Definition network_down : PaymentRetryWorkflow.World :=
  λ _, PaymentRetryWorkflow.Raised "Connection reset" (Some "NETWORK_ERROR").

(** Every paid call fails for lack of funds. *)
Definition no_funds : PaymentRetryWorkflow.World :=
  λ _, PaymentRetryWorkflow.Raised "Insufficient funds" (Some "INSUFFICIENT_FUNDS").

(** Twenty requests of one client: one at 0 s, nine at 3599 s and ten
    at 3601 s. *)
Definition burst : list PaymentRateLimit.Request :=
  [PaymentRateLimit.mkRequest 0 "client"]
  ++ replicate 9 (PaymentRateLimit.mkRequest 3599000 "client")
  ++ replicate 10 (PaymentRateLimit.mkRequest 3601000 "client").

End Scenarios.

(** ** Concrete inputs for the further properties *)
Module Examples.

(** A validator whose helpers accept everything. *)
Definition credulous : X402Middleware.Validator :=
  {| X402Middleware.isValidFormat := λ _, Some true;
     X402Middleware.chain :=
       {| X402Validator.verifyPayStablPayment := λ _, true;
          X402Validator.verifyBitcoinPayment := λ _, true;
          X402Validator.verifyEthereumPayment := λ _, true |};
     X402Middleware.verifyPaymentAmount := λ _ _, Some true;
     X402Middleware.requiredAmount := None |}.

(** The wallet of the scenarios after its limit of 10.00 was spent. *)
Definition spent_wallet : AgentWallet.Storage :=
  {| AgentWallet.agent := 1%N;
     AgentWallet.dailyLimits := {[ 1%N := 1000%N ]};
     AgentWallet.dailySpent := {[ 1%N := 1000%N ]};
     AgentWallet.allowlist := {[ 2%N := true ]} |}.

(** Default limits of three requests a minute, and five requests of one
    agent within the third minute. *)
Definition three_per_minute : string -> AdaptiveRateLimiter.RateLimit :=
  λ _, {| AdaptiveRateLimiter.count := 0;
          AdaptiveRateLimiter.maxRequests := 3;
          AdaptiveRateLimiter.windowMs := 60000;
          AdaptiveRateLimiter.windowStart := 0 |}.

Definition five_calls : list AdaptiveRateLimiter.Request :=
  [AdaptiveRateLimiter.mkRequest 121000 "agent_1" "payment";
   AdaptiveRateLimiter.mkRequest 125000 "agent_1" "payment";
   AdaptiveRateLimiter.mkRequest 130000 "agent_1" "payment";
   AdaptiveRateLimiter.mkRequest 150000 "agent_1" "payment";
   AdaptiveRateLimiter.mkRequest 179000 "agent_1" "payment"].

(** A wallet with two signers, 1 and 2, each limited to 10.00 a day. *)
Definition team_wallet : SecureAgentWallet.Storage :=
  {| SecureAgentWallet.signers := {[ 1%N := true; 2%N := true ]};
     SecureAgentWallet.requiredSignatures := 1;
     SecureAgentWallet.dailyLimits := {[ 1%N := 1000%N; 2%N := 1000%N ]};
     SecureAgentWallet.dailySpent := ∅;
     SecureAgentWallet.lastResetTime := ∅;
     SecureAgentWallet.emergencyStop := false;
     SecureAgentWallet.emergencyContact := 9 |}.

(** Day 1: signer 2 spends 10.00.  Day 2: signer 1 spends 6.00 twice,
    then signer 2 tries to spend 1.00. *)
Definition two_days : list SecureAgentWallet.Tx :=
  [SecureAgentWallet.mkTx 2 7 1000 true true 90000;
   SecureAgentWallet.mkTx 1 7 600 true true 180000;
   SecureAgentWallet.mkTx 1 7 600 true true 180100;
   SecureAgentWallet.mkTx 2 7 100 true true 180200].

(** The team wallet after a first day on which signer 2 spent 5.00. *)
Definition after_day_one : SecureAgentWallet.Storage :=
  {| SecureAgentWallet.signers := {[ 1%N := true; 2%N := true ]};
     SecureAgentWallet.requiredSignatures := 1;
     SecureAgentWallet.dailyLimits := {[ 1%N := 1000%N; 2%N := 1000%N ]};
     SecureAgentWallet.dailySpent := {[ 2%N := 500%N ]};
     SecureAgentWallet.lastResetTime := {[ 1%N := 90000%N ]};
     SecureAgentWallet.emergencyStop := false;
     SecureAgentWallet.emergencyContact := 9 |}.

(** Days 2 and 3: signer 1 is first each day, signer 2 asks for 3.00
    after it. *)
Definition later_days : list SecureAgentWallet.Tx :=
  [SecureAgentWallet.mkTx 1 7 100 true true 180000;
   SecureAgentWallet.mkTx 2 7 300 true true 180100;
   SecureAgentWallet.mkTx 1 7 100 true true 270000;
   SecureAgentWallet.mkTx 2 7 300 true true 270100].

(** Every paid call is refused for the rate limit. *)
Definition throttled : PaymentRetryWorkflow.World :=
  λ _, PaymentRetryWorkflow.Raised "Too many requests" (Some "RATE_LIMITED").

(** A caller's state that asks for three retries on a hierarchy of its
    own, with a cost already counted. *)
Definition configured_by_caller : PaymentRetryWorkflow.WorkflowState :=
  PaymentRetryWorkflow.mkState
    (Some "Analyze customer sentiment from 10,000 reviews and generate insights")
    [] "basic_ai_service" 2 3 ["basic_ai_service"] None None 700 None None 0 [].

(** Every paid service answers with data but without a receipt. *)
Definition no_receipts : PaymentRetryWorkflow.World :=
  λ _, PaymentRetryWorkflow.Returned
         {| PaymentRetryWorkflow.r_data := Some "analysis";
            PaymentRetryWorkflow.r_receipt := None |}.

(** The premium service answers once funds have arrived, 30 s into the
    run. *)
Definition funded_later : PaymentRetryWorkflow.World :=
  λ state,
    if bool_decide (30 ≤ PaymentRetryWorkflow.clock state)%Z
    then PaymentRetryWorkflow.Paid "analysis" "0xfeed"
    else PaymentRetryWorkflow.Raised "Connection reset" (Some "NETWORK_ERROR").

(** A failed attempt on the premium service with the given error code. *)
Definition failure_with (code : string) : PaymentRetryWorkflow.LogEntry :=
  PaymentRetryWorkflow.AttemptEntry
    {| PaymentRetryWorkflow.attempt := 1;
       PaymentRetryWorkflow.service := "premium_ai_service";
       PaymentRetryWorkflow.amount := "10.00";
       PaymentRetryWorkflow.timestamp := 0;
       PaymentRetryWorkflow.status := "failed";
       PaymentRetryWorkflow.method := None;
       PaymentRetryWorkflow.tx_hash := None;
       PaymentRetryWorkflow.a_error := Some "failed";
       PaymentRetryWorkflow.error_code := Some code |}.

(** Six failures: the provider was out of funds once, then unavailable. *)
Definition outage : list PaymentRetryWorkflow.LogEntry :=
  failure_with "INSUFFICIENT_FUNDS"
  :: replicate 5 (failure_with "API_UNAVAILABLE").

(** Five network errors in a row. *)
Definition flaky_network : list PaymentRetryWorkflow.LogEntry :=
  replicate 5 (failure_with "NETWORK_ERROR").

(** The final states of two runs: one with the network down, one in
    which the premium service answers after 30 s. *)
Definition two_runs : list PaymentRetryWorkflow.WorkflowState :=
  [snd (PaymentRetryWorkflow.run Scenarios.network_down 75
          PaymentRetryWorkflow.N_validate_request Scenarios.fresh);
   snd (PaymentRetryWorkflow.run funded_later 75
          PaymentRetryWorkflow.N_validate_request Scenarios.fresh)].

(** The two runs and a third one in which every paid call fails for
    lack of funds, so that the free service answers. *)
Definition three_runs : list PaymentRetryWorkflow.WorkflowState :=
  two_runs
  ++ [snd (PaymentRetryWorkflow.run Scenarios.no_funds 75
             PaymentRetryWorkflow.N_validate_request Scenarios.fresh)].

End Examples.

(* ===================================================================== *)
(** * Part II: properties                                                 *)
(* ===================================================================== *)

(** ** Replay guard of [SecurePaymentVerification.verifyPayment] *)
Section ReplayGuard.
Import SecurePaymentVerification.

Lemma checkPaymentUsed_spec (used : UsedStore) (r : option string) :
  checkPaymentUsed used r = true ↔ r ∈ used.
Proof. unfold checkPaymentUsed. apply bool_decide_eq_true. Qed.

(** A successful verification is exactly one that passes the four
    checks on a receipt that is not yet in the store. *)
Lemma verifyPayment_accepts this used payment res used' :
  verifyPayment this used payment = (inr res, used') ↔
  passesChecks this payment = true
  ∧ (p_receipt payment ∉ used)
  ∧ used' = p_receipt payment :: used
  ∧ res = {| r_valid := true;
             r_amount := tx_amount (getTransactionDetails this (p_receipt payment));
             r_timestamp := tx_timestamp (getTransactionDetails this (p_receipt payment)) |}.
Proof.
  unfold verifyPayment, passesChecks, markPaymentUsed.
  destruct (verifySignature this payment); simpl; [|intuition congruence].
  destruct (verifyTransactionExists this (p_receipt payment)); simpl;
    [|intuition congruence].
  destruct ((tx_amount _ <? requiredAmount this)%Z); simpl;
    [intuition congruence|].
  destruct (bool_decide (tx_recipient _ = paymentAddress this)); simpl;
    [|intuition congruence].
  destruct (checkPaymentUsed used (p_receipt payment)) eqn:Hu.
  - apply checkPaymentUsed_spec in Hu. intuition congruence.
  - assert (p_receipt payment ∉ used).
    { intros Hin. apply checkPaymentUsed_spec in Hin. congruence. }
    intuition congruence.
Qed.

(** Closes the goals about a verification that threw. *)
Ltac rejected := repeat split; eauto; intros; congruence.

(** A receipt in the store makes every verification of it fail, and a
    failed verification leaves the store alone. *)
Lemma verifyPayment_used this used payment :
  p_receipt payment ∈ used →
  snd (verifyPayment this used payment) = used
  ∧ (∃ e, fst (verifyPayment this used payment) = inl e)
  ∧ (passesChecks this payment = true →
     fst (verifyPayment this used payment) = inl AlreadyConsumed).
Proof.
  intros Hin. apply checkPaymentUsed_spec in Hin.
  unfold verifyPayment, passesChecks. rewrite Hin.
  destruct (verifySignature this payment); simpl; [|rejected].
  destruct (verifyTransactionExists this (p_receipt payment)); simpl; [|rejected].
  destruct ((tx_amount _ <? requiredAmount this)%Z); simpl; [rejected|].
  destruct (bool_decide (tx_recipient _ = paymentAddress this)); simpl; rejected.
Qed.

(** The store only grows, and by receipts that were not in it. *)
Lemma verifyPayment_store this used payment :
  snd (verifyPayment this used payment) = used
  ∨ ((p_receipt payment ∉ used)
     ∧ snd (verifyPayment this used payment) = p_receipt payment :: used).
Proof.
  destruct (verifyPayment this used payment) as [[e|res] used'] eqn:Hv.
  - left. unfold verifyPayment in Hv.
    repeat match type of Hv with
           | (if ?c then _ else _) = _ => destruct c
           end; simpl in *; congruence.
  - right. apply verifyPayment_accepts in Hv as (_ & Hfresh & -> & _). done.
Qed.

Lemma timesConsumed_cons used (r r' : option string) :
  timesConsumed (r' :: used) r =
  (if decide (r' = r) then 1 else 0) + timesConsumed used r.
Proof.
  unfold timesConsumed. rewrite filter_cons.
  destruct (decide (r' = r)); reflexivity.
Qed.

Lemma timesConsumed_absent used (r : option string) :
  r ∉ used → timesConsumed used r = 0.
Proof.
  induction used as [|x used IH]; intros Hnot; [reflexivity|].
  rewrite timesConsumed_cons, IH by set_solver.
  destruct (decide (x = r)); [set_solver | reflexivity].
Qed.

(** Once a receipt is in the store, no later request changes how often
    it is recorded. *)
Lemma verifyAll_keeps reqs : ∀ used (r : option string),
  r ∈ used →
  r ∈ verifyAll used reqs
  ∧ timesConsumed (verifyAll used reqs) r = timesConsumed used r.
Proof.
  induction reqs as [|[this p] reqs IH]; intros used r Hin; simpl; [done|].
  destruct (verifyPayment_store this used p) as [Heq|[Hnot Heq]]; rewrite Heq.
  - by apply IH.
  - destruct (IH (p_receipt p :: used) r) as [H1 H2]; [by right|].
    split; [done|]. rewrite H2, timesConsumed_cons.
    destruct (decide (p_receipt p = r)); [by subst | reflexivity].
Qed.

(** Calls that do not overlap.  After [verifyPayment] has accepted a
    payment, its receipt is recorded exactly once in the store however
    many calls follow one after the other, and every later call for a
    payment with that receipt throws and leaves the store unchanged;
    the error is "Payment already consumed" whenever that payment passes
    the four checks made before the replay check. *)
Lemma later_call_is_rejected
    this used payment res used' (later : list (Verifier * Payment))
    this' payment' :
  verifyPayment this used payment = (inr res, used') →
  p_receipt payment' = p_receipt payment →
  let store := verifyAll used' later in
  timesConsumed store (p_receipt payment) = 1
  ∧ snd (verifyPayment this' store payment') = store
  ∧ (∃ e, fst (verifyPayment this' store payment') = inl e)
  ∧ (passesChecks this' payment' = true →
     fst (verifyPayment this' store payment') = inl AlreadyConsumed)
  ∧ fst (verifyPayment this store payment) = inl AlreadyConsumed.
Proof.
  intros Hok Hsame store.
  apply verifyPayment_accepts in Hok as (Hpass & Hfresh & -> & _).
  assert (Hin : p_receipt payment ∈ p_receipt payment :: used) by set_solver.
  destruct (verifyAll_keeps later _ _ Hin) as [Hstore Hcount].
  fold store in Hstore, Hcount.
  split.
  { rewrite Hcount, timesConsumed_cons, timesConsumed_absent by done.
    by rewrite decide_True. }
  assert (Hin' : p_receipt payment' ∈ store) by (by rewrite Hsame).
  destruct (verifyPayment_used this' store payment' Hin') as (H1 & H2 & H3).
  destruct (verifyPayment_used this store payment Hstore) as (_ & _ & H4).
  auto.
Qed.

(** A call that is given five turns in a row does what [verifyPayment]
    says. *)
Lemma verifyPayment_uninterrupted this used payment :
  ∃ c, interleave [0; 0; 0; 0; 0] [call this payment] used
       = ([c], snd (verifyPayment this used payment))
       ∧ outcome c = Some (fst (verifyPayment this used payment)).
Proof.
  unfold verifyPayment, call. simpl. unfold resume at 1. simpl.
  destruct (verifySignature this payment); simpl; [|eauto].
  unfold resume at 1. simpl.
  destruct (verifyTransactionExists this (p_receipt payment)); simpl; [|eauto].
  unfold resume at 1. simpl.
  destruct ((tx_amount _ <? requiredAmount this)%Z); simpl; [eauto|].
  destruct (bool_decide (tx_recipient _ = paymentAddress this)); simpl; [|eauto].
  unfold resume at 1. simpl.
  destruct (checkPaymentUsed used (p_receipt payment)); simpl; eauto.
Qed.

(** C1.  Two calls of [verifyPayment] for one and the same genuine
    payment that take turns at their awaits are both accepted: each
    passes [checkPaymentUsed] before the other has reached
    [markPaymentUsed], both return [valid: true], and the receipt is
    marked used twice.  Made one after the other, the same two calls
    give one acceptance and one "Payment already consumed". *)
Theorem overlapping_verifications_both_succeed :
  let accepted := {| r_valid := true; r_amount := 250;
                     r_timestamp := 1705314300 |} in
  let calls := [call Scenarios.merchant Scenarios.genuine;
                call Scenarios.merchant Scenarios.genuine] in
  let turns := [0; 1; 0; 1; 0; 1; 0; 1; 0; 1] in
  outcome <$> fst (interleave turns calls [])
  = [Some (inr accepted); Some (inr accepted)]
  ∧ snd (interleave turns calls []) = [Some "0x1234"; Some "0x1234"]
  ∧ timesConsumed (snd (interleave turns calls [])) (Some "0x1234") = 2
  ∧ outcome <$> fst (interleave [0; 0; 0; 0; 0; 1; 1; 1; 1; 1] calls [])
    = [Some (inr accepted); Some (inl AlreadyConsumed)]
  ∧ snd (interleave [0; 0; 0; 0; 0; 1; 1; 1; 1; 1] calls []) = [Some "0x1234"].
Proof. vm_compute. repeat split; reflexivity. Qed.

End ReplayGuard.

(** ** Daily limit: [AgentWallet.executePayment] and
       [PolicyEnforcement.checkSpendingLimits] *)
Section DailyLimit.
Import AgentWallet.

Lemma checked_add_Some a b c :
  checked_add a b = Some c → c = (a + b)%N.
Proof.
  unfold checked_add. destruct (a + b <? uint256_limit)%N; congruence.
Qed.

(** What a payment that goes through has established and changed. *)
Lemma executePayment_ok st sender recipient amount call_ok st' :
  executePayment st sender recipient amount call_ok = inr st' →
  sender = agent st
  ∧ readB (allowlist st) recipient = true
  ∧ (readN (dailySpent st) sender + amount ≤ readN (dailyLimits st) sender)%N
  ∧ agent st' = agent st
  ∧ dailyLimits st' = dailyLimits st
  ∧ allowlist st' = allowlist st
  ∧ readN (dailySpent st') sender = (readN (dailySpent st) sender + amount)%N.
Proof.
  unfold executePayment.
  destruct (sender =? agent st)%N eqn:Hs; simpl; [|discriminate].
  apply N.eqb_eq in Hs.
  destruct (checked_add _ amount) as [total|] eqn:Hadd; [|discriminate].
  apply checked_add_Some in Hadd. subst total.
  destruct (_ <=? _)%N eqn:Hle; simpl; [|discriminate].
  apply N.leb_le in Hle.
  destruct (readB (allowlist st) recipient); simpl; [|discriminate].
  destruct call_ok; simpl; [|discriminate].
  intros [= <-]. simpl.
  repeat split; try done.
  unfold readN at 1. by rewrite lookup_insert_eq.
Qed.

(** Over a sequence of transactions the agent's [dailySpent] grows by
    exactly the payments that went through, and stays within the limit
    once it is within it. *)
Lemma execute_accounts calls : ∀ st st' paid,
  execute st calls = (st', paid) →
  agent st' = agent st
  ∧ dailyLimits st' = dailyLimits st
  ∧ readN (dailySpent st') (agent st)
    = (readN (dailySpent st) (agent st) + total paid)%N
  ∧ ((readN (dailySpent st) (agent st) ≤ readN (dailyLimits st) (agent st))%N →
     (readN (dailySpent st') (agent st) ≤ readN (dailyLimits st) (agent st))%N).
Proof.
  induction calls as [|c calls IH]; intros st st' paid; simpl.
  - intros [= <- <-]. simpl. rewrite N.add_0_r. done.
  - destruct (executePayment st _ _ _ _) as [e|st1] eqn:Hexec.
    + apply IH.
    + destruct (execute st1 calls) as [st2 paid'] eqn:Hrest.
      intros [= <- <-].
      apply executePayment_ok in Hexec
        as (Hs & _ & Hle & Hag & Hlim & _ & Hspent).
      apply IH in Hrest as (Hag2 & Hlim2 & Hsp2 & Hinv).
      rewrite Hag, Hlim in *. rewrite Hs in *.
      repeat split; try congruence.
      * rewrite Hsp2, Hspent. simpl. lia.
      * intros _. apply Hinv. rewrite Hspent. exact Hle.
Qed.

End DailyLimit.

Section CommittedSpend.
Import PolicyEnforcement.

Lemma spentOn_snoc ledger c day :
  spentOn (ledger ++ [c]) day
  = (spentOn ledger day + if decide (on_day c = day) then paid c else 0)%Z.
Proof.
  unfold spentOn. rewrite filter_app, map_app, foldr_app.
  rewrite filter_cons, filter_nil.
  destruct (decide (on_day c = day)); simpl.
  - generalize (map paid (filter (λ c0, on_day c0 = day) ledger)).
    intros l. induction l as [|x l IH]; simpl; lia.
  - lia.
Qed.

(** The three answers of [checkSpendingLimits]. *)
Lemma checkSpendingLimits_cases this agentId amount policies :
  let r := checkSpendingLimits this agentId amount policies in
  ((perTransactionLimit policies < amount)%Z
   ∧ r = {| valid := false;
            error := Some "Transaction exceeds per-transaction limit";
            requiresApproval := Some true |})
  ∨ ((amount ≤ perTransactionLimit policies)%Z
     ∧ (dailyLimit policies < daily (getCurrentSpending this agentId) + amount)%Z
     ∧ r = {| valid := false;
              error := Some "Transaction would exceed daily limit";
              requiresApproval := Some false |})
  ∨ ((amount ≤ perTransactionLimit policies)%Z
     ∧ (daily (getCurrentSpending this agentId) + amount ≤ dailyLimit policies)%Z
     ∧ r = {| valid := true; error := None; requiresApproval := None |}).
Proof.
  unfold checkSpendingLimits.
  destruct (perTransactionLimit policies <? amount)%Z eqn:H1.
  - left. apply Z.ltb_lt in H1. done.
  - apply Z.ltb_ge in H1. right.
    destruct (dailyLimit policies <? _)%Z eqn:H2.
    + left. apply Z.ltb_lt in H2. done.
    + right. apply Z.ltb_ge in H2. done.
Qed.

(** Only the per-transaction and the daily limit are read: policies that
    agree on these two get the same answer, whatever their weekly and
    monthly limits. *)
Lemma checkSpendingLimits_reads_two_limits this agentId amount p q :
  perTransactionLimit p = perTransactionLimit q →
  dailyLimit p = dailyLimit q →
  checkSpendingLimits this agentId amount p
  = checkSpendingLimits this agentId amount q.
Proof. unfold checkSpendingLimits. by intros -> ->. Qed.

(** A negotiation either commits the amount, which then fits under the
    daily limit together with what was committed that day, or commits
    nothing. *)
Lemma negotiate_cases this agentId ledger day amount :
  let policies := getPolicies this agentId in
  (valid (fst (negotiate this agentId ledger day amount)) = true
   ∧ (spentOn ledger day + amount ≤ dailyLimit policies)%Z
   ∧ snd (negotiate this agentId ledger day amount)
     = ledger ++ [{| on_day := day; paid := amount |}])
  ∨ (valid (fst (negotiate this agentId ledger day amount)) = false
     ∧ snd (negotiate this agentId ledger day amount) = ledger).
Proof.
  unfold negotiate.
  destruct (checkSpendingLimits_cases (helpersAt this ledger day) agentId
              amount (getPolicies this agentId))
    as [[_ ->]|[(_ & _ & ->)|(_ & Hle & ->)]]; simpl; auto.
Qed.

Lemma negotiateAll_within_daily this agentId reqs : ∀ ledger,
  (∀ day, (spentOn ledger day ≤ dailyLimit (getPolicies this agentId))%Z) →
  ∀ day, (spentOn (negotiateAll this agentId ledger reqs) day
          ≤ dailyLimit (getPolicies this agentId))%Z.
Proof.
  induction reqs as [|[d a] reqs IH]; intros ledger Hinv; simpl; [done|].
  apply IH. intros day.
  destruct (negotiate_cases this agentId ledger d a)
    as [(_ & Hle & ->)|(_ & ->)]; [|done].
  rewrite spentOn_snoc. simpl.
  destruct (decide (d = day)) as [<-|]; [lia|].
  specialize (Hinv day). lia.
Qed.

End CommittedSpend.

(** C2 (as amended).  Within one day the committed spend never exceeds
    the daily limit: the amounts committed on a day through
    [checkSpendingLimits] sum to at most [dailyLimit] (when that limit
    is not negative), and the payments that [AgentWallet.executePayment]
    lets through from a zero [dailySpent] sum to at most the agent's
    [dailyLimits] entry.  With a daily limit of 10.00, of two payments
    of 6.00 to an allowlisted recipient the first is committed and the
    second is refused for the daily limit, leaving 6.00 committed.
    Weekly and monthly limits are not checked. *)
Theorem daily_spend_within_limit
    (this : PolicyEnforcement.Helpers) (agentId : string)
    (reqs : list (Z * Z)) (day : Z)
    (st : AgentWallet.Storage) (calls : list AgentWallet.Call) :
  (0 ≤ PolicyEnforcement.dailyLimit (PolicyEnforcement.getPolicies this agentId))%Z →
  AgentWallet.readN (AgentWallet.dailySpent st) (AgentWallet.agent st) = 0%N →
  (PolicyEnforcement.spentOn (PolicyEnforcement.negotiateAll this agentId [] reqs) day
   ≤ PolicyEnforcement.dailyLimit (PolicyEnforcement.getPolicies this agentId))%Z
  ∧ (AgentWallet.total (snd (AgentWallet.execute st calls))
     ≤ AgentWallet.readN (AgentWallet.dailyLimits st) (AgentWallet.agent st))%N
  ∧ PolicyEnforcement.negotiate Scenarios.lenient "agent" [] 0 600
    = (Scenarios.pass,
       [{| PolicyEnforcement.on_day := 0; PolicyEnforcement.paid := 600 |}])
  ∧ PolicyEnforcement.negotiate Scenarios.lenient "agent"
      [{| PolicyEnforcement.on_day := 0; PolicyEnforcement.paid := 600 |}] 0 600
    = ({| PolicyEnforcement.valid := false;
          PolicyEnforcement.error := Some "Transaction would exceed daily limit";
          PolicyEnforcement.requiresApproval := Some false |},
       [{| PolicyEnforcement.on_day := 0; PolicyEnforcement.paid := 600 |}])
  ∧ (∃ st1,
       AgentWallet.executePayment Scenarios.wallet 1 2 600 true = inr st1
       ∧ AgentWallet.executePayment st1 1 2 600 true
         = inl AgentWallet.DailyLimitExceeded
       ∧ snd (AgentWallet.execute Scenarios.wallet
                [Scenarios.pay6; Scenarios.pay6]) = [600%N]).
Proof.
  intros Hlimit Hzero.
  split; [|split].
  - apply negotiateAll_within_daily. intros d. exact Hlimit.
  - destruct (AgentWallet.execute st calls) as [st' paid] eqn:Hrun.
    apply execute_accounts in Hrun as (_ & _ & Hspent & Hinv).
    simpl. rewrite Hzero in *. rewrite N.add_0_l in Hspent.
    rewrite <- Hspent. apply Hinv. lia.
  - split; [reflexivity|]. split; [reflexivity|].
    eexists. split; [reflexivity|]. split; vm_compute; reflexivity.
Qed.

Lemma daily_spend_within_limit_witness :
  (PolicyEnforcement.spentOn
     (PolicyEnforcement.negotiateAll Scenarios.lenient "agent" []
        [(0, 600); (0, 600); (0, 400); (1, 700)]%Z) 0
   ≤ 1000)%Z
  ∧ (AgentWallet.total
       (snd (AgentWallet.execute Scenarios.wallet
               [Scenarios.pay6; Scenarios.pay6]))
     ≤ 1000)%N.
Proof.
  pose proof (daily_spend_within_limit Scenarios.lenient "agent"
                [(0, 600); (0, 600); (0, 400); (1, 700)]%Z 0
                Scenarios.wallet [Scenarios.pay6; Scenarios.pay6]) as H.
  destruct H as (H1 & H2 & _).
  - vm_compute. discriminate.
  - vm_compute. reflexivity.
  - split; [exact H1 | exact H2].
Defined.

(** C2 as stated fails for the weekly window: with a weekly limit of
    10.00, a payment of 6.00 on each of two days of the same week is
    authorised by [checkSpendingLimits] both times, and 12.00 is
    committed in that week. *)
Lemma weekly_limit_not_enforced :
  let ledger := PolicyEnforcement.negotiateAll Scenarios.lenient "agent" []
                  [(0, 600); (1, 600)]%Z in
  PolicyEnforcement.weeklyLimit
    (PolicyEnforcement.getPolicies Scenarios.lenient "agent") = 1000%Z
  ∧ PolicyEnforcement.spentInWeek ledger 0 = 1200%Z
  ∧ ¬ (PolicyEnforcement.spentInWeek ledger 0
       ≤ PolicyEnforcement.weeklyLimit
           (PolicyEnforcement.getPolicies Scenarios.lenient "agent"))%Z.
Proof.
  split; [reflexivity|]. split; [reflexivity|].
  vm_compute. intros H. apply H. reflexivity.
Qed.

(** ** [PolicyEnforcement.validateTransaction] *)
Section ValidateTransaction.
Import PolicyEnforcement.

Lemma validateTransaction_unfold this agentId transaction :
  validateTransaction this agentId transaction
  = ([SpendingLimits; TimeRestrictions; VelocityLimits; SuspiciousActivity],
     let failed := filter (λ v, valid v = false)
                          (checkResults this agentId transaction) in
     {| o_valid := bool_decide (length failed = 0);
        o_errors := error <$> failed;
        o_requiresApproval :=
          existsb (λ f, truthy (requiresApproval f)) failed |}).
Proof. reflexivity. Qed.

Lemma filter_nil_length {A} (P : A → Prop) `{!∀ x, Decision (P x)} (l : list A) :
  length (filter P l) = 0 ↔ ∀ x, x ∈ l → ¬ P x.
Proof.
  rewrite length_zero_iff_nil. split.
  - intros Hnil x Hin HP.
    assert (x ∈ filter P l) as Hx by (apply list_elem_of_filter; done).
    rewrite Hnil in Hx. by apply elem_of_nil in Hx.
  - intros Hall. induction l as [|y l IH]; [done|].
    rewrite filter_cons. destruct (decide (P y)) as [HP|_].
    + exfalso. apply (Hall y); [left | done].
    + apply IH. intros x Hx. apply Hall. by right.
Qed.

(** C5 (as amended).  [validateTransaction] calls all four checks, in
    the order spending limits, time restrictions, velocity limits,
    suspicious activity, whether or not an earlier one failed.  It
    reports the error of every check that failed, in that order, and the
    transaction is valid exactly when none failed.  Only inside
    [checkSpendingLimits] does the first failure decide: an amount above
    the per-transaction limit is reported as such whatever the daily
    spend is.  No allowlist check takes part. *)
Theorem validateTransaction_runs_every_check
    (this : Helpers) (agentId : string) (transaction : Transaction) :
  let run := validateTransaction this agentId transaction in
  let results := checkResults this agentId transaction in
  fst run = [SpendingLimits; TimeRestrictions; VelocityLimits; SuspiciousActivity]
  ∧ (∀ v, v ∈ results → valid v = false → error v ∈ o_errors (snd run))
  ∧ length (o_errors (snd run))
    = length (filter (λ v, valid v = false) results)
  ∧ o_errors (snd run) `sublist_of` (error <$> results)
  ∧ (o_valid (snd run) = true ↔ ∀ v, v ∈ results → valid v = true)
  ∧ ((perTransactionLimit (getPolicies this agentId) < amount transaction)%Z →
     head (o_errors (snd run))
     = Some (Some "Transaction exceeds per-transaction limit")).
Proof.
  intros run results. subst run.
  rewrite validateTransaction_unfold. fold results. simpl fst. simpl snd.
  cbv zeta. simpl o_errors. simpl o_valid.
  split; [reflexivity|].
  split.
  { intros v Hin Hfail. apply list_elem_of_fmap. exists v.
    split; [done|]. apply list_elem_of_filter. done. }
  split; [by rewrite length_fmap|].
  split.
  { apply fmap_sublist. apply sublist_filter. }
  split.
  { rewrite bool_decide_eq_true, filter_nil_length.
    split; intros H v Hin; specialize (H v Hin);
      destruct (valid v); congruence. }
  intros Hgt. subst results. unfold checkResults.
  destruct (checkSpendingLimits_cases this agentId (amount transaction)
              (getPolicies this agentId)) as [[_ Hr]|[(Hle & _)|(Hle & _)]];
    [|lia|lia].
  rewrite filter_cons, Hr. simpl. reflexivity.
Qed.

Lemma validateTransaction_runs_every_check_witness :
  let tx := {| amount := 1500; recipient := "api.example.com" |} in
  head (o_errors (snd (validateTransaction Scenarios.afterHours "agent" tx)))
  = Some (Some "Transaction exceeds per-transaction limit").
Proof.
  apply (validateTransaction_runs_every_check Scenarios.afterHours "agent"
           {| amount := 1500; recipient := "api.example.com" |}).
  vm_compute. reflexivity.
Defined.

(** C5 as stated fails: for a transaction above the per-transaction
    limit made outside the allowed hours, the time-window check comes
    second in the claimed order and per-transaction third, yet all four
    checks run, both errors are reported, and the per-transaction error
    comes first. *)
Lemma checks_do_not_short_circuit :
  let tx := {| amount := 1500; recipient := "api.example.com" |} in
  let run := validateTransaction Scenarios.afterHours "agent" tx in
  fst run = [SpendingLimits; TimeRestrictions; VelocityLimits; SuspiciousActivity]
  ∧ o_errors (snd run)
    = [Some "Transaction exceeds per-transaction limit";
       Some "Transaction outside allowed hours"].
Proof. split; reflexivity. Qed.

(** C6 (as amended).  An amount strictly above the per-transaction limit
    makes [validateTransaction] answer [requiresApproval: true] (and
    [valid: false]) whatever the other three checks answer. *)
Theorem above_limit_requires_approval
    (this : Helpers) (agentId : string) (transaction : Transaction) :
  (perTransactionLimit (getPolicies this agentId) < amount transaction)%Z →
  o_requiresApproval (snd (validateTransaction this agentId transaction)) = true
  ∧ o_valid (snd (validateTransaction this agentId transaction)) = false.
Proof.
  intros Hgt. rewrite validateTransaction_unfold. simpl snd. cbv zeta.
  unfold checkResults.
  destruct (checkSpendingLimits_cases this agentId (amount transaction)
              (getPolicies this agentId)) as [[_ Hr]|[(Hle & _)|(Hle & _)]];
    [|lia|lia].
  rewrite filter_cons, Hr. simpl. done.
Qed.

Lemma above_limit_requires_approval_witness :
  let tx := {| amount := 1001; recipient := "api.example.com" |} in
  o_requiresApproval (snd (validateTransaction Scenarios.lenient "agent" tx)) = true
  ∧ o_valid (snd (validateTransaction Scenarios.lenient "agent" tx)) = false.
Proof.
  apply (above_limit_requires_approval Scenarios.lenient "agent"
           {| amount := 1001; recipient := "api.example.com" |}).
  vm_compute. reflexivity.
Defined.

(** C6 as stated fails at the threshold itself: an amount equal to the
    per-transaction limit is valid and does not require approval. *)
Lemma at_limit_needs_no_approval :
  ¬ (∀ this agentId transaction,
       (perTransactionLimit (getPolicies this agentId) ≤ amount transaction)%Z →
       o_requiresApproval (snd (validateTransaction this agentId transaction))
       = true).
Proof.
  intros claim.
  specialize (claim Scenarios.lenient "agent"
                {| amount := 1000; recipient := "api.example.com" |}).
  vm_compute in claim. discriminate claim. discriminate.
Qed.

End ValidateTransaction.

(** ** [X402Handler.handleX402Response] *)
Section HandleResponse.
Import X402Handler.

(** The request the handler sends to the payment collaborator. *)
Lemma handleX402Response_calls this (headers : gmap string string) :
  fst (handleX402Response this headers)
  = [ProcessPayment {| q_amount := parseAmount this (headers !! "Payment-Amount");
                       q_currency := None;
                       q_purpose := headers !! "Payment-Purpose";
                       q_recipient := None |}].
Proof.
  unfold handleX402Response, parseX402Headers. simpl.
  destruct (processPayment this _); reflexivity.
Qed.

(** C3 (as amended).  [handleX402Response] reads the [Payment-Expires]
    header into [expiresAt] and never looks at it again: for every
    response it calls [processPayment] exactly once, and neither that
    call nor the handler's result depends on the [Payment-Expires]
    header or on how [new Date] reads it.  An offer is therefore paid
    whether or not it has expired; the handler fails only when
    [processPayment] throws. *)
Theorem expiry_is_never_checked
    (this : Collaborators) (headers : gmap string string) :
  (∃ request, fst (handleX402Response this headers) = [ProcessPayment request])
  ∧ (∀ expires,
       handleX402Response this (<["Payment-Expires" := expires]> headers)
       = handleX402Response this headers)
  ∧ (∀ date,
       handleX402Response
         {| parseAcceptPayment := parseAcceptPayment this;
            parseAmount := parseAmount this;
            newDate := date;
            processPayment := processPayment this |} headers
       = handleX402Response this headers)
  ∧ (∀ thrown, snd (handleX402Response this headers) = inl thrown →
       ∃ request, processPayment this request = inl thrown).
Proof.
  split; [|split; [|split]].
  - eexists. apply handleX402Response_calls.
  - intros expires. unfold handleX402Response, parseX402Headers. simpl.
    rewrite !lookup_insert_ne by done. reflexivity.
  - intros date. reflexivity.
  - intros thrown. unfold handleX402Response.
    destruct (processPayment this _) as [t|payment] eqn:Hp; simpl; [|done].
    intros [= ->]. eauto.
Qed.

Lemma expiry_is_never_checked_witness :
  ∃ request, processPayment
               {| parseAcceptPayment := λ _, []; parseAmount := λ _, 250%Z;
                  newDate := λ _, 0%Z;
                  processPayment := λ _, inl "SIGNING_ERROR" |} request
             = inl "SIGNING_ERROR".
Proof.
  apply (expiry_is_never_checked
           {| parseAcceptPayment := λ _, []; parseAmount := λ _, 250%Z;
              newDate := λ _, 0%Z;
              processPayment := λ _, inl "SIGNING_ERROR" |} Scenarios.offer).
  vm_compute. reflexivity.
Defined.

(** C3 as stated fails: the offer of the documentation's example
    expired on 15 January 2024; handled in 2026 it is not rejected:
    [processPayment] is called for it and the retry headers come
    back. *)
Lemma expired_offer_is_paid :
  (expiresAt (parseX402Headers Scenarios.sdk Scenarios.offer)
   < Scenarios.in2026)%Z
  ∧ handleX402Response Scenarios.sdk Scenarios.offer
    = ([ProcessPayment
          {| q_amount := 250; q_currency := None;
             q_purpose := Some "Premium API access for data analysis";
             q_recipient := None |}],
       inr {| X_Payment :=
                "type=paystabl receipt=0x1234 signature=0xabcd agent=agent_123";
              X_Payment_Receipt := "{}" |}).
Proof. split; vm_compute; reflexivity. Qed.

(** C4 (as amended).  [handleX402Response] has no parameter for what
    the caller is willing to pay.  Whatever ceiling the caller has in
    mind, an offer above it is handled like any other: [processPayment]
    is called once with the amount, purpose of the offer, and when it
    returns a payment the handler returns the retry headers built from
    it.  Nothing is rejected for its amount and no fallback is
    started. *)
Theorem amount_above_ceiling_is_paid
    (this : Collaborators) (headers : gmap string string) (ceiling : Z)
    (payment : PaymentResult) :
  (ceiling < amount (parseX402Headers this headers))%Z →
  processPayment this
    {| q_amount := amount (parseX402Headers this headers);
       q_currency := None;
       q_purpose := headers !! "Payment-Purpose";
       q_recipient := None |} = inr payment →
  handleX402Response this headers
  = ([ProcessPayment {| q_amount := amount (parseX402Headers this headers);
                        q_currency := None;
                        q_purpose := headers !! "Payment-Purpose";
                        q_recipient := None |}],
     inr {| X_Payment := formatPaymentHeader payment;
            X_Payment_Receipt := pr_receipt payment |}).
Proof.
  intros _ Hpaid. unfold handleX402Response.
  change (purpose (parseX402Headers this headers))
    with (headers !! "Payment-Purpose").
  rewrite Hpaid. reflexivity.
Qed.

Lemma amount_above_ceiling_is_paid_witness :
  handleX402Response Scenarios.sdk Scenarios.offer
  = ([ProcessPayment
        {| q_amount := amount (parseX402Headers Scenarios.sdk Scenarios.offer);
           q_currency := None;
           q_purpose := Scenarios.offer !! "Payment-Purpose";
           q_recipient := None |}],
     inr {| X_Payment := formatPaymentHeader Scenarios.paid1234;
            X_Payment_Receipt := pr_receipt Scenarios.paid1234 |}).
Proof.
  apply (amount_above_ceiling_is_paid Scenarios.sdk Scenarios.offer
           Scenarios.ceiling200 Scenarios.paid1234).
  - vm_compute. reflexivity.
  - vm_compute. reflexivity.
Defined.

(** C4 as stated fails: against a ceiling of 2.00 the offer of 2.50 is
    not rejected; [processPayment] is called with the amount 2.50 and
    the retry headers come back. *)
Lemma offer_above_ceiling_reaches_payment :
  (Scenarios.ceiling200 < amount (parseX402Headers Scenarios.sdk Scenarios.offer))%Z
  ∧ fst (handleX402Response Scenarios.sdk Scenarios.offer)
    = [ProcessPayment
         {| q_amount := 250; q_currency := None;
            q_purpose := Some "Premium API access for data analysis";
            q_recipient := None |}]
  ∧ ∃ retry, snd (handleX402Response Scenarios.sdk Scenarios.offer) = inr retry.
Proof.
  split; [vm_compute; reflexivity|]. split; [vm_compute; reflexivity|].
  eexists. vm_compute. reflexivity.
Qed.

End HandleResponse.

(** ** Proof header: [formatPaymentHeader] and [parsePaymentHeader] *)
Section ProofHeader.
Import X402Handler X402Validator.

(** C7.  The header built by [formatPaymentHeader] is not read back by
    [parsePaymentHeader]: replacing every "=" by "&" leaves no "=" for
    URLSearchParams to split a name from its value, so for every payment
    the parsed [type] is the empty string, never "paystabl", and
    [verifyPaymentOnChain] refuses it; for the documentation's example
    values the receipt, signature and agent are [null]. *)
Theorem proof_header_is_not_read_back :
  (∀ payment,
     p_type (parsePaymentHeader (formatPaymentHeader payment)) = Some ""
     ∧ ∀ chain, verifyPaymentOnChain chain
                  (parsePaymentHeader (formatPaymentHeader payment)) = false)
  ∧ formatPaymentHeader Scenarios.paid1234
    = "type=paystabl receipt=0x1234 signature=0xabcd agent=agent_123"
  ∧ parsePaymentHeader (formatPaymentHeader Scenarios.paid1234)
    = {| p_type := Some ""; p_receipt := None; p_signature := None;
         p_agent := None; p_amount := None |}.
Proof.
  split; [|split; reflexivity].
  intros payment.
  assert (p_type (parsePaymentHeader (formatPaymentHeader payment)) = Some "")
    as Htype by reflexivity.
  split; [exact Htype|].
  intros chain. unfold verifyPaymentOnChain. rewrite Htype. reflexivity.
Qed.

End ProofHeader.

(** ** The retry workflow *)
Section RetryWorkflow.
Import PaymentRetryWorkflow.

(** *** Runs *)

Lemma run_finished world fuel node state :
  finished node = true → run world fuel node state = (node, state).
Proof. intros Hfin. destruct fuel; simpl; [done|]. by rewrite Hfin. Qed.

(** More fuel does not change a run that is over. *)
Lemma run_compose world a : ∀ b node state,
  run world (a + b) node state
  = run world b (fst (run world a node state)) (snd (run world a node state)).
Proof.
  induction a as [|a IH]; intros b node state; simpl; [done|].
  destruct (finished node) eqn:Hfin.
  - simpl. by rewrite run_finished.
  - destruct (step world node state) as [node' state']. apply IH.
Qed.

Lemma run_enough world a b node state state' :
  run world a node state = (N_END, state') → a ≤ b →
  run world b node state = (N_END, state').
Proof.
  intros Hrun Hle. replace b with (a + (b - a)) by lia.
  rewrite run_compose, Hrun. simpl. by apply run_finished.
Qed.

Lemma run_step world fuel node state :
  finished node = false →
  run world (S fuel) node state
  = run world fuel (fst (step world node state)) (snd (step world node state)).
Proof.
  intros Hfin. simpl. rewrite Hfin.
  by destruct (step world node state).
Qed.

(** *** The log *)

Lemma attempt_entries_snoc_attempt log a :
  attempt_entries (log ++ [AttemptEntry a]) = attempt_entries log ++ [a].
Proof. unfold attempt_entries. by rewrite omap_app. Qed.

Lemma attempt_entries_snoc_switch log s :
  attempt_entries (log ++ [SwitchEntry s]) = attempt_entries log.
Proof. unfold attempt_entries. rewrite omap_app. simpl. apply app_nil_r. Qed.

Lemma switch_entries_snoc_attempt log a :
  switch_entries (log ++ [AttemptEntry a]) = switch_entries log.
Proof. unfold switch_entries. rewrite omap_app. simpl. apply app_nil_r. Qed.

Lemma switch_entries_snoc_switch log s :
  switch_entries (log ++ [SwitchEntry s]) = switch_entries log ++ [s].
Proof. unfold switch_entries. by rewrite omap_app. Qed.

(** *** [list.index] *)

Lemma index_lookup l : ∀ x i, index l x = Some i → l !! i = Some x.
Proof.
  induction l as [|y l IH]; intros x i; simpl; [done|].
  case_bool_decide as Hy.
  - intros [= <-]. by subst.
  - destruct (index l x) as [j|] eqn:Hj; simpl; [|done].
    intros [= <-]. simpl. by apply IH.
Qed.

Lemma index_of_lookup l : ∀ x i,
  NoDup l → l !! i = Some x → index l x = Some i.
Proof.
  induction l as [|y l IH]; intros x i Hnd Hi; [done|].
  apply NoDup_cons in Hnd as [Hy Hnd]. simpl.
  destruct i as [|i]; simpl in Hi.
  - injection Hi as ->. by rewrite bool_decide_eq_true_2.
  - rewrite bool_decide_eq_false_2.
    + by rewrite (IH x i).
    + intros ->. apply Hy. by eapply list_elem_of_lookup_2.
Qed.

Lemma index_elem_of l x : x ∈ l → ∃ i, index l x = Some i.
Proof.
  induction l as [|y l IH]; intros Hin; [by apply elem_of_nil in Hin|].
  simpl. case_bool_decide as Hy; [eauto|].
  apply elem_of_cons in Hin as [->|Hin]; [done|].
  destruct (IH Hin) as [i ->]. simpl. eauto.
Qed.

(** *** The nodes, one by one *)

Lemma step_attempt_payment_state world state :
  snd (step world N_attempt_payment state) = attempt_payment world state.
Proof. simpl. by destruct (route_payment_result _) as [[]|]. Qed.

Lemma attempt_payment_keeps_task world state :
  task (attempt_payment world state) = task state.
Proof.
  unfold attempt_payment.
  destruct (task state) as [t|] eqn:Ht; simpl; [|done].
  destruct (bool_decide (cost _ = "0.00")); simpl; [done|].
  by destruct (world state) as [[[data|] [[tx|]|]]|msg code].
Qed.

Lemma step_keeps_task world node state :
  task (snd (step world node state)) = task state.
Proof.
  destruct node; try done.
  - simpl. by destruct (validate_request_raises state).
  - rewrite step_attempt_payment_state. apply attempt_payment_keeps_task.
  - simpl. unfold handle_payment_failure.
    destruct (last (payment_attempts state)); [|done]. simpl.
    by destruct (route_failure_handling _) as [[]|].
  - simpl. unfold retry_with_backoff. by destruct (retry_strategy state).
  - simpl. unfold try_alternative_service.
    destruct (index _ _); [|done]. simpl.
    by destruct (fallback_services state !! _).
  - simpl. unfold use_fallback_service. by destruct (last (fallback_services state)).
Qed.

Lemma step_attempt_payment world state :
  is_Some (task state) →
  let next := step world N_attempt_payment state in
  fallback_services (snd next) = fallback_services state
  ∧ current_service (snd next) = current_service state
  ∧ retry_count (snd next) = retry_count state
  ∧ max_retries (snd next) = max_retries state
  ∧ sleeps (snd next) = sleeps state
  ∧ ∃ a, payment_attempts (snd next) = payment_attempts state ++ [AttemptEntry a]
      ∧ service a = current_service state
      ∧ attempt a = retry_count state + 1
      ∧ timestamp a = clock state
      ∧ ((status a = "success" ∧ fst next = N_complete_task
          ∧ (is_free (current_service state) = true
             ∨ ∃ data tx, world state = Paid data tx))
         ∨ (status a = "failed"
            ∧ is_free (current_service state) = false
            ∧ clock (snd next) = clock state
            ∧ (∃ msg code, (world state = Raised msg code
                            ∨ code = None ∧ ∃ r, world state = Returned r)
                           ∧ error (snd next) = Some msg
                           ∧ error_code a = Some (default "UNKNOWN" code))
            ∧ fst next = if bool_decide (retry_count state < max_retries state)
                         then N_handle_failure else N_final_failure)).
Proof.
  intros [t Ht].
  unfold step, attempt_payment, route_payment_result, is_free, Paid. rewrite Ht.
  destruct (bool_decide (cost _ = "0.00")) eqn:Hfree.
  - simpl. rewrite last_snoc. simpl. repeat split; try done.
    eexists. repeat split; try done. left. repeat split; try done. by left.
  - destruct (world state) as [[[data|] [[tx|]|]]|msg code] eqn:Hworld;
      simpl; rewrite last_snoc; simpl.
    + repeat split; try done.
      eexists. repeat split; try done. left. repeat split; try done.
      right. eauto.
    + destruct (bool_decide (retry_count state < max_retries state));
        simpl; repeat split; try done;
        eexists; repeat split; try done; right; repeat split; try done;
        exists "'txHash'", None; repeat split; eauto.
    + destruct (bool_decide (retry_count state < max_retries state));
        simpl; repeat split; try done;
        eexists; repeat split; try done; right; repeat split; try done;
        exists "'receipt'", None; repeat split; eauto.
    + destruct (bool_decide (retry_count state < max_retries state));
        simpl; repeat split; try done;
        eexists; repeat split; try done; right; repeat split; try done;
        exists "'data'", None; repeat split; eauto.
    + destruct (bool_decide (retry_count state < max_retries state));
        simpl; repeat split; try done;
        eexists; repeat split; try done; right; repeat split; try done;
        exists "'data'", None; repeat split; eauto.
    + destruct (bool_decide (retry_count state < max_retries state));
        simpl; repeat split; try done;
        eexists; repeat split; try done; right; repeat split; try done;
        exists "'data'", None; repeat split; eauto.
    + destruct (bool_decide (retry_count state < max_retries state));
        simpl; repeat split; try done;
        eexists; repeat split; try done; right; repeat split; try done;
        exists msg, code; repeat split; eauto.
Qed.

Lemma step_handle_failure world state a :
  last (payment_attempts state) = Some (AttemptEntry a) →
  step world N_handle_failure state
  = (match strategy_for (default "UNKNOWN" (error_code a)) with
     | EXPONENTIAL_BACKOFF | LINEAR_BACKOFF => N_retry_with_backoff
     | ALTERNATIVE_SERVICE =>
       match position state with
       | None => N_RAISED
       | Some i =>
         if bool_decide (i < length (fallback_services state) - 1)
         then N_try_alternative else N_use_fallback
       end
     | IMMEDIATE => N_final_failure
     end,
     set_retry_strategy
       (Some (strategy_for (default "UNKNOWN" (error_code a)))) state).
Proof.
  intros Hlast. unfold step, handle_payment_failure, route_failure_handling.
  rewrite Hlast. simpl. unfold position.
  destruct (strategy_for _); try done.
  destruct (index _ _) as [i|]; [|done].
  by destruct (bool_decide _).
Qed.

Lemma strategy_for_cases code :
  strategy_for code = EXPONENTIAL_BACKOFF ∧ code = "NETWORK_ERROR"
  ∨ strategy_for code = LINEAR_BACKOFF ∧ code = "RATE_LIMITED"
  ∨ strategy_for code = ALTERNATIVE_SERVICE.
Proof.
  unfold strategy_for. repeat case_bool_decide; subst; auto.
Qed.

(** *** Termination of the fallback chain *)

Lemma position_bound state i :
  position state = Some i → i < length (fallback_services state).
Proof.
  unfold position. intros Hi. apply index_lookup in Hi.
  by eapply lookup_lt_Some.
Qed.

(** An attempt that is retried goes through three nodes: the attempt,
    the failure analysis, and the node the analysis routes to. *)
Ltac three_nodes Hattempt Hhandle :=
  rewrite run_step by done; rewrite Hattempt; simpl fst; simpl snd;
  rewrite run_step by done; rewrite Hhandle; simpl fst; simpl snd;
  rewrite run_step by done.

(** From a well-configured state every run ends, within three nodes per
    unit of the variant and two more. *)
Lemma attempt_loop_terminates world n : ∀ state,
  well_configured state → variant state ≤ n →
  ∃ state', run world (3 * n + 2) N_attempt_payment state = (N_END, state')
    ∧ fallback_services state' = fallback_services state
    ∧ max_retries state' = max_retries state
    ∧ is_Some (completion_summary state')
    ∧ length (attempt_entries (payment_attempts state'))
      ≤ length (attempt_entries (payment_attempts state)) + n + 1
    ∧ ∃ i i', position state = Some i ∧ position state' = Some i' ∧ i ≤ i'
        ∧ length (switch_entries (payment_attempts state'))
          = length (switch_entries (payment_attempts state)) + (i' - i).
Proof.
  induction n as [n IH] using lt_wf_ind. intros state Hwc Hvar.
  destruct Hwc as (Htask & Hnd & Hin & (final & Hlast & Hfree) & Hr).
  destruct (index_elem_of _ _ Hin) as [i Hi].
  pose proof (step_attempt_payment world state Htask) as Hstep. cbv zeta in Hstep.
  pose proof (step_keeps_task world N_attempt_payment state) as Htk.
  destruct (step world N_attempt_payment state) as [node1 st1] eqn:Hs1.
  simpl in Hstep, Htk.
  destruct Hstep as (Hfs & Hcs & Hrc & Hmr & Hsl & a & Hlog & Hsvc & _ & _ & Hcase).
  assert (Hpos1 : position st1 = Some i).
  { unfold position. by rewrite Hfs, Hcs. }
  destruct Hcase as [(Hst & -> & _) | (Hst & Hpaid & _ & Hw & ->)].
  - exists (complete_task st1). split.
    { apply (run_enough world 2); [|lia].
      rewrite run_step by done. rewrite Hs1. reflexivity. }
    simpl. repeat split; try done.
    + rewrite Hlog, attempt_entries_snoc_attempt, length_app. simpl. lia.
    + exists i, i. repeat split; try done.
      rewrite Hlog, switch_entries_snoc_attempt. lia.
  - case_bool_decide as Hlt.
    2:{ exists (handle_final_failure st1). split.
        { apply (run_enough world 2); [|lia].
          rewrite run_step by done. rewrite Hs1. reflexivity. }
        simpl. repeat split; try done.
        + rewrite Hlog, attempt_entries_snoc_attempt, length_app. simpl. lia.
        + exists i, i. repeat split; try done.
          rewrite Hlog, switch_entries_snoc_attempt. lia. }
    assert (Hlast1 : last (payment_attempts st1) = Some (AttemptEntry a)).
    { rewrite Hlog. apply last_snoc. }
    assert (Hcont : ∀ st3,
      run world 3 N_attempt_payment state = (N_attempt_payment, st3) →
      well_configured st3 → variant st3 < variant state →
      fallback_services st3 = fallback_services state →
      max_retries st3 = max_retries state →
      length (attempt_entries (payment_attempts st3))
      = length (attempt_entries (payment_attempts state)) + 1 →
      (∃ i3, position st3 = Some i3 ∧ i ≤ i3
             ∧ length (switch_entries (payment_attempts st3))
               = length (switch_entries (payment_attempts state)) + (i3 - i)) →
      ∃ state', run world (3 * n + 2) N_attempt_payment state = (N_END, state')
        ∧ fallback_services state' = fallback_services state
        ∧ max_retries state' = max_retries state
        ∧ is_Some (completion_summary state')
        ∧ length (attempt_entries (payment_attempts state'))
          ≤ length (attempt_entries (payment_attempts state)) + n + 1
        ∧ ∃ i0 i', position state = Some i0 ∧ position state' = Some i' ∧ i0 ≤ i'
            ∧ length (switch_entries (payment_attempts state'))
              = length (switch_entries (payment_attempts state)) + (i' - i0)).
    { intros st3 Hrun3 Hwc3 Hdec Hfs3 Hmr3 Hat3 (i3 & Hp3 & Hle3 & Hsw3).
      destruct (IH (n - 1) ltac:(lia) st3 Hwc3 ltac:(lia))
        as (st' & Hrun & Hfs' & Hmr' & Hsum & Hat' & j & j' & Hj & Hj' & Hjle & Hsw').
      exists st'. split.
      { replace (3 * n + 2) with (3 + (3 * (n - 1) + 2)) by lia.
        rewrite run_compose, Hrun3. exact Hrun. }
      rewrite Hp3 in Hj. injection Hj as <-.
      repeat split; try congruence; [lia|].
      exists i, j'. repeat split; try done; lia. }
    pose proof (step_handle_failure world st1 a Hlast1) as Hs2.
    destruct (strategy_for_cases (default "UNKNOWN" (error_code a)))
      as [[Hstrat _]|[[Hstrat _]|Hstrat]]; rewrite Hstrat in Hs2.
    + eapply Hcont.
      * three_nodes Hs1 Hs2. reflexivity.
      * unfold well_configured. simpl. rewrite Htk, Hfs, Hcs, Hrc, Hmr.
        repeat split; eauto. lia.
      * unfold variant, position. simpl. rewrite Hfs, Hcs, Hrc, Hmr, Hi. simpl.
        lia.
      * simpl. done.
      * simpl. done.
      * simpl. rewrite Hlog, attempt_entries_snoc_attempt, length_app. simpl. lia.
      * exists i. simpl. unfold position. simpl. rewrite Hfs, Hcs, Hlog.
        rewrite switch_entries_snoc_attempt. repeat split; try done. lia.
    + eapply Hcont.
      * three_nodes Hs1 Hs2. reflexivity.
      * unfold well_configured. simpl. rewrite Htk, Hfs, Hcs, Hrc, Hmr.
        repeat split; eauto. lia.
      * unfold variant, position. simpl. rewrite Hfs, Hcs, Hrc, Hmr, Hi. simpl.
        lia.
      * simpl. done.
      * simpl. done.
      * simpl. rewrite Hlog, attempt_entries_snoc_attempt, length_app. simpl. lia.
      * exists i. simpl. unfold position. simpl. rewrite Hfs, Hcs, Hlog.
        rewrite switch_entries_snoc_attempt. repeat split; try done. lia.
    + rewrite Hpos1 in Hs2.
      pose proof (index_lookup _ _ _ Hi) as Hcur.
      case_bool_decide as Hmore.
      * rewrite Hfs in Hmore.
        destruct (lookup_lt_is_Some_2 (fallback_services state) (i + 1))
          as [next Hnext]; [lia|].
        assert (Hidx : index (fallback_services state) next = Some (i + 1))
          by (by apply index_of_lookup).
        assert (Htry : try_alternative_service
                         (set_retry_strategy (Some ALTERNATIVE_SERVICE) st1)
                       = Some (set_payment_attempts
                                 (payment_attempts st1 ++
                                  [SwitchEntry {| from := current_service state;
                                                  to := next;
                                                  reason := "payment_failure";
                                                  s_timestamp := clock st1 |}])
                                 (set_retry_count 0
                                    (set_current_service next
                                       (set_retry_strategy
                                          (Some ALTERNATIVE_SERVICE) st1))))).
        { unfold try_alternative_service. simpl.
          rewrite Hfs, Hcs, Hi, Hnext. reflexivity. }
        eapply Hcont.
        -- three_nodes Hs1 Hs2. simpl step. rewrite Htry. reflexivity.
        -- unfold well_configured. simpl. rewrite Htk, Hfs, Hmr.
           repeat split; eauto; [|lia].
           by eapply list_elem_of_lookup_2.
        -- unfold variant, position. simpl. rewrite Hfs, Hmr, Hidx, Hi. simpl.
           replace (length (fallback_services state) - 1 - i)
             with (S (length (fallback_services state) - 1 - (i + 1))) by lia.
           rewrite Nat.mul_succ_l. lia.
        -- simpl. done.
        -- simpl. done.
        -- simpl. rewrite attempt_entries_snoc_switch, Hlog,
             attempt_entries_snoc_attempt, length_app. simpl. lia.
        -- exists (i + 1). simpl. unfold position. simpl. rewrite Hfs, Hidx.
           rewrite switch_entries_snoc_switch, Hlog, switch_entries_snoc_attempt,
             length_app. simpl. repeat split; try done; lia.
      * exfalso. rewrite Hfs in Hmore.
        pose proof (lookup_lt_Some _ _ _ Hcur) as Hbound.
        rewrite last_lookup in Hlast.
        replace (pred (length (fallback_services state))) with i in Hlast by lia.
        rewrite Hcur in Hlast. injection Hlast as <-. congruence.
Qed.

Lemma variant_bound state :
  current_service state ∈ fallback_services state →
  variant state ≤ length (fallback_services state) * (max_retries state + 1).
Proof.
  intros Hin. unfold variant.
  assert (0 < length (fallback_services state)) as Hlen.
  { destruct (fallback_services state); [by apply elem_of_nil in Hin|simpl; lia]. }
  destruct (length (fallback_services state)) as [|m]; [lia|].
  rewrite Nat.mul_succ_l.
  assert ((S m - 1 - default 0 (position state)) * (max_retries state + 1)
          ≤ m * (max_retries state + 1)).
  { apply Nat.mul_le_mono_r. lia. }
  lia.
Qed.

Lemma validate_request_well_configured state :
  is_Some (task state) → well_configured (validate_request state).
Proof.
  intros Htask. unfold well_configured. simpl. repeat split.
  - done.
  - unfold default_fallback_services. compute_done.
  - unfold default_fallback_services. compute_done.
  - exists "free_service". done.
  - lia.
Qed.

Lemma validate_request_variant state : variant (validate_request state) ≤ 24.
Proof.
  etrans; [apply variant_bound|].
  - simpl. unfold default_fallback_services. compute_done.
  - simpl. lia.
Qed.

(** The first node: a state with a task goes on to the first attempt. *)
Lemma step_validate_request world state :
  is_Some (task state) →
  step world N_validate_request state = (N_attempt_payment, validate_request state).
Proof. intros [t Ht]. simpl. unfold validate_request_raises. by rewrite Ht. Qed.


(** On the built-in hierarchy the current service is one of four. *)
Lemma position_in_default_hierarchy service i :
  index default_fallback_services service = Some i →
  i = 0 ∧ service = "premium_ai_service"
  ∨ i = 1 ∧ service = "standard_ai_service"
  ∨ i = 2 ∧ service = "basic_ai_service"
  ∨ i = 3 ∧ service = "free_service".
Proof.
  intros Hi. pose proof (index_lookup _ _ _ Hi) as Hlook.
  destruct i as [|[|[|[|i]]]]; simpl in Hlook; try done;
    injection Hlook as <-; auto.
Qed.

(** *** What the log says about the switches *)







(** *** Network errors: retries with exponential backoff *)






End RetryWorkflow.

(** ** [PaymentRateLimit.checkRateLimit] *)
Section RateLimit.
Import PaymentRateLimit.

(** Below ten, a call is admitted, counted, and its reset is scheduled
    for an hour later. *)
Lemma checkRateLimit_admits now client this :
  default 0 (attempts this !! ("payment_attempts:" +:+ client)) < 10 →
  checkRateLimit now client this
  = (true,
     {| attempts :=
          <["payment_attempts:" +:+ client :=
              default 0 (attempts this !! ("payment_attempts:" +:+ client)) + 1]>
            (attempts this);
        timers := timers this
                  ++ [((now + hour_ms)%Z, "payment_attempts:" +:+ client)] |}).
Proof.
  intros Hlt. unfold checkRateLimit.
  by rewrite bool_decide_eq_false_2 by lia.
Qed.

(** From ten on, a call is refused and changes nothing. *)
Lemma checkRateLimit_refuses now client this :
  10 ≤ default 0 (attempts this !! ("payment_attempts:" +:+ client)) →
  checkRateLimit now client this = (false, this).
Proof.
  intros Hge. unfold checkRateLimit. by rewrite bool_decide_eq_true_2.
Qed.

(** C10.  The limiter does not keep a client to ten attempts an hour.
    Every admitted call schedules its own reset of the client's counter
    one hour later, so the reset scheduled by the first call of a window
    clears the count of all calls made since: of the twenty requests of
    [Scenarios.burst] all are admitted, nineteen of them within two
    seconds. *)
Theorem more_than_ten_attempts_in_an_hour :
  let answers := snd (serve empty Scenarios.burst) in
  answers = replicate 20 true
  ∧ admitted_between 3599000 3601000 "client" Scenarios.burst answers = 19
  ∧ (3601000 - 3599000 < hour_ms)%Z.
Proof. vm_compute. repeat split; reflexivity. Qed.

End RateLimit.

(** ** The server side: [parsePaymentHeader], [validatePaymentHeader]
       and the Express middleware *)
Section ServerSide.
Import X402Middleware.

Lemma replace_eq_by_amp_no_equals header :
  no_equals (X402Validator.replace_eq_by_amp header).
Proof.
  induction header as [|c rest IH]; simpl; [done|].
  split; [|done]. unfold URLSearchParams.is_char.
  case_bool_decide; [done|]. done.
Qed.

Lemma strip_question_no_equals s :
  no_equals s → no_equals (URLSearchParams.strip_question s).
Proof.
  destruct s as [|c rest]; simpl; [done|].
  intros [Hc Hrest]. by destruct (URLSearchParams.is_char c "?").
Qed.

Lemma split_on_no_equals sep s :
  no_equals s → Forall no_equals (URLSearchParams.split_on sep s).
Proof.
  induction s as [|c rest IH]; simpl; intros Hs.
  - by apply Forall_singleton.
  - destruct Hs as [Hc Hrest]. specialize (IH Hrest).
    destruct (URLSearchParams.is_char c sep).
    + by apply Forall_cons.
    + destruct (URLSearchParams.split_on sep rest) as [|piece pieces].
      * by apply Forall_singleton.
      * apply Forall_cons in IH as [Hp Hps]. by apply Forall_cons.
Qed.

Lemma split_first_no_equals piece :
  no_equals piece →
  URLSearchParams.split_first "=" piece = (piece, EmptyString).
Proof.
  induction piece as [|c rest IH]; simpl; [done|].
  intros [Hc Hrest]. unfold URLSearchParams.is_char.
  rewrite bool_decide_eq_false_2 by done. by rewrite IH.
Qed.

Lemma get_empty_values pieces name :
  Forall no_equals pieces →
  let params :=
    map (λ piece, let '(n, v) := URLSearchParams.split_first "=" piece in
                  (URLSearchParams.decode n, URLSearchParams.decode v)) pieces in
  URLSearchParams.get params name = None
  ∨ URLSearchParams.get params name = Some EmptyString.
Proof.
  induction pieces as [|piece pieces IH]; intros Hall; simpl; [by left|].
  apply Forall_cons in Hall as [Hp Hps].
  rewrite (split_first_no_equals piece Hp).
  case_bool_decide; [by right|]. by apply IH.
Qed.

(** After [header.replace(/=/g, '&')] no parameter has a value: for
    every header and every name, [params.get(name)] is [null] or the
    empty string. *)
Lemma parsed_value_is_empty header name :
  let params := URLSearchParams.parse (X402Validator.replace_eq_by_amp header) in
  URLSearchParams.get params name = None
  ∨ URLSearchParams.get params name = Some EmptyString.
Proof.
  unfold URLSearchParams.parse. apply get_empty_values.
  apply Forall_forall. intros piece Hin.
  apply list_elem_of_filter in Hin as [_ Hin].
  pose proof (split_on_no_equals "&"
                (URLSearchParams.strip_question
                   (X402Validator.replace_eq_by_amp header))
                (strip_question_no_equals _
                   (replace_eq_by_amp_no_equals header))) as Hall.
  rewrite Forall_forall in Hall. by apply Hall.
Qed.

(** X1.  Whatever the [X-Payment] header is, [parsePaymentHeader]
    recovers no value from it: each of [type], [receipt], [signature],
    [agent] and [amount] is [null] or the empty string. *)
Theorem parsePaymentHeader_recovers_nothing (header : string) :
  let payment := X402Validator.parsePaymentHeader header in
  Forall (λ field, field = None ∨ field = Some EmptyString)
         [p_type payment; p_receipt payment; p_signature payment;
          p_agent payment; p_amount payment].
Proof.
  simpl. repeat (apply Forall_cons; split; [apply parsed_value_is_empty|]).
  apply Forall_nil_2.
Qed.

Lemma verifyPaymentOnChain_refuses chain header :
  X402Validator.verifyPaymentOnChain chain
    (X402Validator.parsePaymentHeader header) = false.
Proof.
  unfold X402Validator.verifyPaymentOnChain.
  destruct (parsed_value_is_empty header "type") as [H|H];
    simpl in H; simpl; rewrite H; done.
Qed.

Lemma validatePaymentHeader_invalid this header result :
  validatePaymentHeader this header = Some result →
  valid result = false
  ∧ payment result = None
  ∧ (code result = Some "INVALID_FORMAT" ∨ code result = Some "PAYMENT_NOT_FOUND").
Proof.
  unfold validatePaymentHeader.
  destruct (isValidFormat this _) as [[|]|]; simpl; [| |done].
  - rewrite verifyPaymentOnChain_refuses. simpl. intros [= <-]. simpl. auto.
  - intros [= <-]. simpl. auto.
Qed.

(** X2.  [validatePaymentHeader] accepts no header at all: whenever it
    returns, the result is invalid, with the code INVALID_FORMAT (when
    [isValidFormat] refuses) or PAYMENT_NOT_FOUND (otherwise); the
    amount check and the chain verifiers are never reached. *)
Theorem validatePaymentHeader_never_valid
    (this : Validator) (header : string) (result : ValidationResult) :
  validatePaymentHeader this header = Some result →
  valid result = false
  ∧ payment result = None
  ∧ (code result = Some "INVALID_FORMAT" ∨ code result = Some "PAYMENT_NOT_FOUND").
Proof. apply validatePaymentHeader_invalid. Qed.

Lemma validatePaymentHeader_never_valid_witness :
  ∃ result,
    validatePaymentHeader Examples.credulous
      "type=paystabl receipt=0x1234 signature=0xabcd agent=agent_123"
    = Some result
    ∧ valid result = false
    ∧ code result = Some "PAYMENT_NOT_FOUND".
Proof.
  eexists. split; [vm_compute; reflexivity|].
  destruct (validatePaymentHeader_never_valid Examples.credulous
              "type=paystabl receipt=0x1234 signature=0xabcd agent=agent_123"
              {| valid := false; error := Some "Payment not found or invalid";
                 code := Some "PAYMENT_NOT_FOUND"; payment := None |})
    as (Hvalid & _ & _).
  - vm_compute. reflexivity.
  - split; [exact Hvalid | reflexivity].
Defined.

(** X3.  A request without an [X-Payment] header (or with an empty one)
    gets the 402 answer, and the client handler finds in it every
    header it reads: it parses the accepted methods, the amount line
    "amount=<requiredAmount> currency=<currency>", the purpose "API
    access fee" and the expiry fifteen minutes after the request, and
    asks [processPayment] for that amount and purpose. *)
Theorem middleware_offer_is_read_by_client
    (requiredAmount currency : string) (validator : Validator)
    (toUTCString : Z → string) (now : Z) (paymentHeader : option string)
    (client : X402Handler.Collaborators) :
  falsy paymentHeader = true →
  ∃ headers body,
    x402Middleware requiredAmount currency validator toUTCString now paymentHeader
    = Respond 402 headers body
    ∧ X402Handler.parseX402Headers client headers
      = {| X402Handler.acceptedMethods :=
             X402Handler.parseAcceptPayment client
               (Some "paystabl agent=required, bitcoin lightning=optional");
           X402Handler.amount :=
             X402Handler.parseAmount client
               (Some ("amount=" +:+ requiredAmount +:+ " currency=" +:+ currency));
           X402Handler.purpose := Some "API access fee";
           X402Handler.expiresAt :=
             X402Handler.newDate client
               (Some (toUTCString (now + 15 * 60 * 1000)%Z)) |}
    ∧ fst (X402Handler.handleX402Response client headers)
      = [X402Handler.ProcessPayment
           {| X402Handler.q_amount :=
                X402Handler.parseAmount client
                  (Some ("amount=" +:+ requiredAmount +:+ " currency=" +:+ currency));
              X402Handler.q_currency := None;
              X402Handler.q_purpose := Some "API access fee";
              X402Handler.q_recipient := None |}].
Proof.
  intros Hfalsy. unfold x402Middleware. rewrite Hfalsy.
  eexists _, _. split; [reflexivity|].
  split.
  - unfold X402Handler.parseX402Headers. by simplify_map_eq.
  - rewrite handleX402Response_calls. by simplify_map_eq.
Qed.

Lemma middleware_offer_is_read_by_client_witness :
  ∃ headers body,
    x402Middleware "2.50" "USD" Examples.credulous (λ _, "Mon, 15 Jan 2024 10:30:00 GMT")
      1705313700000 None
    = Respond 402 headers body
    ∧ fst (X402Handler.handleX402Response Scenarios.sdk headers)
      = [X402Handler.ProcessPayment
           {| X402Handler.q_amount := 250;
              X402Handler.q_currency := None;
              X402Handler.q_purpose := Some "API access fee";
              X402Handler.q_recipient := None |}].
Proof.
  destruct (middleware_offer_is_read_by_client "2.50" "USD" Examples.credulous
              (λ _, "Mon, 15 Jan 2024 10:30:00 GMT") 1705313700000 None
              Scenarios.sdk) as (headers & body & Hreply & _ & Hcalls).
  - reflexivity.
  - exists headers, body. split; [exact Hreply|]. exact Hcalls.
Defined.

Lemma formatPaymentHeader_not_falsy payment :
  falsy (Some (X402Handler.formatPaymentHeader payment)) = false.
Proof. reflexivity. Qed.

(** X4.  The retry built by the client is never let through by the
    middleware: whatever the validator's helpers answer, a request
    carrying the [X-Payment] header returned by [handleX402Response] is
    answered with status 400 (or 500 when a helper throws), and
    [next()] is not called. *)
Theorem sdk_retry_is_never_accepted
    (client : X402Handler.Collaborators) (offer : gmap string string)
    (retry : X402Handler.PaymentHeaders)
    (requiredAmount currency : string) (validator : Validator)
    (toUTCString : Z → string) (now : Z) :
  snd (X402Handler.handleX402Response client offer) = inr retry →
  ∃ status body,
    x402Middleware requiredAmount currency validator toUTCString now
      (Some (X402Handler.X_Payment retry))
    = Respond status ∅ body
    ∧ (status = 400 ∨ status = 500)%Z.
Proof.
  unfold X402Handler.handleX402Response.
  destruct (X402Handler.processPayment client _) as [thrown|paid]; simpl; [done|].
  intros [= <-]. simpl.
  unfold x402Middleware. rewrite formatPaymentHeader_not_falsy.
  simpl default.
  destruct (validatePaymentHeader validator _) as [result|] eqn:Hv.
  - apply validatePaymentHeader_invalid in Hv as (-> & _ & _).
    simpl. eauto.
  - eauto.
Qed.

Lemma sdk_retry_is_never_accepted_witness :
  ∃ status body,
    x402Middleware "2.50" "USD" Examples.credulous (λ _, "") 0
      (Some "type=paystabl receipt=0x1234 signature=0xabcd agent=agent_123")
    = Respond status ∅ body
    ∧ (status = 400 ∨ status = 500)%Z.
Proof.
  apply (sdk_retry_is_never_accepted Scenarios.sdk Scenarios.offer
           {| X402Handler.X_Payment :=
                "type=paystabl receipt=0x1234 signature=0xabcd agent=agent_123";
              X402Handler.X_Payment_Receipt := "{}" |}
           "2.50" "USD" Examples.credulous (λ _, "") 0).
  vm_compute. reflexivity.
Defined.

End ServerSide.

(** ** What [verifyPayment] records *)
Section ReceiptStore.
Import SecurePaymentVerification.

Lemma resume_keeps_the_request used c :
  c_this (fst (resume used c)) = c_this c
  ∧ c_payment (fst (resume used c)) = c_payment c.
Proof. unfold resume. by destruct (c_at c). Qed.

(** One turn of a call: the checks behind it still passed, and the
    receipt is marked at most as often as calls stop being able to mark
    it. *)
Lemma resume_accounts used c (r : option string) :
  sound c →
  sound (fst (resume used c))
  ∧ timesConsumed (snd (resume used c)) r
    + (if may_mark r (fst (resume used c)) then 1 else 0)
    ≤ timesConsumed used r + (if may_mark r c then 1 else 0).
Proof.
  unfold sound, may_mark, resume, passesChecks, markPaymentUsed.
  destruct (c_at c) as [| | |tx|tx|e|res] eqn:Hat; simpl; intros Hsound.
  - destruct (verifySignature (c_this c) (c_payment c)); simpl; [|split; [done|lia]].
    split; [done|lia].
  - rewrite Hsound. simpl.
    destruct (verifyTransactionExists (c_this c) _); simpl; split; try done; lia.
  - destruct Hsound as [-> ->]. simpl.
    destruct ((tx_amount _ <? requiredAmount (c_this c))%Z); simpl;
      [split; [done|lia]|].
    destruct (bool_decide (tx_recipient _ = paymentAddress (c_this c))); simpl;
      split; try done; lia.
  - destruct (checkPaymentUsed used _); simpl; [split; [done|]|split; [done|lia]].
    destruct (_ && _); lia.
  - rewrite Hsound. simpl. split; [done|].
    rewrite timesConsumed_cons.
    destruct (decide (p_receipt (c_payment c) = r)) as [Heq|Hne];
      [rewrite (bool_decide_eq_true_2 (p_receipt (c_payment c) = r)) by done
      |rewrite (bool_decide_eq_false_2 (p_receipt (c_payment c) = r)) by done];
      lia.
  - rewrite Hat. split; [done|lia].
  - rewrite Hat. split; [done|lia].
Qed.

Lemma may_mark_insert (r : option string) calls : ∀ i c c',
  calls !! i = Some c →
  length (filter (λ x, may_mark r x = true) (<[i := c']> calls))
  + (if may_mark r c then 1 else 0)
  = length (filter (λ x, may_mark r x = true) calls)
    + (if may_mark r c' then 1 else 0).
Proof.
  induction calls as [|x calls IH]; intros i c c' Hi; [done|].
  destruct i as [|i]; simpl in *.
  - injection Hi as ->. rewrite !filter_cons.
    destruct (may_mark r c), (may_mark r c'); simpl;
      repeat (destruct (decide _); try done); simpl; lia.
  - rewrite !filter_cons. specialize (IH i c c' Hi).
    destruct (decide (may_mark r x = true)); simpl; lia.
Qed.

(** Whatever the schedule, a receipt is marked at most once for every
    call that could still mark it. *)
Lemma interleave_accounts (r : option string) schedule : ∀ calls used,
  Forall sound calls →
  timesConsumed (snd (interleave schedule calls used)) r
  ≤ timesConsumed used r
    + length (filter (λ c, may_mark r c = true) calls).
Proof.
  induction schedule as [|i schedule IH]; intros calls used Hsound; simpl; [lia|].
  destruct (calls !! i) as [c|] eqn:Hc; [|by apply IH].
  assert (sound c) as Hc_sound.
  { rewrite Forall_forall in Hsound. apply Hsound.
    by eapply list_elem_of_lookup_2. }
  destruct (resume_accounts used c r Hc_sound) as [Hsound' Hcount].
  etrans; [apply IH|].
  - apply Forall_insert; done.
  - pose proof (may_mark_insert r calls i c (fst (resume used c)) Hc). lia.
Qed.

(** X5.  However calls of [verifyPayment] overlap, a receipt is marked
    used only for payments that passed the four checks, and at most
    once for each such call: after any schedule of any calls, a receipt
    is in the store no more often than it was before plus the number of
    calls whose payment carries it and passes the checks; so every
    receipt in the store was there before or belongs to a call that
    passed them.  A payment rejected for its signature, amount or
    recipient does not consume its receipt. *)
Theorem only_verified_receipts_are_marked
    (schedule : list nat) (used : list (option string))
    (reqs : list (Verifier * Payment)) :
  let store := snd (interleave schedule (uncurry call <$> reqs) used) in
  (∀ r, timesConsumed store r
        ≤ timesConsumed used r
          + length (filter (λ q, passesChecks (fst q) (snd q) = true
                                 ∧ p_receipt (snd q) = r) reqs))
  ∧ (∀ r, r ∈ store →
          r ∈ used
          ∨ ∃ this p, (this, p) ∈ reqs ∧ p_receipt p = r
                      ∧ passesChecks this p = true).
Proof.
  intros store.
  assert (∀ r, timesConsumed store r
               ≤ timesConsumed used r
                 + length (filter (λ q, passesChecks (fst q) (snd q) = true
                                        ∧ p_receipt (snd q) = r) reqs)) as Hcount.
  { intros r. subst store.
    etrans; [apply (interleave_accounts r)|].
    - apply Forall_fmap, Forall_forall. by intros [this p] _.
    - apply Nat.add_le_mono_l. clear.
      induction reqs as [|[this p] reqs IH]; [done|].
      rewrite fmap_cons, !filter_cons.
      destruct (decide (may_mark r (uncurry call (this, p)) = true)) as [Hmay|_];
        destruct (decide (passesChecks (this, p).1 (this, p).2 = true
                          ∧ p_receipt (this, p).2 = r)) as [_|Hnot];
        simpl; try lia.
      exfalso. apply Hnot. unfold may_mark in Hmay. simpl in *.
      apply andb_true_iff in Hmay as [Hpass Hrec].
      by apply bool_decide_eq_true in Hrec. }
  split; [exact Hcount|].
  intros r Hr. specialize (Hcount r).
  destruct (decide (r ∈ used)) as [|Hnot]; [by left|right].
  rewrite (timesConsumed_absent used r Hnot) in Hcount.
  assert (0 < timesConsumed store r) as Hpos.
  { unfold timesConsumed. clear -Hr.
    induction Hr as [x l|x y l Hr IH]; rewrite filter_cons.
    - rewrite decide_True by done. simpl. lia.
    - destruct (decide _); simpl; lia. }
  destruct (filter _ reqs) as [|[this p] rest] eqn:Hfilter; [simpl in Hcount; lia|].
  assert ((this, p) ∈ filter (λ q, passesChecks (fst q) (snd q) = true
                                   ∧ p_receipt (snd q) = r) reqs) as Hin.
  { rewrite Hfilter. by left. }
  apply list_elem_of_filter in Hin as [[Hpass Hrec] Hin]. simpl in *.
  exists this, p. done.
Qed.

End ReceiptStore.

(** ** [AgentWallet]: what no call changes *)
Section WalletFrame.
Import AgentWallet.

Lemma executePayment_frame st sender recipient amount call_ok st' :
  executePayment st sender recipient amount call_ok = inr st' →
  ∀ k, k ≠ sender → dailySpent st' !! k = dailySpent st !! k.
Proof.
  unfold executePayment.
  destruct (sender =? agent st)%N; simpl; [|discriminate].
  destruct (checked_add _ amount) as [total|]; [|discriminate].
  destruct (_ <=? _)%N; simpl; [|discriminate].
  destruct (readB (allowlist st) recipient); simpl; [|discriminate].
  destruct call_ok; simpl; [|discriminate].
  intros [= <-] k Hk. simpl. by rewrite lookup_insert_ne.
Qed.

Lemma execute_frame calls : ∀ st,
  allowlist (fst (execute st calls)) = allowlist st
  ∧ ∀ k, k ≠ agent st →
         dailySpent (fst (execute st calls)) !! k = dailySpent st !! k.
Proof.
  induction calls as [|c calls IH]; intros st; simpl; [done|].
  destruct (executePayment st _ _ _ _) as [e|st1] eqn:Hexec; [apply IH|].
  destruct (execute st1 calls) as [st2 paid] eqn:Hrest. simpl.
  pose proof (executePayment_frame _ _ _ _ _ _ Hexec) as Hframe.
  apply executePayment_ok in Hexec as (Hs & _ & _ & Hag & _ & Hal & _).
  destruct (IH st1) as [IHal IHframe]. rewrite Hrest in IHal, IHframe.
  simpl in IHal, IHframe. rewrite Hag in IHframe. split; [congruence|].
  intros k Hk. rewrite IHframe by done. apply Hframe. congruence.
Qed.

(** X6.  The contract's "daily" spend is never reset.  Over any
    sequence of calls the agent's [dailySpent] grows by exactly the
    payments that went through; the agent, the limits, the allowlist and
    the other [dailySpent] entries stay as they were; and once the spend
    has reached the limit, every later payment of a positive amount
    reverts, whoever sends it and however much later. *)
Theorem wallet_spend_is_never_reset (st : Storage) (calls : list Call) :
  let st' := fst (execute st calls) in
  let paid := snd (execute st calls) in
  readN (dailySpent st') (agent st)
  = (readN (dailySpent st) (agent st) + total paid)%N
  ∧ agent st' = agent st
  ∧ dailyLimits st' = dailyLimits st
  ∧ allowlist st' = allowlist st
  ∧ (∀ k, k ≠ agent st → dailySpent st' !! k = dailySpent st !! k)
  ∧ ((readN (dailyLimits st) (agent st) ≤ readN (dailySpent st) (agent st))%N →
     ∀ sender recipient amount call_ok,
       (0 < amount)%N →
       ∃ e, executePayment st' sender recipient amount call_ok = inl e).
Proof.
  intros st' paid. subst st' paid.
  destruct (execute st calls) as [st' paid] eqn:Hrun.
  pose proof (execute_frame calls st) as [Hal Hframe].
  rewrite Hrun in Hal, Hframe. simpl in *.
  apply execute_accounts in Hrun as (Hag & Hlim & Hspent & _).
  repeat split; try done.
  intros Hfull sender recipient amount call_ok Hpos.
  unfold executePayment.
  destruct (sender =? agent st')%N eqn:Hs; simpl; [|eauto].
  apply N.eqb_eq in Hs. subst sender. rewrite Hag, Hlim.
  unfold checked_add.
  destruct (_ <? uint256_limit)%N; [|eauto].
  rewrite (proj2 (N.leb_gt _ _)) by lia. simpl. eauto.
Qed.

Lemma wallet_spend_is_never_reset_witness :
  ∃ e, executePayment
         (fst (execute Examples.spent_wallet [Scenarios.pay6]))
         1 2 1 true = inl e.
Proof.
  destruct (wallet_spend_is_never_reset Examples.spent_wallet [Scenarios.pay6])
    as (_ & _ & _ & _ & _ & Hfull).
  apply Hfull; [vm_compute; discriminate | lia].
Defined.

End WalletFrame.

(** ** [validateTransaction]: validity and approval *)
Section ApprovalOnlyWhenInvalid.
Import PolicyEnforcement.

(** X7.  [validateTransaction] never answers "valid, but requires
    approval": a valid outcome carries no error and no approval
    request, and an approval request comes only with an invalid outcome,
    from a failed check that set [requiresApproval]. *)
Theorem approval_only_for_invalid
    (this : Helpers) (agentId : string) (transaction : Transaction) :
  let outcome := snd (validateTransaction this agentId transaction) in
  (o_valid outcome = true ↔ o_errors outcome = [])
  ∧ (o_valid outcome = true → o_requiresApproval outcome = false)
  ∧ (o_requiresApproval outcome = true →
     o_valid outcome = false
     ∧ ∃ v, v ∈ checkResults this agentId transaction
            ∧ valid v = false ∧ requiresApproval v = Some true).
Proof.
  intros outcome. subst outcome. rewrite validateTransaction_unfold.
  simpl snd. cbv zeta. simpl o_valid. simpl o_errors. simpl o_requiresApproval.
  set (failed := filter (λ v, valid v = false)
                        (checkResults this agentId transaction)).
  assert (Hnil : bool_decide (length failed = 0) = true ↔ failed = []).
  { rewrite bool_decide_eq_true. apply length_zero_iff_nil. }
  split; [|split].
  - rewrite Hnil. split; [by intros ->|]. apply fmap_nil_inv.
  - intros Hv. apply Hnil in Hv. by rewrite Hv.
  - intros Happr. apply existsb_exists in Happr as (v & Hin & Htruthy).
    apply list_elem_of_In in Hin.
    split.
    + apply bool_decide_eq_false. intros Hlen.
      apply length_zero_iff_nil in Hlen. rewrite Hlen in Hin.
      by apply elem_of_nil in Hin.
    + apply list_elem_of_filter in Hin as [Hfail Hin].
      exists v. repeat split; try done.
      destruct (requiresApproval v) as [[|]|]; done.
Qed.

Lemma approval_only_for_invalid_witness :
  let tx := {| amount := 600; recipient := "api.example.com" |} in
  o_requiresApproval (snd (validateTransaction Scenarios.lenient "agent" tx))
  = false.
Proof.
  apply (approval_only_for_invalid Scenarios.lenient "agent"
           {| amount := 600; recipient := "api.example.com" |}).
  vm_compute. reflexivity.
Defined.

End ApprovalOnlyWhenInvalid.

(** ** [PaymentRateLimit]: what does hold *)
Section RateLimitBounds.
Import PaymentRateLimit.

Lemma expire_all_lookup (due : list (Z * string)) : ∀ (m : gmap string nat) key,
  foldl (λ m t, expire (snd t) m) m due !! key = None
  ∨ foldl (λ m t, expire (snd t) m) m due !! key = m !! key.
Proof.
  induction due as [|t due IH]; intros m key; simpl; [by right|].
  destruct (IH (expire (snd t) m) key) as [H|H]; [by left|].
  rewrite H. unfold expire.
  destruct (decide (snd t = key)) as [->|Hne].
  - left. apply lookup_delete_eq.
  - right. by apply lookup_delete_ne.
Qed.

Lemma key_injective (a b : string) :
  "payment_attempts:" +:+ a = "payment_attempts:" +:+ b → a = b.
Proof. intros H. simpl in H. by simplify_eq. Qed.

Lemma serve_cons this r rest :
  serve this (r :: rest)
  = (fst (serve (snd (checkRateLimit (at_ms r) (clientId r)
                        (run_timers (at_ms r) this))) rest),
     fst (checkRateLimit (at_ms r) (clientId r) (run_timers (at_ms r) this))
     :: snd (serve (snd (checkRateLimit (at_ms r) (clientId r)
                           (run_timers (at_ms r) this))) rest)).
Proof.
  simpl. destruct (checkRateLimit _ _ _) as [ok this']. simpl.
  by destruct (serve this' rest).
Qed.

(** X8.  However the requests and the resets fall, no counter of the
    limiter ever exceeds ten. *)
Theorem counter_never_exceeds_ten (this : Limiter) (reqs : list Request) :
  (∀ key, default 0 (attempts this !! key) ≤ 10) →
  ∀ key, default 0 (attempts (fst (serve this reqs)) !! key) ≤ 10.
Proof.
  revert this. induction reqs as [|r rest IH]; intros this Hinv; [done|].
  rewrite serve_cons. simpl fst. apply IH. clear IH.
  assert (Htimers : ∀ key,
            default 0 (attempts (run_timers (at_ms r) this) !! key) ≤ 10).
  { intros key. simpl.
    destruct (expire_all_lookup
                (filter (λ t, (fst t ≤ at_ms r)%Z) (timers this))
                (attempts this) key) as [->| ->]; [simpl; lia | apply Hinv]. }
  intros key. unfold checkRateLimit.
  case_bool_decide as Hfull; simpl; [apply Htimers|].
  destruct (decide ("payment_attempts:" +:+ clientId r = key)) as [<-|Hne].
  - rewrite lookup_insert_eq. simpl. simpl in Hfull. lia.
  - rewrite lookup_insert_ne by done. apply Htimers.
Qed.

Lemma counter_never_exceeds_ten_witness :
  default 0 (attempts (fst (serve empty Scenarios.burst))
             !! "payment_attempts:client") ≤ 10.
Proof.
  apply (counter_never_exceeds_ten empty Scenarios.burst).
  intros key. vm_compute. lia.
Defined.

Lemma run_timers_none_due now this :
  Forall (λ t, (now < fst t)%Z) (timers this) →
  run_timers now this = this.
Proof.
  intros Hdue. unfold run_timers. destruct this as [m ts]. simpl in *.
  assert (filter (λ t : Z * string, (fst t ≤ now)%Z) ts = []
          ∧ filter (λ t : Z * string, ¬ (fst t ≤ now)%Z) ts = ts) as [-> ->].
  { induction ts as [|t ts IH]; [done|].
    apply Forall_cons in Hdue as [Ht Hts]. destruct (IH Hts) as [IH1 IH2].
    rewrite !filter_cons, IH1, IH2.
    rewrite decide_False by lia. by rewrite decide_True by lia. }
  done.
Qed.

Lemma admitted_between_cons lo hi client r ok reqs oks :
  admitted_between lo hi client (r :: reqs) (ok :: oks)
  = (if decide (ok = true ∧ clientId r = client
                ∧ (lo ≤ at_ms r)%Z ∧ (at_ms r ≤ hi)%Z) then 1 else 0)
    + admitted_between lo hi client reqs oks.
Proof.
  unfold admitted_between. simpl. rewrite filter_cons. simpl.
  destruct (decide _); reflexivity.
Qed.

(** While no reset is due the counter of a client bounds what is
    admitted for it. *)
Lemma admitted_before_first_reset lo hi client reqs : ∀ this,
  Forall (λ t, (hi < fst t)%Z) (timers this) →
  Forall (λ r, (lo ≤ at_ms r)%Z ∧ (at_ms r ≤ hi)%Z ∧ (hi < at_ms r + hour_ms)%Z) reqs →
  default 0 (attempts this !! ("payment_attempts:" +:+ client)) ≤ 10 →
  default 0 (attempts this !! ("payment_attempts:" +:+ client))
  + admitted_between lo hi client reqs (snd (serve this reqs)) ≤ 10.
Proof.
  induction reqs as [|r rest IH]; intros this Htimers Hreqs Hcount.
  { unfold admitted_between. simpl. lia. }
  apply Forall_cons in Hreqs as [(Hlo & Hhi & Hnext) Hrest].
  rewrite serve_cons. simpl snd.
  rewrite run_timers_none_due.
  2:{ eapply Forall_impl; [exact Htimers|]. simpl. intros t Ht. lia. }
  rewrite admitted_between_cons.
  unfold checkRateLimit.
  case_bool_decide as Hfull; simpl fst; simpl snd.
  - rewrite decide_False by (intros [? _]; done).
    specialize (IH this Htimers Hrest Hcount). lia.
  - set (this' := {| attempts := _; timers := _ |}).
    assert (Htimers' : Forall (λ t, (hi < fst t)%Z) (timers this')).
    { simpl. apply Forall_app. split; [done|]. by apply Forall_singleton. }
    destruct (decide (clientId r = client)) as [Heq|Hne].
    + rewrite decide_True by done. subst client.
      specialize (IH this' Htimers' Hrest). simpl in IH.
      rewrite lookup_insert_eq in IH. simpl in IH. lia.
    + rewrite decide_False by (intros (_ & ? & _); done).
      specialize (IH this' Htimers' Hrest). simpl in IH.
      rewrite lookup_insert_ne in IH by (intros H; by apply key_injective in H).
      simpl. apply IH. exact Hcount.
Qed.

(** X9.  Within the first hour the limit holds: of the requests a
    fresh limiter serves during an interval shorter than an hour, at
    most ten are admitted for any one client. *)
Theorem at_most_ten_before_first_reset
    (reqs : list Request) (client : string) (start stop : Z) :
  (stop < start + hour_ms)%Z →
  Forall (λ r, (start ≤ at_ms r)%Z ∧ (at_ms r ≤ stop)%Z) reqs →
  admitted_between start stop client reqs (snd (serve empty reqs)) ≤ 10.
Proof.
  intros Hshort Hreqs.
  pose proof (admitted_before_first_reset start stop client reqs empty) as H.
  assert (default 0 (attempts empty !! ("payment_attempts:" +:+ client)) = 0)
    as Hzero by done.
  rewrite Hzero in H. apply H; [by apply Forall_nil_2| |lia].
  eapply Forall_impl; [exact Hreqs|]. simpl. intros r [? ?]. lia.
Qed.

Lemma at_most_ten_before_first_reset_witness :
  admitted_between 0 3599000 "client"
    (replicate 12 (mkRequest 3599000 "client"))
    (snd (serve empty (replicate 12 (mkRequest 3599000 "client")))) ≤ 10.
Proof.
  apply (at_most_ten_before_first_reset
           (replicate 12 (mkRequest 3599000 "client")) "client" 0 3599000).
  - vm_compute. reflexivity.
  - simpl. repeat (apply Forall_cons; split; [simpl; lia|]). apply Forall_nil_2.
Defined.

End RateLimitBounds.

(** ** [AdaptiveRateLimiter.checkAndUpdateLimit] *)
Section AdaptiveLimits.
Import AdaptiveRateLimiter.

Lemma window_of_bounds now w :
  (0 < w)%Z → (window_of now w ≤ now < window_of now w + w)%Z.
Proof.
  intros Hw. unfold window_of.
  pose proof (Z.mul_div_le now w Hw).
  pose proof (Z.mul_succ_div_gt now w Hw). lia.
Qed.

(** A call changes the entry of its own key only. *)
Lemma checkAndUpdateLimit_other_key defaults now agent op limits key :
  agent +:+ ":" +:+ op ≠ key →
  snd (checkAndUpdateLimit defaults now agent op limits) !! key = limits !! key.
Proof.
  intros Hne. unfold checkAndUpdateLimit. cbv zeta.
  repeat case_bool_decide; simpl; by rewrite ?lookup_insert_ne.
Qed.

Lemma adaptive_serve_cons defaults limits r rest :
  serve defaults limits (r :: rest)
  = (fst (serve defaults
            (snd (checkAndUpdateLimit defaults (at_ms r) (agentId r)
                    (operation r) limits)) rest),
     fst (checkAndUpdateLimit defaults (at_ms r) (agentId r) (operation r) limits)
     :: snd (serve defaults
               (snd (checkAndUpdateLimit defaults (at_ms r) (agentId r)
                       (operation r) limits)) rest)).
Proof. reflexivity. Qed.

Lemma allowed_for_cons key r result reqs results :
  allowed_for key (r :: reqs) (result :: results)
  = (if decide (allowed result = true ∧ key_of r = key) then 1 else 0)
    + allowed_for key reqs results.
Proof.
  unfold allowed_for. simpl. rewrite filter_cons. simpl.
  destruct (decide _); reflexivity.
Qed.

(** What a call for [key] in the window starting at [start] does to
    the allowance of the key. *)
Lemma checkAndUpdateLimit_same_key defaults now agent op limits w most :
  (0 < w)%Z →
  (∀ limit, limits !! (agent +:+ ":" +:+ op) = Some limit →
            windowMs limit = w ∧ maxRequests limit = most
            ∧ (0 ≤ count limit)%Z) →
  windowMs (defaults op) = w ∧ maxRequests (defaults op) = most
  ∧ (0 ≤ count (defaults op))%Z →
  let key := agent +:+ ":" +:+ op in
  let start := window_of now w in
  let step := checkAndUpdateLimit defaults now agent op limits in
  (∀ limit, snd step !! key = Some limit →
            windowMs limit = w ∧ maxRequests limit = most
            ∧ (0 ≤ count limit)%Z)
  ∧ (if allowed (fst step)
     then (0 < allowance start most key limits)%Z
          ∧ (allowance start most key (snd step)
             ≤ allowance start most key limits - 1)%Z
     else (allowance start most key (snd step)
           ≤ allowance start most key limits)%Z).
Proof.
  intros Hw Hstored (Hdw & Hdm & Hdc) key start step.
  subst step. unfold checkAndUpdateLimit. cbv zeta. fold key.
  destruct (limits !! key) as [limit|] eqn:Hlook; simpl default.
  - destruct (Hstored limit Hlook) as (Hlw & Hlm & Hlc).
    rewrite (bool_decide_eq_true_2 (is_Some (Some limit))) by (by eexists).
    rewrite Hlw. fold start.
    repeat case_bool_decide; simpl;
      (split;
       [ intros l; rewrite lookup_insert_eq; intros [= <-]; simpl; lia
       | unfold allowance; rewrite lookup_insert_eq, Hlook; simpl;
         repeat case_bool_decide; simpl in *; lia ]).
  - rewrite (bool_decide_eq_false_2 (is_Some None)) by (intros [? ?]; done).
    rewrite Hdw. fold start.
    repeat case_bool_decide; simpl;
      (split;
       [ intros l; rewrite ?lookup_insert_eq, ?Hlook; intros [= <-]; simpl; lia
       | unfold allowance; rewrite ?lookup_insert_eq, ?Hlook; simpl;
         repeat case_bool_decide; simpl in *; lia ]).
Qed.

Lemma allowance_at_most start most key limits :
  (∀ limit, limits !! key = Some limit → (0 ≤ count limit)%Z) →
  (allowance start most key limits ≤ most)%Z.
Proof.
  intros Hcount. unfold allowance.
  destruct (limits !! key) as [limit|]; [|lia].
  specialize (Hcount limit eq_refl). case_bool_decide; lia.
Qed.

Lemma allowed_within_allowance defaults w most key start reqs : ∀ limits,
  (0 < w)%Z →
  configured defaults w most key limits reqs →
  Forall (λ r, key_of r = key → window_of (at_ms r) w = start) reqs →
  (Z.of_nat (allowed_for key reqs (snd (serve defaults limits reqs)))
   ≤ Z.max 0 (allowance start most key limits))%Z.
Proof.
  induction reqs as [|r rest IH]; intros limits Hw [Hstored Hdefaults] Hwindow.
  { unfold allowed_for. simpl. lia. }
  apply Forall_cons in Hdefaults as [Hdefault Hdefaults].
  apply Forall_cons in Hwindow as [Hstart Hwindow].
  rewrite adaptive_serve_cons. simpl snd. rewrite allowed_for_cons.
  destruct (decide (key_of r = key)) as [Hkey|Hother].
  - specialize (Hstart Hkey). specialize (Hdefault Hkey).
    unfold key_of in Hkey. subst key.
    pose proof (checkAndUpdateLimit_same_key defaults (at_ms r) (agentId r)
                  (operation r) limits w most Hw Hstored Hdefault) as Hstep.
    cbv zeta in Hstep. rewrite Hstart in Hstep.
    destruct Hstep as [Hstored' Hallow].
    specialize (IH _ Hw (conj Hstored' Hdefaults) Hwindow).
    destruct (allowed (fst (checkAndUpdateLimit _ _ _ _ _))).
    + rewrite decide_True by done. lia.
    + rewrite decide_False by (intros [? _]; done). lia.
  - rewrite decide_False by (intros [_ ?]; done).
    pose proof (checkAndUpdateLimit_other_key defaults (at_ms r) (agentId r)
                  (operation r) limits key Hother) as Hsame.
    assert (Hconf : configured defaults w most key
                      (snd (checkAndUpdateLimit defaults (at_ms r) (agentId r)
                              (operation r) limits)) rest).
    { split; [|done]. intros limit. rewrite Hsame. apply Hstored. }
    specialize (IH _ Hw Hconf Hwindow).
    unfold allowance in *. rewrite Hsame in IH. simpl. exact IH.
Qed.

(** X10.  The adaptive limiter keeps its promise on a key that is
    configured with one limit: when the window length [w] is positive
    and every limit the key is counted on (the one the map holds for it
    at the start, if any, and the default of each request of the key)
    has window length [w], allows [most] requests and has a count that
    is not negative, then of the requests counted under the key that
    fall into one window at most [most] are allowed (none when [most] is
    not positive), whatever requests for other keys come in between. *)
Theorem at_most_max_requests_per_window
    (getDefaultLimit : string → RateLimit) (limits : gmap string RateLimit)
    (reqs : list Request) (key : string) (w most start : Z) :
  (0 < w)%Z →
  configured getDefaultLimit w most key limits reqs →
  Forall (λ r, key_of r = key → window_of (at_ms r) w = start) reqs →
  (Z.of_nat (allowed_for key reqs (snd (serve getDefaultLimit limits reqs)))
   ≤ Z.max 0 most)%Z.
Proof.
  intros Hw Hconf Hwindow.
  pose proof (allowed_within_allowance getDefaultLimit w most key start reqs
                limits Hw Hconf Hwindow) as Hbound.
  pose proof (allowance_at_most start most key limits) as Hmost.
  destruct Hconf as [Hstored _].
  assert (allowance start most key limits ≤ most)%Z.
  { apply Hmost. intros limit Hl. by destruct (Hstored limit Hl) as (_ & _ & ?). }
  lia.
Qed.

Lemma at_most_max_requests_per_window_witness :
  (Z.of_nat (allowed_for "agent_1:payment" Examples.five_calls
               (snd (serve Examples.three_per_minute ∅ Examples.five_calls)))
   ≤ Z.max 0 3)%Z.
Proof.
  apply (at_most_max_requests_per_window Examples.three_per_minute ∅
           Examples.five_calls "agent_1:payment" 60000 3 120000).
  - lia.
  - split; [intros limit; by rewrite lookup_empty|].
    unfold Examples.five_calls.
    repeat (apply Forall_cons; split; [intros _; vm_compute; by repeat split|]).
    apply Forall_nil_2.
  - unfold Examples.five_calls.
    repeat (apply Forall_cons; split; [intros _; vm_compute; reflexivity|]).
    apply Forall_nil_2.
Defined.

(** X11.  What the limiter reports.  For a limit with a positive window
    length and a count that is not negative, [resetTime] is the end of
    the window the request falls in (after [now], at most one window
    length away); an allowed request reports between 0 and
    [maxRequests - 1] remaining requests and a refused one reports 0;
    and the first request of a new window is allowed with
    [maxRequests - 1] remaining whenever [maxRequests] is positive. *)
Theorem limiter_reports_the_window
    (getDefaultLimit : string → RateLimit) (now : Z) (agent op : string)
    (limits : gmap string RateLimit) :
  let limit := default (getDefaultLimit op) (limits !! (agent +:+ ":" +:+ op)) in
  let result := fst (checkAndUpdateLimit getDefaultLimit now agent op limits) in
  (0 < windowMs limit)%Z →
  (0 ≤ count limit)%Z →
  (now < resetTime result ≤ now + windowMs limit)%Z
  ∧ (allowed result = true →
     (0 ≤ remainingRequests result < maxRequests limit)%Z)
  ∧ (allowed result = false → remainingRequests result = 0%Z)
  ∧ (windowStart limit ≠ window_of now (windowMs limit) →
     (0 < maxRequests limit)%Z →
     allowed result = true
     ∧ remainingRequests result = (maxRequests limit - 1)%Z).
Proof.
  intros limit result Hw Hcount. subst result.
  pose proof (window_of_bounds now (windowMs limit) Hw) as Hbounds.
  unfold checkAndUpdateLimit. cbv zeta. fold limit.
  repeat case_bool_decide; simpl in *; repeat split; intros; try done; lia.
Qed.

Lemma limiter_reports_the_window_witness :
  let result := fst (checkAndUpdateLimit Examples.three_per_minute 125000
                       "agent_1" "payment" ∅) in
  (125000 < resetTime result ≤ 125000 + 60000)%Z.
Proof.
  destruct (limiter_reports_the_window Examples.three_per_minute 125000
              "agent_1" "payment" ∅) as [H _].
  - vm_compute. reflexivity.
  - vm_compute. discriminate.
  - exact H.
Defined.

End AdaptiveLimits.

(** ** [SecureAgentWallet.executeTransaction] *)
Section SecureWallet.
Import SecureAgentWallet.

Local Abbreviation readN := AgentWallet.readN.

(** What the reset of the modifier leaves and changes. *)
Lemma reset_if_new_day_spec st sender timestamp :
  let st1 := reset_if_new_day st sender timestamp in
  dailyLimits st1 = dailyLimits st
  ∧ (∀ k, k ≠ sender → dailySpent st1 !! k = dailySpent st !! k)
  ∧ (if (readN (lastResetTime st) (day_of timestamp) =? 0)%N
     then readN (dailySpent st1) sender = 0%N
          ∧ readN (lastResetTime st1) (day_of timestamp) = timestamp
     else st1 = st).
Proof.
  unfold reset_if_new_day.
  destruct (readN (lastResetTime st) (day_of timestamp) =? 0)%N; simpl.
  - repeat split; try done.
    + intros k Hk. by rewrite lookup_insert_ne.
    + unfold readN. by rewrite lookup_insert_eq.
    + unfold readN. by rewrite lookup_insert_eq.
  - done.
Qed.

(** What a transaction that goes through has established and changed. *)
Lemma executeTransaction_ok st sender to value sigs call_ok timestamp st' :
  executeTransaction st sender to value sigs call_ok timestamp = inr st' →
  let st1 := reset_if_new_day st sender timestamp in
  AgentWallet.readB (signers st) sender = true
  ∧ emergencyStop st = false
  ∧ (readN (dailySpent st1) sender + value ≤ readN (dailyLimits st) sender)%N
  ∧ dailyLimits st' = dailyLimits st
  ∧ readN (dailySpent st') sender = (readN (dailySpent st1) sender + value)%N
  ∧ (∀ k, k ≠ sender → dailySpent st' !! k = dailySpent st !! k)
  ∧ lastResetTime st' = lastResetTime st1.
Proof.
  unfold executeTransaction.
  destruct (AgentWallet.readB (signers st) sender); simpl; [|discriminate].
  destruct (emergencyStop st); [discriminate|].
  pose proof (reset_if_new_day_spec st sender timestamp) as Hreset.
  cbv zeta in Hreset. destruct Hreset as (Hlim & Hframe & _).
  destruct (AgentWallet.checked_add _ value) as [total|] eqn:Hadd; [|discriminate].
  apply checked_add_Some in Hadd. subst total.
  destruct (_ <=? _)%N eqn:Hle; simpl; [|discriminate].
  apply N.leb_le in Hle. rewrite Hlim in Hle.
  destruct sigs; simpl; [|discriminate].
  destruct call_ok; simpl; [|discriminate].
  intros [= <-]. simpl. repeat split; try done.
  - unfold readN at 1. by rewrite lookup_insert_eq.
  - intros k Hk. rewrite lookup_insert_ne by done. by apply Hframe.
Qed.

Lemma spent_on_cons x log sender day :
  spent_on (x :: log) sender day
  = ((if decide (t_sender (x_tx x) = sender
                 ∧ day_of (t_timestamp (x_tx x)) = day)
      then t_value (x_tx x) else 0) + spent_on log sender day)%N.
Proof.
  unfold spent_on. rewrite filter_cons.
  destruct (decide _); simpl; lia.
Qed.

Lemma spent_by_cons x log sender :
  spent_by (x :: log) sender
  = ((if decide (t_sender (x_tx x) = sender) then t_value (x_tx x) else 0)
     + spent_by log sender)%N.
Proof.
  unfold spent_by. rewrite filter_cons.
  destruct (decide _); simpl; lia.
Qed.

Lemma execute_cons st tx rest :
  execute st (tx :: rest)
  = match executeTransaction st (t_sender tx) (t_to tx) (t_value tx)
            (t_signatures_ok tx) (t_call_ok tx) (t_timestamp tx) with
    | inl _ => execute st rest
    | inr st' =>
      (fst (execute st' rest),
       {| x_tx := tx;
          x_opened_day := (readN (lastResetTime st)
                             (day_of (t_timestamp tx)) =? 0)%N |}
       :: snd (execute st' rest))
    end.
Proof. reflexivity. Qed.

(** Only transactions of the sequence are in the log. *)
Lemma execute_log txs : ∀ st x,
  x ∈ snd (execute st txs) → x_tx x ∈ txs.
Proof.
  induction txs as [|tx rest IH]; intros st x; simpl.
  { intros H. by apply elem_of_nil in H. }
  destruct (executeTransaction _ _ _ _ _ _ _) as [e|st'].
  - intros H. right. by eapply IH.
  - simpl. intros H. apply elem_of_cons in H as [->|H]; [by left|].
    right. by eapply IH.
Qed.

Lemma spent_on_other_days log sender day :
  (∀ x, x ∈ log → day_of (t_timestamp (x_tx x)) ≠ day) →
  spent_on log sender day = 0%N.
Proof.
  induction log as [|x log IH]; intros Hdays; [done|].
  rewrite spent_on_cons, IH.
  - rewrite decide_False; [done|]. intros [_ Hd]. by apply (Hdays x); [left|].
  - intros y Hy. apply Hdays. by right.
Qed.

Lemma day_of_mono a b : (a ≤ b)%N → (day_of a ≤ day_of b)%N.
Proof. intros H. unfold day_of. by apply N.Div0.div_le_mono. Qed.

(** The invariant behind the daily limit.  [base] is what each signer
    already got executed on the current day [today]. *)
Lemma daily_limit_invariant txs : ∀ st (base : N → N) today,
  Forall (λ tx, (0 < t_timestamp tx)%N) txs →
  StronglySorted (λ a b, (t_timestamp a ≤ t_timestamp b)%N) txs →
  Forall (λ tx, (today ≤ day_of (t_timestamp tx))%N) txs →
  (∀ s, (base s ≤ readN (dailySpent st) s)%N) →
  (∀ s, (base s ≤ readN (dailyLimits st) s)%N) →
  (readN (lastResetTime st) today = 0%N → ∀ s, base s = 0%N) →
  (∀ s, (base s + spent_on (snd (execute st txs)) s today
         ≤ readN (dailyLimits st) s)%N)
  ∧ (∀ s day, day ≠ today →
       (spent_on (snd (execute st txs)) s day ≤ readN (dailyLimits st) s)%N).
Proof.
  induction txs as [|tx rest IH];
    intros st base today Hpos Hsorted Hdays Hspent Hlimit Hfresh.
  { simpl. split.
    - intros s. unfold spent_on. simpl. specialize (Hlimit s). lia.
    - intros s day _. unfold spent_on. simpl. lia. }
  apply Forall_cons in Hpos as [Hpos0 Hpos].
  apply StronglySorted_inv in Hsorted as [Hsorted Hlater].
  apply Forall_cons in Hdays as [Hday0 Hdays].
  rewrite execute_cons.
  destruct (executeTransaction _ _ _ _ _ _ _) as [e|st'] eqn:Hexec.
  { by apply IH. }
  simpl snd.
  pose proof (reset_if_new_day_spec st (t_sender tx) (t_timestamp tx)) as Hreset.
  cbv zeta in Hreset. destruct Hreset as (_ & _ & Hreset).
  apply executeTransaction_ok in Hexec
    as (_ & _ & Hle & Hlim' & Hsp' & Hframe & Hlast').
  set (sender := t_sender tx) in *.
  set (value := t_value tx) in *.
  set (day := day_of (t_timestamp tx)) in *.
  assert (Hstamped : readN (lastResetTime st') day ≠ 0%N).
  { rewrite Hlast'.
    destruct (readN (lastResetTime st) day =? 0)%N eqn:Hz.
    - destruct Hreset as [_ ->]. lia.
    - rewrite Hreset. by apply N.eqb_neq. }
  assert (Hothers : ∀ s, s ≠ sender →
            readN (dailySpent st') s = readN (dailySpent st) s).
  { intros s Hs. unfold readN. by rewrite Hframe. }
  assert (Hrest_days : Forall (λ tx', (day ≤ day_of (t_timestamp tx'))%N) rest).
  { eapply Forall_impl; [exact Hlater|]. simpl. intros tx' Hle'.
    by apply day_of_mono. }
  destruct (decide (day = today)) as [Hsame|Hnew].
  - (* the transaction falls on the current day *)
    assert (Hbase : (base sender ≤ readN
                       (dailySpent (reset_if_new_day st sender (t_timestamp tx)))
                       sender)%N).
    { destruct (readN (lastResetTime st) day =? 0)%N eqn:Hz.
      - apply N.eqb_eq in Hz. rewrite Hsame in Hz.
        rewrite (Hfresh Hz sender). lia.
      - rewrite Hreset. apply Hspent. }
    destruct (IH st' (λ s, if decide (s = sender) then (base s + value)%N
                           else base s) today) as [IH1 IH2]; try done.
    + intros s. destruct (decide (s = sender)) as [->|Hs].
      * rewrite Hsp'. lia.
      * rewrite Hothers by done. apply Hspent.
    + intros s. rewrite Hlim'. destruct (decide (s = sender)) as [->|Hs].
      * lia.
      * apply Hlimit.
    + intros Hz. rewrite <- Hsame in Hz. done.
    + rewrite Hlim' in IH1, IH2. split.
      * intros s. rewrite spent_on_cons. simpl. fold sender day value.
        specialize (IH1 s). destruct (decide (s = sender)) as [->|Hs].
        -- rewrite decide_True by done. lia.
        -- rewrite decide_False by (intros [? _]; done). lia.
      * intros s d Hd. rewrite spent_on_cons. simpl. fold sender day value.
        rewrite decide_False by (intros [_ ?]; congruence).
        specialize (IH2 s d Hd). lia.
  - (* the transaction is the first one seen of a later day *)
    destruct (IH st' (λ s, if decide (s = sender) then value else 0%N) day)
      as [IH1 IH2]; try done.
    + intros s. destruct (decide (s = sender)) as [->|Hs]; [|lia].
      rewrite Hsp'. lia.
    + intros s. rewrite Hlim'. destruct (decide (s = sender)) as [->|Hs]; lia.
    + rewrite Hlim' in IH1, IH2.
      assert (Hpast : ∀ s, spent_on (snd (execute st' rest)) s today = 0%N).
      { intros s. apply spent_on_other_days. intros x Hx.
        apply execute_log in Hx. rewrite Forall_forall in Hrest_days.
        specialize (Hrest_days _ Hx). lia. }
      split.
      * intros s. rewrite spent_on_cons. simpl. fold sender day value.
        rewrite decide_False by (intros [_ ?]; done).
        rewrite Hpast. specialize (Hlimit s). lia.
      * intros s d Hd. rewrite spent_on_cons. simpl. fold sender day value.
        destruct (decide (d = day)) as [->|Hd'].
        -- specialize (IH1 s). destruct (decide (s = sender)) as [->|Hs].
           ++ rewrite decide_True by done. lia.
           ++ rewrite decide_False by (intros [? _]; done). lia.
        -- rewrite decide_False by (intros [_ ?]; done).
           specialize (IH2 s d Hd'). lia.
Qed.

(** X12.  In blocks with increasing, non-zero timestamps, what a signer
    gets executed within one day never exceeds the signer's daily
    limit, whatever the storage held before and however the
    transactions of the signers interleave. *)
Theorem secure_wallet_daily_limit
    (st : Storage) (txs : list Tx) (signer day : N) :
  Forall (λ tx, (0 < t_timestamp tx)%N) txs →
  StronglySorted (λ a b, (t_timestamp a ≤ t_timestamp b)%N) txs →
  (spent_on (snd (execute st txs)) signer day
   ≤ readN (dailyLimits st) signer)%N.
Proof.
  intros Hpos Hsorted.
  destruct (daily_limit_invariant txs st (λ _, 0%N) 0%N) as [H1 H2]; try done.
  - apply Forall_forall. intros tx _. lia.
  - intros s. lia.
  - intros s. lia.
  - destruct (decide (day = 0%N)) as [->|Hd].
    + specialize (H1 signer). lia.
    + by apply H2.
Qed.

Lemma secure_wallet_daily_limit_witness :
  (spent_on (snd (execute Examples.team_wallet Examples.two_days)) 1 1
   ≤ readN (dailyLimits Examples.team_wallet) 1)%N.
Proof.
  apply (secure_wallet_daily_limit Examples.team_wallet Examples.two_days 1 1).
  - unfold Examples.two_days.
    repeat (apply Forall_cons; split; [simpl; lia|]). apply Forall_nil_2.
  - unfold Examples.two_days.
    repeat (apply SSorted_cons;
            [|repeat (apply Forall_cons; split; [simpl; lia|]);
              apply Forall_nil_2]).
    apply SSorted_nil.
Defined.

Lemma carried_over txs : ∀ st signer,
  (∀ x, x ∈ snd (execute st txs) →
        t_sender (x_tx x) = signer → x_opened_day x = false) →
  dailyLimits (fst (execute st txs)) = dailyLimits st
  ∧ readN (dailySpent (fst (execute st txs))) signer
    = (readN (dailySpent st) signer + spent_by (snd (execute st txs)) signer)%N
  ∧ ((∃ x, x ∈ snd (execute st txs) ∧ t_sender (x_tx x) = signer) →
     (readN (dailySpent (fst (execute st txs))) signer
      ≤ readN (dailyLimits st) signer)%N).
Proof.
  induction txs as [|tx rest IH]; intros st signer Hnever.
  { simpl. unfold spent_by. simpl. repeat split; [lia|].
    intros (x & Hx & _). by apply elem_of_nil in Hx. }
  rewrite execute_cons in *.
  destruct (executeTransaction _ _ _ _ _ _ _) as [e|st'] eqn:Hexec.
  { by apply IH. }
  simpl fst in *. simpl snd in *.
  pose proof (reset_if_new_day_spec st (t_sender tx) (t_timestamp tx)) as Hreset.
  cbv zeta in Hreset. destruct Hreset as (_ & _ & Hreset).
  apply executeTransaction_ok in Hexec
    as (_ & _ & Hle & Hlim' & Hsp' & Hframe & _).
  destruct (IH st' signer) as (IHlim & IHsp & IHle).
  { intros x Hx. apply Hnever. by right. }
  rewrite spent_by_cons. simpl x_tx.
  destruct (decide (t_sender tx = signer)) as [Hs|Hs].
  - assert (Hkept : (readN (lastResetTime st) (day_of (t_timestamp tx)) =? 0)%N
                    = false).
    { apply (Hnever {| x_tx := tx; x_opened_day := _ |}); [by left|done]. }
    rewrite Hkept in Hreset. rewrite Hreset in Hsp', Hle. subst signer.
    split; [congruence|]. split; [rewrite IHsp, Hsp'; lia|].
    intros _. rewrite IHsp, Hsp', <- Hlim'.
    destruct (filter (λ x, t_sender (x_tx x) = t_sender tx)
                     (snd (execute st' rest))) as [|y l] eqn:Hmine.
    + assert (spent_by (snd (execute st' rest)) (t_sender tx) = 0%N) as ->.
      { unfold spent_by. by rewrite Hmine. }
      rewrite Hlim'. lia.
    + assert (y ∈ filter (λ x, t_sender (x_tx x) = t_sender tx)
                         (snd (execute st' rest))) as Hy.
      { rewrite Hmine. by left. }
      apply list_elem_of_filter in Hy as [Hys Hy].
      assert (∃ x, x ∈ snd (execute st' rest)
                   ∧ t_sender (x_tx x) = t_sender tx) as Hmore by eauto.
      specialize (IHle Hmore). rewrite IHsp, Hsp' in IHle. lia.
  - assert (readN (dailySpent st') signer = readN (dailySpent st) signer) as Hsame.
    { unfold readN. rewrite Hframe; [done|congruence]. }
    split; [congruence|]. split; [rewrite IHsp, Hsame; lia|].
    intros (x & Hx & Hxs). rewrite <- Hlim'. apply IHle.
    apply elem_of_cons in Hx as [->|Hx]; [done|]. eauto.
Qed.

(** X13.  Only the first transaction of a day resets a counter, and
    only its sender's.  A signer none of whose transactions opens a day
    is never reset: the signer's [dailySpent] is what it was before plus
    everything the signer got executed since, on whatever days, and
    that whole sum stays within the signer's daily limit. *)
Theorem only_the_first_caller_is_reset
    (st : Storage) (txs : list Tx) (signer : N) :
  (∀ x, x ∈ snd (execute st txs) →
        t_sender (x_tx x) = signer → x_opened_day x = false) →
  readN (dailySpent (fst (execute st txs))) signer
  = (readN (dailySpent st) signer + spent_by (snd (execute st txs)) signer)%N
  ∧ ((∃ x, x ∈ snd (execute st txs) ∧ t_sender (x_tx x) = signer) →
     (readN (dailySpent st) signer + spent_by (snd (execute st txs)) signer
      ≤ readN (dailyLimits st) signer)%N).
Proof.
  intros Hnever.
  destruct (carried_over txs st signer Hnever) as (_ & Hsp & Hle).
  split; [done|]. intros Hsome. rewrite <- Hsp. by apply Hle.
Qed.

Lemma only_the_first_caller_is_reset_witness :
  readN (dailySpent (fst (execute Examples.after_day_one Examples.later_days))) 2
  = (500 + 300)%N
  ∧ spent_by (snd (execute Examples.after_day_one Examples.later_days)) 2
    = 300%N.
Proof.
  destruct (only_the_first_caller_is_reset Examples.after_day_one
              Examples.later_days 2) as [H _].
  - intros x Hx. vm_compute in Hx.
    repeat (apply elem_of_cons in Hx as [->|Hx]; [vm_compute; congruence|]).
    by apply elem_of_nil in Hx.
  - split; [|vm_compute; reflexivity].
    rewrite H. vm_compute. reflexivity.
Defined.

End SecureWallet.

(** ** The retry workflow as a whole *)
Section WholeWorkflow.
Import PaymentRetryWorkflow AdvancedRetryStrategies.

Lemma run_as_shown_finished world fuel node state :
  finished node = true → run_as_shown world fuel node state = (node, state).
Proof. intros Hfin. destruct fuel; simpl; [done|]. by rewrite Hfin. Qed.

(** X14.  Where the name [datetime] is bound, a run on a state that
    carries a task ends within 75 nodes with a completion summary,
    whatever the paid services answer: an exception, a result without
    its data or without its receipt.  No node or router raises on the
    way: the log is not empty when its last entry is read, the current
    service is in the hierarchy when it is looked up, the strategy is
    set when it is read.  The run keeps the built-in hierarchy and five
    retries, switches service at most three times and makes at most 25
    attempts.  A state without a task makes [validate_request] raise;
    and run as it is printed, without [datetime], the example raises at
    the first attempt of every run. *)
Theorem workflow_always_completes (world : World) (state : WorkflowState) :
  (is_Some (task state) →
   (∃ final,
      run world 75 N_validate_request state = (N_END, final)
      ∧ is_Some (completion_summary final)
      ∧ fallback_services final = default_fallback_services
      ∧ max_retries final = 5
      ∧ length (switch_entries (payment_attempts final)) ≤ 3
      ∧ length (attempt_entries (payment_attempts final)) ≤ 25)
   ∧ ∀ fuel, fst (run world fuel N_validate_request state) ≠ N_RAISED)
  ∧ (task state = None →
     ∀ fuel, fst (run world (S fuel) N_validate_request state) = N_RAISED)
  ∧ (∀ fuel,
       fst (run_as_shown world (S (S fuel)) N_validate_request state) = N_RAISED).
Proof.
  split; [|split].
  - intros Htask.
    destruct (attempt_loop_terminates world 24 (validate_request state))
      as (final & Hrun & Hfs & Hmr & Hsum & Hat & i & i' & Hi & Hi' & Hle & Hsw).
    { by apply validate_request_well_configured. }
    { apply validate_request_variant. }
    assert (Hend : run world 75 N_validate_request state = (N_END, final)).
    { change 75 with (S 74). rewrite run_step by done.
      rewrite step_validate_request by done. exact Hrun. }
    split.
    + exists final. repeat split; try done.
      apply position_bound in Hi'. rewrite Hfs in Hi'. simpl in Hi', Hsw. lia.
    + intros fuel Hraised.
      destruct (decide (fuel ≤ 75)) as [Hle'|Hgt].
      * replace 75 with (fuel + (75 - fuel)) in Hend by lia.
        rewrite run_compose in Hend.
        rewrite run_finished in Hend by (by rewrite Hraised).
        rewrite Hraised in Hend. discriminate.
      * rewrite (run_enough world 75 fuel _ _ final Hend) in Hraised by lia.
        discriminate.
  - intros Hnone fuel. rewrite run_step by done. simpl.
    unfold validate_request_raises. rewrite Hnone. simpl.
    by rewrite run_finished.
  - intros fuel. simpl.
    destruct (validate_request_raises state); simpl; [done|].
    by rewrite run_as_shown_finished.
Qed.

Lemma workflow_always_completes_witness :
  ∃ final,
    run Scenarios.no_funds 75 N_validate_request Scenarios.fresh = (N_END, final)
    ∧ is_Some (completion_summary final).
Proof.
  destruct (workflow_always_completes Scenarios.no_funds Scenarios.fresh)
    as (Hcompletes & _).
  destruct Hcompletes as ((final & Hrun & Hsum & _) & _); [by eexists|].
  exists final. split; [exact Hrun | exact Hsum].
Defined.

(** X15.  [validate_request] overwrites what the caller configured: two
    initial states that agree on the task, the result, the error, the
    retry strategy, the summary, the clock and the recorded delays give
    the same run, whatever retry limit, hierarchy, current service,
    retry count, log and cost they carry. *)
Theorem caller_configuration_is_ignored
    (world : World) (fuel : nat) (state state' : WorkflowState) :
  task state = task state' →
  result state = result state' →
  error state = error state' →
  retry_strategy state = retry_strategy state' →
  completion_summary state = completion_summary state' →
  clock state = clock state' →
  sleeps state = sleeps state' →
  run world (S fuel) N_validate_request state
  = run world (S fuel) N_validate_request state'.
Proof.
  intros Ht Hr He Hs Hc Hk Hsl.
  rewrite !run_step by done.
  assert (step world N_validate_request state
          = step world N_validate_request state') as ->; [|done].
  simpl. unfold validate_request_raises, validate_request.
  destruct state, state'. simpl in *. by subst.
Qed.

Lemma caller_configuration_is_ignored_witness :
  run Scenarios.network_down 18 N_validate_request Examples.configured_by_caller
  = run Scenarios.network_down 18 N_validate_request Scenarios.fresh
  ∧ length (attempt_entries (payment_attempts
      (snd (run Scenarios.network_down 18 N_validate_request
                Examples.configured_by_caller)))) = 6.
Proof.
  split.
  - apply (caller_configuration_is_ignored Scenarios.network_down 17
             Examples.configured_by_caller Scenarios.fresh); reflexivity.
  - vm_compute. reflexivity.
Defined.

(** *** Rate-limit errors: retries with linear backoff *)

(** The attempt, the failure analysis and the backoff node. *)
Ltac retried Hattempt Hhandle :=
  rewrite run_step by done; rewrite Hattempt; simpl fst; simpl snd;
  rewrite run_step by done; rewrite Hhandle; simpl fst; simpl snd;
  rewrite run_step by done.

Lemma rate_limited_retries world k : ∀ state,
  (∀ s, ∃ msg, world s = Raised msg (Some "RATE_LIMITED")) →
  is_Some (task state) →
  is_free (current_service state) = false →
  retry_count state + k = max_retries state →
  ∃ state',
    run world (3 * k + 2) N_attempt_payment state = (N_END, state')
    ∧ current_service state' = current_service state
    ∧ clock state'
      = (clock state + foldr Z.add 0 (linear_delay <$> seq (retry_count state + 1) k))%Z
    ∧ sleeps state'
      = sleeps state ++ (linear_delay <$> seq (retry_count state + 1) k)
    ∧ (∃ new,
         payment_attempts state' = payment_attempts state ++ (AttemptEntry <$> new)
         ∧ length new = k + 1
         ∧ Forall (λ a, service a = current_service state
                        ∧ status a = "failed"
                        ∧ error_code a = Some "RATE_LIMITED") new)
    ∧ ∃ err, completion_summary state'
             = Some {| success := false; final_error := err;
                       attempts := length (payment_attempts state') |}.
Proof.
  induction k as [|k IH]; intros state Hworld Htask Hpaid Hleft.
  - pose proof (step_attempt_payment world state Htask) as Hstep. cbv zeta in Hstep.
    pose proof (step_keeps_task world N_attempt_payment state) as Htk.
    destruct (step world N_attempt_payment state) as [node1 st1] eqn:Hs1.
    simpl in Hstep, Htk.
    destruct Hstep as (Hfs & Hcs & Hrc & Hmr & Hsl & a & Hlog & Hsvc & _ & _ & Hcase).
    destruct (Hworld state) as [msg0 Hmsg0].
    destruct Hcase as [(_ & _ & [Hfree|(d & t & Hp)])
                      |(Hst & _ & Hck & (msg & code & Hw & _ & Hcode) & ->)];
      [congruence|unfold Paid in Hp; congruence|].
    destruct Hw as [Hw|(_ & r & Hw)]; [|congruence].
    rewrite Hw in Hmsg0. injection Hmsg0 as -> ->.
    rewrite bool_decide_eq_false_2 in Hs1 by lia.
    exists (handle_final_failure st1). split.
    { change (3 * 0 + 2) with 2.
      rewrite run_step by done. rewrite Hs1. reflexivity. }
    simpl. rewrite Hsl, app_nil_r, Hck. repeat split; try done; [lia| |eauto].
    exists [a]. rewrite Hlog. repeat split; try done.
    by apply Forall_singleton.
  - pose proof (step_attempt_payment world state Htask) as Hstep. cbv zeta in Hstep.
    pose proof (step_keeps_task world N_attempt_payment state) as Htk.
    destruct (step world N_attempt_payment state) as [node1 st1] eqn:Hs1.
    simpl in Hstep, Htk.
    destruct Hstep as (Hfs & Hcs & Hrc & Hmr & Hsl & a & Hlog & Hsvc & _ & _ & Hcase).
    destruct (Hworld state) as [msg0 Hmsg0].
    destruct Hcase as [(_ & _ & [Hfree|(d & t & Hp)])
                      |(Hst & _ & Hck & (msg & code & Hw & _ & Hcode) & ->)];
      [congruence|unfold Paid in Hp; congruence|].
    destruct Hw as [Hw|(_ & r & Hw)]; [|congruence].
    rewrite Hw in Hmsg0. injection Hmsg0 as -> ->.
    rewrite bool_decide_eq_true_2 in Hs1 by lia.
    assert (Hlast1 : last (payment_attempts st1) = Some (AttemptEntry a)).
    { rewrite Hlog. apply last_snoc. }
    pose proof (step_handle_failure world st1 a Hlast1) as Hs2.
    rewrite Hcode in Hs2.
    change (strategy_for (default "UNKNOWN" (Some "RATE_LIMITED")))
      with LINEAR_BACKOFF in Hs2.
    cbv beta iota in Hs2.
    set (st3 := backoff_sleep
                  (Z.min (Z.of_nat (retry_count st1 + 1) * 5) 60)
                  (set_retry_count (retry_count st1 + 1)
                     (set_retry_strategy (Some LINEAR_BACKOFF) st1))).
    destruct (IH st3)
      as (state' & Hrun & Hcs' & Hck' & Hsl' & (new & Hlog' & Hlen & Hall) & Hsum).
    { done. }
    { simpl. by rewrite Htk. }
    { simpl. by rewrite Hcs. }
    { simpl. rewrite Hrc, Hmr. lia. }
    exists state'. split.
    { replace (3 * S k + 2) with (3 + (3 * k + 2)) by lia.
      rewrite run_compose.
      replace (run world 3 N_attempt_payment state) with (N_attempt_payment, st3).
      - exact Hrun.
      - retried Hs1 Hs2. reflexivity. }
    simpl in Hcs', Hsl', Hlog', Hall, Hck'.
    rewrite Hcs in Hcs', Hall. rewrite Hrc, Hsl in Hsl'. rewrite Hlog in Hlog'.
    rewrite Hrc, Hck in Hck'.
    replace (retry_count state + 1 + 1) with (S (retry_count state + 1)) in * by lia.
    repeat split; try done.
    + rewrite Hck'.
      change (seq (retry_count state + 1) (S k))
        with ((retry_count state + 1) :: seq (S (retry_count state + 1)) k).
      rewrite fmap_cons. cbn [foldr]. unfold linear_delay at 2. lia.
    + rewrite Hsl'. rewrite <- app_assoc. f_equal.
    + exists (a :: new). rewrite Hlog', <- app_assoc. simpl.
      repeat split; try done; [lia|].
      apply Forall_cons. done.
Qed.

Lemma switch_entries_attempts log new :
  switch_entries (log ++ (AttemptEntry <$> new)) = switch_entries log.
Proof.
  unfold switch_entries. rewrite omap_app.
  replace (omap _ (AttemptEntry <$> new)) with (@nil SwitchInfo).
  - apply app_nil_r.
  - induction new as [|a new IH]; simpl; done.
Qed.

Lemma attempt_entries_attempts log new :
  attempt_entries (log ++ (AttemptEntry <$> new)) = attempt_entries log ++ new.
Proof.
  unfold attempt_entries. rewrite omap_app. f_equal.
  induction new as [|a new IH]; simpl; [done|]. by f_equal.
Qed.

(** X16.  While a paid service answers RATE_LIMITED the workflow, on a
    state that carries a task, retries the same service with linear
    backoff: retry number k is preceded by a delay of min(5·k, 60)
    seconds, there are [max_retries] retries, [max_retries + 1] attempts
    are logged and the run ends in failure on the same service, without
    a switch to a cheaper one.  Through [validate_request] the delays
    are 5, 10, 15, 20 and 25 s, so the run gives up 75 s after its first
    attempt; the cap of 60 s would first apply to a twelfth retry. *)
Theorem rate_limits_retried_with_linear_backoff (world : World) :
  (∀ s, ∃ msg, world s = Raised msg (Some "RATE_LIMITED")) →
  (∀ state,
     is_Some (task state) →
     is_free (current_service state) = false →
     retry_count state = 0 →
     ∃ state',
       run world (3 * max_retries state + 2) N_attempt_payment state
       = (N_END, state')
       ∧ current_service state' = current_service state
       ∧ sleeps state'
         = sleeps state ++ (linear_delay <$> seq 1 (max_retries state))
       ∧ switch_entries (payment_attempts state')
         = switch_entries (payment_attempts state)
       ∧ length (attempt_entries (payment_attempts state'))
         = length (attempt_entries (payment_attempts state))
           + max_retries state + 1
       ∧ ∃ err, completion_summary state'
                = Some {| success := false; final_error := err;
                          attempts := length (payment_attempts state') |})
  ∧ (∀ state,
       is_Some (task state) →
       ∃ final,
       run world 18 N_validate_request state = (N_END, final)
       ∧ current_service final = "premium_ai_service"
       ∧ sleeps final = sleeps state ++ [5; 10; 15; 20; 25]%Z
       ∧ clock final = (clock state + 75)%Z)
  ∧ (∀ k, linear_delay k = 60%Z ↔ 12 ≤ k).
Proof.
  intros Hworld. split; [|split].
  - intros state Htask Hpaid Hzero.
    destruct (rate_limited_retries world (max_retries state) state Hworld Htask Hpaid)
      as (state' & Hrun & Hcs & _ & Hsl & (new & Hlog & Hlen & Hall) & Hsum); [lia|].
    rewrite Hzero in Hsl. simpl in Hsl.
    exists state'. repeat split; try done.
    + by rewrite Hlog, switch_entries_attempts.
    + rewrite Hlog, attempt_entries_attempts, length_app. lia.
  - intros state Htask.
    destruct (rate_limited_retries world 5 (validate_request state) Hworld)
      as (final & Hrun & Hcs & Hck & Hsl & _); [done|done|done|].
    exists final. split.
    { change 18 with (S 17). rewrite run_step by done.
      rewrite step_validate_request by done. exact Hrun. }
    repeat split; try done.
  - intros k. unfold linear_delay. lia.
Qed.

Lemma rate_limits_retried_with_linear_backoff_witness :
  ∃ final,
    run Examples.throttled 18 N_validate_request Scenarios.fresh = (N_END, final)
    ∧ sleeps final = [5; 10; 15; 20; 25]%Z.
Proof.
  destruct (rate_limits_retried_with_linear_backoff Examples.throttled)
    as (_ & Hrun & _).
  - intros s. exists "Too many requests". reflexivity.
  - destruct (Hrun Scenarios.fresh) as (final & Hend & _ & Hsl & _); [by eexists|].
    exists final. split; [exact Hend | exact Hsl].
Defined.

(** *** What a run costs *)

Lemma charged_once_start world state :
  charged_once (fst (step world N_validate_request state))
               (snd (step world N_validate_request state)).
Proof. left. simpl. by destruct (validate_request_raises state). Qed.

Lemma charged_once_step world node state :
  (∀ s, well_formed (world s)) →
  charged_once node state →
  charged_once (fst (step world node state)) (snd (step world node state)).
Proof.
  intros Hworld Hinv. destruct node.
  - apply charged_once_start.
  - destruct Hinv as [Hzero|([Hn|[Hn _]] & _)]; [|done|done].
    unfold step, attempt_payment, route_payment_result.
    destruct (task state) as [t|].
    2:{ simpl. rewrite last_snoc. simpl. left.
        by destruct (bool_decide (retry_count state < max_retries state)). }
    destruct (bool_decide (cost _ = "0.00")) eqn:Hfree.
    + simpl. rewrite last_snoc. simpl. by left.
    + pose proof (Hworld state) as Hwf.
      destruct (world state) as [r|msg code].
      * destruct Hwf as (data & tx & ->).
        simpl. rewrite last_snoc. simpl. right. rewrite Hzero.
        repeat split; [by left|]. eexists. simpl. rewrite last_snoc. eauto.
      * simpl. rewrite last_snoc. simpl. left.
        by destruct (bool_decide (retry_count state < max_retries state)).
  - destruct Hinv as [Hzero|([Hn|[Hn _]] & _)]; [|done|done]. left.
    simpl. unfold handle_payment_failure.
    destruct (last (payment_attempts state)); [|done]. simpl.
    by destruct (route_failure_handling _) as [[]|].
  - destruct Hinv as [Hzero|([Hn|[Hn _]] & _)]; [|done|done]. left.
    simpl. unfold retry_with_backoff. by destruct (retry_strategy state).
  - destruct Hinv as [Hzero|([Hn|[Hn _]] & _)]; [|done|done]. left.
    simpl. unfold try_alternative_service.
    destruct (index _ _); [|done]. simpl.
    by destruct (fallback_services state !! _).
  - destruct Hinv as [Hzero|([Hn|[Hn _]] & _)]; [|done|done]. left.
    simpl. unfold use_fallback_service. by destruct (last (fallback_services state)).
  - destruct Hinv as [Hzero|(_ & Hcost & Hlast)]; [by left|]. right.
    simpl. repeat split; eauto.
  - destruct Hinv as [Hzero|([Hn|[Hn _]] & _)]; [|done|done]. by left.
  - exact Hinv.
  - exact Hinv.
Qed.

Lemma charged_once_run world fuel : ∀ node state,
  (∀ s, well_formed (world s)) →
  charged_once node state →
  charged_once (fst (run world fuel node state)) (snd (run world fuel node state)).
Proof.
  induction fuel as [|fuel IH]; intros node state Hworld Hinv; [done|].
  destruct (finished node) eqn:Hfin.
  - by rewrite run_finished.
  - rewrite run_step by done. apply IH; [done|]. by apply charged_once_step.
Qed.

(** An attempt adds nothing to the cost, or the price of the current
    service; in the second case it is logged as a success, or as a
    failure with the code "UNKNOWN". *)
Lemma attempt_payment_charges world state :
  fallback_services (attempt_payment world state) = fallback_services state
  ∧ current_service (attempt_payment world state) = current_service state
  ∧ ∃ a, last (payment_attempts (attempt_payment world state))
         = Some (AttemptEntry a)
    ∧ (total_cost (attempt_payment world state) = total_cost state
       ∨ total_cost (attempt_payment world state)
         = (total_cost state
            + float_cents (cost (get_service_config (current_service state))))%Z
         ∧ (status a = "success" ∨ error_code a = Some "UNKNOWN")).
Proof.
  unfold attempt_payment.
  destruct (task state) as [t|]; simpl;
    [|repeat split; eexists; rewrite last_snoc; eauto].
  destruct (bool_decide (cost _ = "0.00")); simpl;
    [repeat split; eexists; rewrite last_snoc; eauto|].
  destruct (world state) as [[[data|] [[tx|]|]]|msg code]; simpl;
    repeat split; eexists; rewrite last_snoc; (split; [done|]); simpl; eauto.
Qed.

Lemma prices_before_bounds i :
  (0 ≤ prices_before i ≤ prices_before (i + 1))%Z
  ∧ (prices_before (i + 1) ≤ 1700)%Z
  ∧ (3 ≤ i → prices_before i = 1700%Z).
Proof.
  destruct i as [|[|[|[|i]]]].
  - vm_compute. repeat split; done || lia.
  - vm_compute. repeat split; done || lia.
  - vm_compute. repeat split; done || lia.
  - vm_compute. repeat split; done || lia.
  - unfold prices_before. rewrite !take_ge by (simpl; lia).
    change (foldr _ _ _) with 1700%Z. lia.
Qed.

Lemma price_at_position service i :
  index default_fallback_services service = Some i →
  (prices_before i + float_cents (cost (get_service_config service))
   = prices_before (i + 1))%Z.
Proof.
  intros Hi. apply position_in_default_hierarchy in Hi.
  by destruct Hi as [[-> ->]|[[-> ->]|[[-> ->]|[-> ->]]]].
Qed.

Lemma charged_in_order_step world node state :
  charged_in_order node state →
  charged_in_order (fst (step world node state)) (snd (step world node state)).
Proof.
  intros Hinv. destruct node.
  - (* validate_request *)
    simpl. destruct (validate_request_raises state); simpl;
      (split; [lia|]); (split; [done|]); exists 0; (split; [done|]);
      vm_compute; congruence.
  - (* attempt_payment *)
    destruct Hinv as (Hpos & Hfs & i & Hi & Hbound).
    destruct (attempt_payment_charges world state) as (Hfs' & Hcs' & a & Hlast & Hcost).
    assert (position (attempt_payment world state) = Some i) as Hi'.
    { unfold position. by rewrite Hfs', Hcs'. }
    pose proof (prices_before_bounds i) as (Hmono & _ & _).
    assert (Hprice : (prices_before i
                      + float_cents (cost (get_service_config (current_service state)))
                      = prices_before (i + 1))%Z).
    { apply price_at_position. unfold position in Hi. by rewrite Hfs in Hi. }
    unfold step, route_payment_result. rewrite Hlast.
    case_bool_decide as Hok; simpl.
    + split; [destruct Hcost as [->|[-> _]]; lia|].
      split; [congruence|]. exists i. split; [done|].
      destruct Hcost as [->|[-> _]]; lia.
    + assert (entry_error_code (AttemptEntry a) = "UNKNOWN"
              ∨ total_cost (attempt_payment world state) = total_cost state)
        as Hcode.
      { destruct Hcost as [?|[_ [?|Hcode]]]; [by right|done|left].
        simpl. by rewrite Hcode. }
      case_bool_decide; simpl.
      * split; [destruct Hcost as [->|[-> _]]; lia|].
        split; [congruence|]. exists i. split; [done|].
        destruct Hcode as [Hcode| ->]; [right|left; lia].
        split; [destruct Hcost as [->|[-> _]]; lia|]. eauto.
      * split; [destruct Hcost as [->|[-> _]]; lia|].
        split; [congruence|]. exists i. split; [done|].
        destruct Hcost as [->|[-> _]]; lia.
  - (* handle_failure *)
    destruct Hinv as (Hpos & Hfs & i & Hi & Hbound).
    pose proof (prices_before_bounds i) as (Hmono & _ & _).
    simpl. unfold handle_payment_failure.
    destruct (last (payment_attempts state)) as [e|] eqn:Hlast.
    2:{ simpl. repeat split; try done. exists i. split; [done|].
        destruct Hbound as [?|[? (e & ? & _)]]; [lia|done]. }
    simpl. unfold route_failure_handling. simpl.
    destruct Hbound as [Hbound|[Hbound (e' & He' & Hcode)]].
    + destruct (strategy_for (entry_error_code e)); simpl;
        try (repeat split; try done; exists i; split; [done|]; lia).
      fold (position state). rewrite Hi.
      case_bool_decide; simpl;
        repeat split; try done; exists i; (split; [done|]); lia.
    + injection He' as <-. rewrite Hcode.
      change (strategy_for "UNKNOWN") with ALTERNATIVE_SERVICE. simpl.
      fold (position state). rewrite Hi.
      case_bool_decide; simpl;
        repeat split; try done; exists i; (split; [done|]); lia.
  - (* retry_with_backoff *)
    destruct Hinv as (Hpos & Hfs & i & Hi & Hbound).
    pose proof (prices_before_bounds i) as (Hmono & _ & _).
    simpl. unfold retry_with_backoff.
    destruct (retry_strategy state); simpl;
      repeat split; try done; exists i; (split; [done|]); lia.
  - (* try_alternative *)
    destruct Hinv as (Hpos & Hfs & i & Hi & Hbound).
    simpl. unfold try_alternative_service. fold (position state). rewrite Hi.
    destruct (fallback_services state !! (i + 1)) as [next|] eqn:Hnext; simpl.
    + repeat split; try done. exists (i + 1). split; [|done].
      unfold position. simpl. apply index_of_lookup; [|done].
      rewrite Hfs. unfold default_fallback_services. compute_done.
    + repeat split; try done. exists i. split; [done|].
      apply lookup_ge_None in Hnext. rewrite Hfs in Hnext. simpl in Hnext.
      pose proof (prices_before_bounds i) as (_ & Hmax & Hlast).
      rewrite Hlast by lia. lia.
  - (* use_fallback *)
    destruct Hinv as (Hpos & Hfs & i & Hi & Hbound).
    simpl. unfold use_fallback_service. rewrite Hfs. simpl.
    repeat split; try done. exists 3. split.
    + unfold position. simpl. by rewrite Hfs.
    + pose proof (prices_before_bounds i) as (_ & Hmax & _).
      change (prices_before 3) with 1700%Z. lia.
  - (* complete_task *)
    destruct Hinv as (Hpos & Hfs & i & Hi & Hbound). simpl.
    repeat split; try done. by exists i.
  - (* final_failure *)
    destruct Hinv as (Hpos & Hfs & i & Hi & Hbound). simpl.
    repeat split; try done. by exists i.
  - exact Hinv.
  - exact Hinv.
Qed.

Lemma charged_in_order_run world fuel : ∀ node state,
  charged_in_order node state →
  charged_in_order (fst (run world fuel node state))
                   (snd (run world fuel node state)).
Proof.
  induction fuel as [|fuel IH]; intros node state Hinv; [done|].
  destruct (finished node) eqn:Hfin.
  - by rewrite run_finished.
  - rewrite run_step by done. apply IH. by apply charged_in_order_step.
Qed.

(** No step leads back to [validate_request]. *)
Lemma step_leaves_validate_request world node state :
  fst (step world node state) ≠ N_validate_request.
Proof.
  destruct node; simpl; try done.
  - by destruct (validate_request_raises state).
  - by destruct (route_payment_result _) as [[]|].
  - destruct (handle_payment_failure state); [|done].
    by destruct (route_failure_handling _) as [[]|].
  - by destruct (retry_with_backoff state).
  - by destruct (try_alternative_service state).
  - by destruct (use_fallback_service state).
Qed.

Lemma run_leaves_validate_request world fuel : ∀ node state,
  node ≠ N_validate_request →
  fst (run world fuel node state) ≠ N_validate_request.
Proof.
  induction fuel as [|fuel IH]; intros node state Hnode; [done|].
  destruct (finished node) eqn:Hfin.
  - by rewrite run_finished.
  - rewrite run_step by done. apply IH, step_leaves_validate_request.
Qed.

Lemma charged_in_order_bound node state :
  node ≠ N_validate_request → charged_in_order node state →
  (0 ≤ total_cost state ≤ 1700)%Z.
Proof.
  intros Hnode Hinv.
  assert (∃ i, (0 ≤ total_cost state)%Z
               ∧ (total_cost state ≤ prices_before i
                  ∨ total_cost state ≤ prices_before (i + 1))%Z)
    as (i & Hpos & Hbound).
  { destruct node; try done;
      destruct Hinv as (Hpos & _ & i & _ & Hbound); exists i;
      (split; [done|]); try (by left); try (by right).
    destruct Hbound as [?|[? _]]; [by left|by right]. }
  pose proof (prices_before_bounds i) as (Hmono & Hmax & _).
  lia.
Qed.

Lemma funded_later_well_formed s : well_formed (Examples.funded_later s).
Proof.
  unfold Examples.funded_later. case_bool_decide; simpl; eauto.
Qed.

(** X17.  Whatever the paid services return, a run started through
    [validate_request] never charges more than 17.00: the prices of the
    three paid services, each charged at most once before the run leaves
    it.  When every paid call raises or returns a well-formed result
    (data and a receipt with a transaction hash), a run charges at most
    one call: the total cost is zero or, at the end of a run whose last
    attempt was a successful paid call, the price of the service that
    answered, so at most 10.00, and a run that did not end in success
    has cost nothing.  A result with data but without a receipt is
    charged and logged as failed: when every paid service answers so,
    the run charges 10.00, 5.00 and 2.00, logs three failed paid
    attempts and succeeds on the free service. *)
Theorem run_charges_at_most_once
    (world : World) (fuel : nat) (state : WorkflowState) :
  let final := snd (run world (S fuel) N_validate_request state) in
  (0 ≤ total_cost final ≤ 1700)%Z
  ∧ ((∀ s, well_formed (world s)) →
     (total_cost final = 0%Z
      ∨ total_cost final
        = float_cents (cost (get_service_config (current_service final)))
        ∧ ∃ a, last (payment_attempts final) = Some (AttemptEntry a)
               ∧ service a = current_service final
               ∧ status a = "success"
               ∧ method a = Some "paystabl_payment")
     ∧ (total_cost final ≤ 1000)%Z
     ∧ (fst (run world (S fuel) N_validate_request state) = N_END →
        ∀ s, completion_summary final = Some s → success s = false →
             total_cost final = 0%Z))
  ∧ (let charged := snd (run Examples.no_receipts 75 N_validate_request
                             Scenarios.fresh) in
     total_cost charged = 1700%Z
     ∧ status <$> attempt_entries (payment_attempts charged)
       = ["failed"; "failed"; "failed"; "success"]
     ∧ current_service charged = "free_service"
     ∧ ∃ n, completion_summary charged
            = Some {| success := true; final_error := ""; attempts := n |}).
Proof.
  intros final. subst final. split; [|split].
  - apply (charged_in_order_bound
             (fst (run world (S fuel) N_validate_request state))).
    + rewrite run_step by done. apply run_leaves_validate_request.
      apply step_leaves_validate_request.
    + by apply charged_in_order_run.
  - intros Hworld.
    assert (∀ node final,
              charged_once node final →
              (total_cost final = 0%Z
               ∨ total_cost final
                 = float_cents (cost (get_service_config (current_service final)))
                 ∧ ∃ a, last (payment_attempts final) = Some (AttemptEntry a)
                        ∧ service a = current_service final
                        ∧ status a = "success"
                        ∧ method a = Some "paystabl_payment")
              ∧ (total_cost final ≤ 1000)%Z
              ∧ (node = N_END →
                 ∀ s, completion_summary final = Some s → success s = false →
                      total_cost final = 0%Z)) as Hread.
    { intros node final
             [Hzero|(Hnode & Hcost & a & Hlast & Hsvc & Hst & Hm)].
      - rewrite Hzero. repeat split; auto; lia.
      - repeat split.
        + right. eauto 8.
        + rewrite Hcost. unfold float_cents. repeat case_bool_decide; lia.
        + intros -> s Hsum Hfail.
          destruct Hnode as [|[_ [n Hn]]]; [done|].
          rewrite Hn in Hsum. injection Hsum as <-. done. }
    apply Hread. rewrite run_step by done.
    apply charged_once_run; [done|]. apply charged_once_start.
  - vm_compute. repeat split; eauto.
Qed.

Lemma run_charges_at_most_once_witness :
  total_cost (snd (run Examples.funded_later 18 N_validate_request Scenarios.fresh))
  = 1000%Z
  ∧ (total_cost
       (snd (run Examples.funded_later 18 N_validate_request Scenarios.fresh))
     ≤ 1000)%Z.
Proof.
  destruct (run_charges_at_most_once Examples.funded_later 17 Scenarios.fresh)
    as (_ & Hwell & _).
  destruct (Hwell funded_later_well_formed) as (_ & Hbound & _).
  split; [vm_compute; reflexivity | exact Hbound].
Defined.

End WholeWorkflow.

(** ** AdvancedRetryStrategies *)
Section Strategies.
Import PaymentRetryWorkflow AdvancedRetryStrategies.

Lemma count_codes_from failures : ∀ (counts : gmap string nat) code,
  default 0 (foldl (λ error_counts failure,
                      <[entry_error_code failure :=
                          default 0 (error_counts !! entry_error_code failure) + 1]>
                        error_counts) counts failures !! code)
  = default 0 (counts !! code) + occurrences code failures.
Proof.
  induction failures as [|failure failures IH]; intros counts code.
  - unfold occurrences. simpl. lia.
  - simpl. rewrite IH. unfold occurrences. rewrite filter_cons.
    destruct (decide (entry_error_code failure = code)) as [Heq|Hne].
    + rewrite Heq, lookup_insert_eq. simpl. lia.
    + rewrite lookup_insert_ne by done. lia.
Qed.

(** The dictionary built by the loop counts each error code. *)
Lemma count_codes_occurrences failures code :
  default 0 (count_codes failures !! code) = occurrences code failures.
Proof.
  unfold count_codes. rewrite count_codes_from. by rewrite lookup_empty.
Qed.

Lemma adaptive_retry_by_occurrences failure_history :
  adaptive_retry failure_history
  = let recent := last_five failure_history in
    if bool_decide (2 < occurrences "NETWORK_ERROR" recent) then EXPONENTIAL_BACKOFF
    else if bool_decide (1 < occurrences "RATE_LIMITED" recent) then LINEAR_BACKOFF
    else if bool_decide (0 < occurrences "INSUFFICIENT_FUNDS" recent)
         then ALTERNATIVE_SERVICE
    else EXPONENTIAL_BACKOFF.
Proof. unfold adaptive_retry. by rewrite !count_codes_occurrences. Qed.

Lemma last_five_app older recent :
  length recent = 5 → last_five (older ++ recent) = recent.
Proof.
  intros Hlen. unfold last_five. rewrite length_app, Hlen.
  replace (length older + 5 - 5) with (length older + 0) by lia.
  by rewrite drop_app_add.
Qed.

(** X18.  [adaptive_retry] looks at the last five failures only: what
    happened before them does not change its answer. *)
Theorem adaptive_retry_reads_last_five (older recent : list LogEntry) :
  length recent = 5 →
  adaptive_retry (older ++ recent) = adaptive_retry recent.
Proof.
  intros Hlen. unfold adaptive_retry.
  rewrite last_five_app by done.
  pose proof (last_five_app [] recent Hlen) as Hrecent. simpl in Hrecent.
  by rewrite Hrecent.
Qed.

Lemma adaptive_retry_reads_last_five_witness :
  adaptive_retry (Examples.outage ++ Examples.flaky_network)
  = adaptive_retry Examples.flaky_network.
Proof.
  apply (adaptive_retry_reads_last_five Examples.outage Examples.flaky_network).
  reflexivity.
Defined.

(** X19.  [adaptive_retry] never answers IMMEDIATE.  It answers
    ALTERNATIVE_SERVICE only when one of the last five failures was for
    insufficient funds, at most two were network errors and at most one
    a rate limit; three network errors among the last five give
    exponential backoff whatever the others are.  When none of the last
    five failures carries one of these three codes it answers
    EXPONENTIAL_BACKOFF, where [handle_payment_failure] chooses
    ALTERNATIVE_SERVICE for the same code. *)
Theorem adaptive_retry_choices (failure_history : list LogEntry) :
  let recent := last_five failure_history in
  adaptive_retry failure_history ≠ IMMEDIATE
  ∧ (adaptive_retry failure_history = ALTERNATIVE_SERVICE →
     0 < occurrences "INSUFFICIENT_FUNDS" recent
     ∧ occurrences "NETWORK_ERROR" recent ≤ 2
     ∧ occurrences "RATE_LIMITED" recent ≤ 1)
  ∧ (3 ≤ occurrences "NETWORK_ERROR" recent →
     adaptive_retry failure_history = EXPONENTIAL_BACKOFF)
  ∧ (Forall (λ failure, entry_error_code failure ≠ "NETWORK_ERROR"
                        ∧ entry_error_code failure ≠ "RATE_LIMITED"
                        ∧ entry_error_code failure ≠ "INSUFFICIENT_FUNDS")
            recent →
     adaptive_retry failure_history = EXPONENTIAL_BACKOFF
     ∧ ∀ failure, failure ∈ recent →
         strategy_for (entry_error_code failure) = ALTERNATIVE_SERVICE).
Proof.
  intros recent. rewrite adaptive_retry_by_occurrences. cbv zeta. fold recent.
  split; [|split; [|split]].
  - repeat case_bool_decide; done.
  - intros Halt. repeat case_bool_decide; try done. lia.
  - intros Hnet. by rewrite bool_decide_eq_true_2 by lia.
  - intros Hother. rewrite Forall_forall in Hother.
    assert (∀ code, (∀ failure, failure ∈ recent → entry_error_code failure ≠ code) →
                    occurrences code recent = 0) as Hnone.
    { intros code Hcode. unfold occurrences. clear Hother.
      induction recent as [|f l IH]; [done|].
      rewrite filter_cons_False.
      - apply IH. intros g Hg. apply Hcode. by right.
      - apply Hcode. by left. }
    split.
    + rewrite !Hnone; [done|intros f Hf; apply (Hother f Hf)..].
    + intros failure Hin. destruct (Hother failure Hin) as (Hn & Hr & Hi).
      unfold strategy_for. repeat case_bool_decide; done.
Qed.

Lemma adaptive_retry_choices_witness :
  adaptive_retry Examples.outage = EXPONENTIAL_BACKOFF
  ∧ strategy_for (entry_error_code (Examples.failure_with "API_UNAVAILABLE"))
    = ALTERNATIVE_SERVICE.
Proof.
  destruct (adaptive_retry_choices Examples.outage) as (_ & _ & _ & H).
  destruct H as [Hadaptive Hhandler].
  - change (last_five Examples.outage)
      with (replicate 5 (Examples.failure_with "API_UNAVAILABLE")).
    apply Forall_replicate. simpl. repeat split; discriminate.
  - split; [exact Hadaptive|]. apply Hhandler.
    change (last_five Examples.outage)
      with (replicate 5 (Examples.failure_with "API_UNAVAILABLE")).
    simpl. apply elem_of_cons. by left.
Defined.

(** X20.  [quality_threshold_retry] answers "continue" when the current
    service is below the required quality.  Down the built-in hierarchy
    the quality only falls, so once the answer is "continue" it stays so
    on every later service, and on the premium service it is never
    "continue".  A minimum quality outside the four known names raises. *)
Theorem quality_threshold_never_recovers
    (state state' : WorkflowState) (minimum_quality : string) (i j : nat) :
  index default_fallback_services (current_service state) = Some i →
  index default_fallback_services (current_service state') = Some j →
  i ≤ j →
  (quality_threshold_retry state minimum_quality = Some true →
   quality_threshold_retry state' minimum_quality = Some true)
  ∧ (i = 0 → quality_threshold_retry state minimum_quality ≠ Some true)
  ∧ (minimum_quality ∉ quality_hierarchy →
     quality_threshold_retry state minimum_quality = None).
Proof.
  intros Hi Hj Hle. unfold quality_threshold_retry.
  destruct (index quality_hierarchy minimum_quality) as [m|] eqn:Hm.
  - assert (m < 4) as Hbound.
    { apply index_lookup in Hm. by apply lookup_lt_Some in Hm. }
    assert (minimum_quality ∈ quality_hierarchy) as Hin.
    { apply index_lookup in Hm. by eapply list_elem_of_lookup_2. }
    apply position_in_default_hierarchy in Hi, Hj.
    destruct Hi as [[-> ->]|[[-> ->]|[[-> ->]|[-> ->]]]];
      destruct Hj as [[-> ->]|[[-> ->]|[[-> ->]|[-> ->]]]];
      try lia; simpl; (split; [|split; [|done]]); try done;
      repeat case_bool_decide; try done; lia.
  - simpl. split; [done|]. split; done.
Qed.

Lemma quality_threshold_never_recovers_witness :
  quality_threshold_retry
    (set_current_service "free_service" Scenarios.fresh) "excellent"
  = Some true.
Proof.
  destruct (quality_threshold_never_recovers
              (set_current_service "standard_ai_service" Scenarios.fresh)
              (set_current_service "free_service" Scenarios.fresh)
              "excellent" 1 3) as (Hlater & _);
    [reflexivity | reflexivity | lia |].
  apply Hlater. reflexivity.
Defined.

(** X21.  [cost_aware_retry] compares what is left of the budget with
    the price of the next service of the hierarchy (nothing after the
    last one).  On the built-in hierarchy the prices fall, so when it
    allows a retry at one service it allows it at every later one,
    provided no more has been spent; and it raises exactly when the
    current service is not in the hierarchy. *)
Theorem cost_aware_retry_down_the_chain
    (state state' : WorkflowState) (budget_limit : Z) (i j : nat) :
  fallback_services state = default_fallback_services →
  fallback_services state' = default_fallback_services →
  position state = Some i →
  position state' = Some j →
  i ≤ j →
  (total_cost state' ≤ total_cost state)%Z →
  cost_aware_retry state budget_limit
  = Some (bool_decide (match i with 0%nat => 500 | 1%nat => 200 | _ => 0 end
                       ≤ budget_limit - total_cost state)%Z)
  ∧ (cost_aware_retry state budget_limit = Some true →
     cost_aware_retry state' budget_limit = Some true)
  ∧ ∀ other, position other = None ↔ cost_aware_retry other budget_limit = None.
Proof.
  intros Hfs Hfs' Hi Hj Hle Hcost.
  assert (∀ st k, fallback_services st = default_fallback_services →
                  position st = Some k →
                  cost_aware_retry st budget_limit
                  = Some (bool_decide (match k with 0%nat => 500 | 1%nat => 200 | _ => 0 end
                                       ≤ budget_limit - total_cost st)%Z)) as Hat.
  { intros st k Hd Hk. unfold cost_aware_retry. unfold position in Hk.
    rewrite Hk. simpl. rewrite Hd in *.
    apply position_in_default_hierarchy in Hk.
    destruct Hk as [[-> _]|[[-> _]|[[-> _]|[-> _]]]]; reflexivity. }
  split; [by apply Hat|]. split.
  - rewrite (Hat state i), (Hat state' j) by done.
    intros [= Hok]. f_equal. apply bool_decide_eq_true in Hok.
    apply bool_decide_eq_true.
    unfold position in Hi, Hj. rewrite Hfs in Hi. rewrite Hfs' in Hj.
    apply position_in_default_hierarchy in Hi, Hj.
    destruct Hi as [[-> _]|[[-> _]|[[-> _]|[-> _]]]];
      destruct Hj as [[-> _]|[[-> _]|[[-> _]|[-> _]]]]; lia.
  - intros other. unfold cost_aware_retry, position.
    destruct (index _ _); simpl; split; done.
Qed.

Lemma cost_aware_retry_down_the_chain_witness :
  cost_aware_retry (validate_request Scenarios.fresh) 500 = Some true
  ∧ cost_aware_retry
      (set_current_service "basic_ai_service"
         (validate_request Scenarios.fresh)) 500 = Some true.
Proof.
  destruct (cost_aware_retry_down_the_chain
              (validate_request Scenarios.fresh)
              (set_current_service "basic_ai_service"
                 (validate_request Scenarios.fresh)) 500 0 2)
    as (Hat & Hdown & _);
    [reflexivity | reflexivity | reflexivity | reflexivity | lia | simpl; lia |].
  split; [exact Hat | apply Hdown; exact Hat].
Defined.

End Strategies.

(** ** RetryAnalytics *)
Section Analytics.
Import PaymentRetryWorkflow RetryAnalytics.
Import QArith Lqa.
Local Close Scope Q_scope.

(** *** Dictionaries *)

Lemma dict_get_set {V} (d : list (string * V)) key value key' :
  dict_get (dict_set d key value) key'
  = if bool_decide (key = key') then Some value else dict_get d key'.
Proof.
  induction d as [|[k v] d IH]; simpl.
  - done.
  - destruct (decide (k = key)) as [->|Hk].
    + rewrite (bool_decide_eq_true_2 (key = key)) by done. simpl.
      by destruct (bool_decide (key = key')).
    + rewrite (bool_decide_eq_false_2 (k = key)) by done. simpl.
      rewrite IH. repeat case_bool_decide; congruence.
Qed.

Lemma dict_get_None {V} (d : list (string * V)) key :
  dict_get d key = None ↔ key ∉ d.*1.
Proof.
  induction d as [|[k v] d IH]; simpl.
  - split; [intros _; apply not_elem_of_nil|done].
  - rewrite not_elem_of_cons. case_bool_decide as Hk.
    + split; [done|]. intros [Hne _]. by destruct Hne.
    + rewrite IH. split; [intros Hd; split; [congruence|done]|by intros [_ Hd]].
Qed.

Lemma dict_set_keys {V} (d : list (string * V)) key value :
  NoDup d.*1 → NoDup (dict_set d key value).*1.
Proof.
  induction d as [|[k v] d IH]; simpl; intros Hnd.
  - apply NoDup_singleton.
  - apply NoDup_cons in Hnd as [Hk Hnd]. case_bool_decide; simpl.
    + by apply NoDup_cons.
    + apply NoDup_cons. split; [|by apply IH].
      apply dict_get_None. rewrite dict_get_set.
      rewrite bool_decide_eq_false_2 by done. by apply dict_get_None.
Qed.

Lemma dict_get_elem_of {V} (d : list (string * V)) key value :
  NoDup d.*1 → (key, value) ∈ d → dict_get d key = Some value.
Proof.
  induction d as [|[k v] d IH]; simpl; intros Hnd Hin.
  - by apply elem_of_nil in Hin.
  - apply NoDup_cons in Hnd as [Hk Hnd].
    apply elem_of_cons in Hin as [[= -> ->]|Hin].
    + by rewrite bool_decide_eq_true_2.
    + rewrite bool_decide_eq_false_2; [by apply IH|].
      intros ->. apply Hk. apply list_elem_of_fmap. by exists (key, value).
Qed.

Lemma dict_get_fmap {V} (f : V → V) (d : list (string * V)) key :
  dict_get (prod_map id f <$> d) key = f <$> dict_get d key.
Proof.
  induction d as [|[k v] d IH]; simpl; [done|].
  by case_bool_decide.
Qed.

Lemma dict_fmap_keys {V} (f : V → V) (d : list (string * V)) :
  (prod_map id f <$> d).*1 = d.*1.
Proof. induction d as [|[k v] d IH]; simpl; [done|]. by f_equal. Qed.

(** *** The two dictionaries count the log *)

Lemma failures_with_snoc code log e :
  failures_with code (log ++ [e])
  = failures_with code log
    + (if bool_decide (entry_status e = Some "failed" ∧ entry_error_code e = code)
       then 1 else 0).
Proof.
  unfold failures_with. rewrite filter_app, length_app. f_equal.
  rewrite filter_cons. case_bool_decide; by destruct (decide _).
Qed.

Lemma attempts_on_snoc service log e :
  attempts_on service (log ++ [e])
  = attempts_on service log
    + (if bool_decide (entry_service e = Some service) then 1 else 0).
Proof.
  unfold attempts_on. rewrite filter_app, length_app. f_equal.
  rewrite filter_cons. case_bool_decide; by destruct (decide _).
Qed.

Lemma successes_on_snoc service log e :
  successes_on service (log ++ [e])
  = successes_on service log
    + (if bool_decide (entry_service e = Some service
                       ∧ entry_status e = Some "success") then 1 else 0).
Proof.
  unfold successes_on. rewrite filter_app, length_app. f_equal.
  rewrite filter_cons. case_bool_decide; by destruct (decide _).
Qed.

Lemma successes_at_most_attempts service log :
  successes_on service log ≤ attempts_on service log.
Proof.
  induction log as [|e log IH] using rev_ind; [done|].
  rewrite successes_on_snoc, attempts_on_snoc.
  repeat case_bool_decide; try lia. tauto.
Qed.

Lemma count_failure_counts log code :
  dict_get (foldl count_failure [] log) code
  = if bool_decide (failures_with code log = 0) then None
    else Some (failures_with code log).
Proof.
  induction log as [|e log IH] using rev_ind; [done|].
  rewrite foldl_app, failures_with_snoc. simpl.
  unfold count_failure at 1.
  destruct (decide (entry_status e = Some "failed")) as [Hfailed|Hother].
  - rewrite (bool_decide_eq_true_2 (entry_status e = Some "failed")) by done.
    rewrite dict_get_set.
    destruct (decide (entry_error_code e = code)) as [Hcode|Hcode].
    + rewrite (bool_decide_eq_true_2 (entry_error_code e = code)) by done.
      rewrite (bool_decide_eq_true_2 (_ ∧ _)) by done.
      rewrite (bool_decide_eq_false_2 (_ + 1 = 0)) by lia.
      rewrite Hcode, IH. by case_bool_decide as Hzero; [rewrite Hzero|].
    + rewrite (bool_decide_eq_false_2 (entry_error_code e = code)) by done.
      rewrite (bool_decide_eq_false_2 (_ ∧ _)) by (by intros [_ ?]).
      by rewrite Nat.add_0_r.
  - rewrite (bool_decide_eq_false_2 (entry_status e = Some "failed")) by done.
    rewrite (bool_decide_eq_false_2 (_ ∧ _)) by (by intros [? _]).
    by rewrite Nat.add_0_r.
Qed.

Lemma count_service_get reliability e service :
  dict_get (count_service reliability e) service
  = match entry_service e with
    | Some k =>
      if bool_decide (k = "") then dict_get reliability service
      else if bool_decide (k = service) then
        let stats := default (mkStats 0 0 0) (dict_get reliability k) in
        Some (mkStats (s_attempts stats + 1)
                      (s_successes stats
                       + if bool_decide (entry_status e = Some "success")
                         then 1 else 0)
                      (s_reliability stats))
      else dict_get reliability service
    | None => dict_get reliability service
    end.
Proof.
  unfold count_service. destruct (entry_service e) as [k|]; [|done].
  case_bool_decide as Hempty; [done|].
  destruct (dict_get reliability k) as [stats|] eqn:Hget.
  - rewrite Hget. 
    destruct (bool_decide (entry_status e = Some "success")).
    + rewrite dict_get_set, (bool_decide_eq_true_2 (k = k)) by done.
      rewrite !dict_get_set. simpl. by case_bool_decide.
    + rewrite dict_get_set. simpl. rewrite Nat.add_0_r. by case_bool_decide.
  - rewrite dict_get_set, (bool_decide_eq_true_2 (k = k)) by done.
    destruct (bool_decide (entry_status e = Some "success")).
    + rewrite dict_get_set, (bool_decide_eq_true_2 (k = k)) by done.
      rewrite !dict_get_set. simpl. by case_bool_decide.
    + rewrite !dict_get_set. simpl. by case_bool_decide.
Qed.

Lemma count_service_counts log : ∀ service,
  dict_get (foldl count_service [] log) service
  = if bool_decide (service = "" ∨ attempts_on service log = 0) then None
    else Some (mkStats (attempts_on service log) (successes_on service log) 0).
Proof.
  induction log as [|e log IH] using rev_ind; intros service.
  - simpl. by rewrite bool_decide_eq_true_2 by (by right).
  - rewrite foldl_app. simpl. rewrite count_service_get.
    rewrite attempts_on_snoc, successes_on_snoc.
    destruct (entry_service e) as [k|] eqn:Hk.
    2:{ rewrite IH. rewrite (bool_decide_eq_false_2 (None = Some service)) by done.
        rewrite (bool_decide_eq_false_2 (None = Some service ∧ _))
          by (by intros [? _]).
        by rewrite !Nat.add_0_r. }
    case_bool_decide as Hempty.
    { rewrite IH. destruct (decide (service = "")) as [->|Hservice].
      - by rewrite !bool_decide_eq_true_2 by (by left).
      - subst k.
        rewrite (bool_decide_eq_false_2 (Some "" = Some service)) by congruence.
        rewrite (bool_decide_eq_false_2 (Some "" = Some service ∧ _))
          by (intros [? _]; congruence).
        by rewrite !Nat.add_0_r. }
    case_bool_decide as Hsame.
    + subst k. rewrite IH.
      rewrite (bool_decide_eq_true_2 (Some service = Some service)) by done.
      rewrite (bool_decide_eq_false_2 (_ ∨ _ + 1 = 0))
        by (intros [?|?]; [done|lia]).
      pose proof (successes_at_most_attempts service log) as Hle.
      case_bool_decide as Hnew; simpl.
      * destruct Hnew as [?|Hzero]; [done|].
        rewrite Hzero in *. replace (successes_on service log) with 0 by lia.
        do 2 f_equal. repeat case_bool_decide; try done; tauto.
      * do 2 f_equal. repeat case_bool_decide; try done; tauto.
    + rewrite IH.
      rewrite (bool_decide_eq_false_2 (Some k = Some service)) by congruence.
      rewrite (bool_decide_eq_false_2 (Some k = Some service ∧ _))
        by (intros [? _]; congruence).
      by rewrite !Nat.add_0_r.
Qed.

Lemma count_failure_keys log : ∀ failure_points,
  NoDup failure_points.*1 → NoDup (foldl count_failure failure_points log).*1.
Proof.
  induction log as [|e log IH]; intros d Hnd; [done|].
  simpl. apply IH. unfold count_failure.
  case_bool_decide; [by apply dict_set_keys|done].
Qed.

Lemma count_service_keys log : ∀ reliability,
  NoDup reliability.*1 → NoDup (foldl count_service reliability log).*1.
Proof.
  induction log as [|e log IH]; intros d Hnd; [done|].
  simpl. apply IH. unfold count_service.
  destruct (entry_service e) as [k|]; [|done].
  case_bool_decide; [done|].
  assert (NoDup (match dict_get d k with
                 | Some _ => d
                 | None => dict_set d k (mkStats 0 0 0)
                 end).*1) as Hnd1.
  { destruct (dict_get d k); [done|by apply dict_set_keys]. }
  revert Hnd1. generalize (match dict_get d k with
                           | Some _ => d
                           | None => dict_set d k (mkStats 0 0 0)
                           end).
  intros d1 Hnd1.
  assert (NoDup (match dict_get d1 k with
                 | Some stats =>
                   dict_set d1 k (mkStats (s_attempts stats + 1)
                                          (s_successes stats) (s_reliability stats))
                 | None => d1
                 end).*1) as Hnd2.
  { destruct (dict_get d1 k); [by apply dict_set_keys|done]. }
  revert Hnd2. generalize (match dict_get d1 k with
                 | Some stats =>
                   dict_set d1 k (mkStats (s_attempts stats + 1)
                                          (s_successes stats) (s_reliability stats))
                 | None => d1
                 end).
  intros d2 Hnd2.
  case_bool_decide; [|done].
  destruct (dict_get d2 k); [by apply dict_set_keys|done].
Qed.

(** The loop over the runs fills the dictionaries from all their logs. *)
Lemma count_state_dicts workflow_states : ∀ tally,
  failure_points (foldl count_state tally workflow_states)
  = foldl count_failure (failure_points tally) (all_attempts workflow_states)
  ∧ reliability (foldl count_state tally workflow_states)
    = foldl count_service (reliability tally) (all_attempts workflow_states)
  ∧ successful_workflows (foldl count_state tally workflow_states)
    ≤ successful_workflows tally + length workflow_states.
Proof.
  induction workflow_states as [|state states IH]; intros tally.
  - simpl. repeat split; lia.
  - simpl. destruct (IH (count_state tally state)) as (Hf & Hr & Hs).
    rewrite Hf, Hr. unfold all_attempts. simpl. rewrite !foldl_app.
    repeat split; try done.
    etrans; [exact Hs|]. simpl. destruct (succeeded state); lia.
Qed.

Lemma percent_bounds part whole :
  part ≤ whole → 0 < whole →
  (0 <= of_nat part / of_nat whole * 100 <= 100)%Q.
Proof.
  intros Hle Hpos. unfold of_nat.
  assert (0 < inject_Z (Z.of_nat whole))%Q as Hwhole.
  { unfold Qlt. simpl. lia. }
  assert (0 <= inject_Z (Z.of_nat part) / inject_Z (Z.of_nat whole))%Q as Hlow.
  { apply Qle_shift_div_l; [done|]. unfold Qle. simpl. lia. }
  assert (inject_Z (Z.of_nat part) / inject_Z (Z.of_nat whole) <= 1)%Q as Hhigh.
  { apply Qle_shift_div_r; [done|]. unfold Qle. simpl. lia. }
  split; lra.
Qed.

(** What an analysis contains. *)
Lemma analyze_retry_patterns_counts (workflow_states : list WorkflowState) :
  workflow_states ≠ [] →
  let log := all_attempts workflow_states in
  analyze_retry_patterns [] = None
  ∧ ∃ analysis,
      analyze_retry_patterns workflow_states = Some analysis
      ∧ total_workflows analysis = length workflow_states
      ∧ (∀ service,
           dict_get (service_reliability analysis) service
           = if bool_decide (service = "" ∨ attempts_on service log = 0)
             then None
             else Some (mkStats (attempts_on service log)
                                (successes_on service log)
                                (of_nat (successes_on service log)
                                 / of_nat (attempts_on service log) * 100)%Q))
      ∧ (∀ code,
           dict_get (common_failure_points analysis) code
           = if bool_decide (failures_with code log = 0) then None
             else Some (failures_with code log)).
Proof.
  intros Hne log. split; [done|].
  unfold analyze_retry_patterns.
  rewrite bool_decide_eq_false_2 by (by destruct workflow_states).
  eexists. split; [reflexivity|]. simpl.
  destruct (count_state_dicts workflow_states (mkTally 0 0 0 [] []))
    as (Hf & Hr & _).
  rewrite Hf, Hr. simpl. fold log. repeat split.
  - intros service. rewrite dict_get_fmap, count_service_counts.
    case_bool_decide as Hnone; [done|]. simpl. unfold with_reliability. simpl.
    rewrite bool_decide_eq_true_2; [done|].
    destruct (attempts_on service log); [|lia]. exfalso. apply Hnone. by right.
  - intros code. apply count_failure_counts.
Qed.

(** X22.  [analyze_retry_patterns] raises on an empty list of runs and
    answers on every other one.  Its two dictionaries count the logs of
    all the runs: a service has an entry exactly when its name is not
    empty and some attempt was made on it, with the number of attempts,
    the number of successful ones and their ratio in percent; an error
    code has an entry exactly when some failed attempt carries it, with
    the number of such attempts.  Entries that record a switch of
    service are not counted. *)
Theorem analysis_counts_the_logs (workflow_states : list WorkflowState) :
  workflow_states ≠ [] →
  let log := all_attempts workflow_states in
  analyze_retry_patterns [] = None
  ∧ ∃ analysis,
      analyze_retry_patterns workflow_states = Some analysis
      ∧ total_workflows analysis = length workflow_states
      ∧ (∀ service,
           dict_get (service_reliability analysis) service
           = if bool_decide (service = "" ∨ attempts_on service log = 0)
             then None
             else Some (mkStats (attempts_on service log)
                                (successes_on service log)
                                (of_nat (successes_on service log)
                                 / of_nat (attempts_on service log) * 100)%Q))
      ∧ (∀ code,
           dict_get (common_failure_points analysis) code
           = if bool_decide (failures_with code log = 0) then None
             else Some (failures_with code log)).
Proof. apply analyze_retry_patterns_counts. Qed.

Lemma analysis_counts_the_logs_witness :
  ∃ analysis,
    analyze_retry_patterns Examples.two_runs = Some analysis
    ∧ total_workflows analysis = 2.
Proof.
  destruct (analysis_counts_the_logs Examples.two_runs)
    as (_ & analysis & Hsome & Htotal & _); [done|].
  exists analysis. split; [exact Hsome | exact Htotal].
Defined.

(** X23.  Every rate of an analysis is a percentage: the success rate
    and the reliability of every listed service lie between 0 and 100,
    every listed service has at least one attempt and no more successes
    than attempts, and no service or error code is listed twice. *)
Theorem analysis_rates_are_percentages
    (workflow_states : list WorkflowState) (analysis : Analysis) :
  analyze_retry_patterns workflow_states = Some analysis →
  (0 <= success_rate analysis <= 100)%Q
  ∧ NoDup (service_reliability analysis).*1
  ∧ NoDup (common_failure_points analysis).*1
  ∧ Forall (λ item,
              1 ≤ s_attempts (snd item)
              ∧ s_successes (snd item) ≤ s_attempts (snd item)
              ∧ (0 <= s_reliability (snd item) <= 100)%Q)
           (service_reliability analysis).
Proof.
  intros Hsome.
  assert (workflow_states ≠ []) as Hne.
  { intros ->. discriminate. }
  destruct (analyze_retry_patterns_counts workflow_states Hne)
    as (_ & analysis' & Hsome' & _ & Hservices & _).
  rewrite Hsome in Hsome'. injection Hsome' as <-.
  unfold analyze_retry_patterns in Hsome.
  rewrite bool_decide_eq_false_2 in Hsome by (by destruct workflow_states).
  destruct (count_state_dicts workflow_states (mkTally 0 0 0 [] []))
    as (Hf & Hr & Hs).
  assert (NoDup (service_reliability analysis).*1) as Hnd.
  { injection Hsome as <-. simpl. rewrite dict_fmap_keys, Hr.
    apply count_service_keys. simpl. apply NoDup_nil_2. }
  split; [|split; [done|split]].
  - injection Hsome as <-. simpl. apply percent_bounds.
    + simpl in Hs. lia.
    + destruct workflow_states; [done|simpl; lia].
  - injection Hsome as <-. simpl. rewrite Hf.
    apply count_failure_keys. simpl. apply NoDup_nil_2.
  - apply Forall_forall. intros [service stats] Hin. simpl.
    pose proof (dict_get_elem_of _ _ _ Hnd Hin) as Hget.
    rewrite Hservices in Hget.
    case_bool_decide as Hnone; [done|]. injection Hget as <-. simpl.
    pose proof (successes_at_most_attempts service
                  (all_attempts workflow_states)) as Hle.
    assert (0 < attempts_on service (all_attempts workflow_states)) as Hpos.
    { destruct (attempts_on service (all_attempts workflow_states)); [|lia].
      exfalso. apply Hnone. by right. }
    repeat split; try lia; by apply percent_bounds.
Qed.

Lemma analysis_rates_are_percentages_witness :
  ∃ analysis,
    analyze_retry_patterns Examples.two_runs = Some analysis
    ∧ (0 <= success_rate analysis <= 100)%Q.
Proof.
  destruct (analyze_retry_patterns Examples.two_runs) as [analysis|] eqn:Hsome;
    [|discriminate].
  exists analysis. split; [reflexivity|].
  apply (analysis_rates_are_percentages Examples.two_runs analysis Hsome).
Defined.

(** *** Recommendations *)

Lemma elem_of_appended (b : bool) (l : list string) x y :
  x ∈ (if b then l ++ [y] else l) ↔ x ∈ l ∨ (b = true ∧ x = y).
Proof.
  destruct b.
  - rewrite elem_of_app, list_elem_of_singleton. intuition.
  - intuition. discriminate.
Qed.

Lemma length_appended (b : bool) (l : list string) y :
  length (if b then l ++ [y] else l) ≤ length l + 1.
Proof. destruct b; [rewrite length_app; simpl|]; lia. Qed.

(** X24.  The recommendations drawn from an analysis follow the logs of
    the analysed runs: wallet funding is recommended exactly when some
    attempt failed for insufficient funds, better network handling
    exactly when some attempt failed with a network error, and there are
    never more than five recommendations. *)
Theorem recommendations_follow_the_failures
    (workflow_states : list WorkflowState) (analysis : Analysis) :
  analyze_retry_patterns workflow_states = Some analysis →
  let recommendations := generate_retry_recommendations analysis in
  let log := all_attempts workflow_states in
  ("Implement automatic wallet funding or better balance monitoring"
     ∈ recommendations
   ↔ 0 < failures_with "INSUFFICIENT_FUNDS" log)
  ∧ ("Implement better network error handling and longer timeouts"
       ∈ recommendations
     ↔ 0 < failures_with "NETWORK_ERROR" log)
  ∧ length recommendations ≤ 5.
Proof.
  intros Hsome recommendations log.
  assert (workflow_states ≠ []) as Hne.
  { intros ->. discriminate. }
  destruct (analyze_retry_patterns_counts workflow_states Hne)
    as (_ & analysis' & Hsome' & _ & _ & Hcodes).
  rewrite Hsome in Hsome'. injection Hsome' as <-. fold log in Hcodes.
  assert (∀ code, bool_decide (is_Some (dict_get (common_failure_points analysis)
                                                 code)) = true
                  ↔ 0 < failures_with code log) as Hlisted.
  { intros code. rewrite bool_decide_eq_true, Hcodes.
    case_bool_decide as Hzero.
    - split; [by intros [? ?]|lia].
    - split; [lia|eauto]. }
  subst recommendations. unfold generate_retry_recommendations.
  set (unreliable := fst <$> filter _ (service_reliability analysis)).
  set (replace := "Consider replacing unreliable services: "
                  +:+ String.concat ", " unreliable).
  assert (∀ l x, x ∈ match unreliable with
                     | [] => l
                     | _ :: _ => l ++ [replace]
                     end
                 → x ∈ l ∨ x = replace) as Hreplace.
  { intros l x. destruct unreliable; [auto|].
    rewrite elem_of_app, list_elem_of_singleton. auto. }
  assert (∀ l, length match unreliable with
                      | [] => l
                      | _ :: _ => l ++ [replace]
                      end ≤ length l + 1) as Hlength.
  { intros l. destruct unreliable; [lia|]. rewrite length_app. simpl. lia. }
  rewrite <- !Hlisted. split; [|split].
  - rewrite !elem_of_appended. split.
    + intros [[Hin|[Hb _]]|[_ ?]]; [|exact Hb|discriminate].
      apply Hreplace in Hin as [Hin|Hin]; [|discriminate].
      apply elem_of_appended in Hin as [Hin|[_ ?]]; [|discriminate].
      apply elem_of_appended in Hin as [Hin|[_ ?]]; [|discriminate].
      by apply elem_of_nil in Hin.
    + intros Hfunds. left. by right.
  - rewrite !elem_of_appended. split.
    + intros [[Hin|[_ ?]]|[Hb _]]; [|discriminate|exact Hb].
      apply Hreplace in Hin as [Hin|Hin]; [|discriminate].
      apply elem_of_appended in Hin as [Hin|[_ ?]]; [|discriminate].
      apply elem_of_appended in Hin as [Hin|[_ ?]]; [|discriminate].
      by apply elem_of_nil in Hin.
    + intros Hnet. by right.
  - etrans; [apply length_appended|].
    etrans; [apply Nat.add_le_mono_r, length_appended|].
    etrans; [apply Nat.add_le_mono_r, Nat.add_le_mono_r, Hlength|].
    etrans; [apply Nat.add_le_mono_r, Nat.add_le_mono_r, Nat.add_le_mono_r,
             length_appended|].
    etrans; [apply Nat.add_le_mono_r, Nat.add_le_mono_r, Nat.add_le_mono_r,
             Nat.add_le_mono_r, length_appended|].
    simpl. lia.
Qed.

Lemma recommendations_follow_the_failures_witness :
  ∃ analysis,
    analyze_retry_patterns Examples.two_runs = Some analysis
    ∧ "Implement better network error handling and longer timeouts"
        ∈ generate_retry_recommendations analysis.
Proof.
  destruct (analyze_retry_patterns Examples.two_runs) as [analysis|] eqn:Hsome;
    [|discriminate].
  exists analysis. split; [reflexivity|].
  destruct (recommendations_follow_the_failures Examples.two_runs analysis Hsome)
    as (_ & Hnet & _).
  apply Hnet. vm_compute. lia.
Defined.

(** *** Analysing runs of the workflow *)

Lemma free_attempts_succeed_step world node state :
  is_Some (task state) →
  free_attempts_succeed (payment_attempts state) →
  free_attempts_succeed (payment_attempts (snd (step world node state))).
Proof.
  intros Htask Hlog. destruct node; try done.
  - simpl. destruct (validate_request_raises state); apply Forall_nil_2.
  - pose proof (step_attempt_payment world state Htask) as Hstep.
    cbv zeta in Hstep.
    destruct Hstep as (_ & _ & _ & _ & _ & a & Hnew & Hsvc & _ & _ & Hcase).
    rewrite Hnew. apply Forall_app. split; [done|].
    apply Forall_singleton. rewrite Hsvc.
    destruct Hcase as [(Hok & _)|(_ & Hpaid & _)]; [done|].
    intros Hfree. congruence.
  - simpl. unfold handle_payment_failure.
    destruct (last (payment_attempts state)); [|done]. simpl.
    by destruct (route_failure_handling _) as [[]|].
  - simpl. unfold retry_with_backoff. by destruct (retry_strategy state).
  - simpl. unfold try_alternative_service.
    destruct (index _ _); [|done]. simpl.
    destruct (fallback_services state !! _); [|done]. simpl.
    apply Forall_app. split; [done|]. by apply Forall_singleton.
  - simpl. unfold use_fallback_service. by destruct (last (fallback_services state)).
Qed.

Lemma free_attempts_succeed_run world fuel : ∀ node state,
  is_Some (task state) →
  free_attempts_succeed (payment_attempts state) →
  free_attempts_succeed (payment_attempts (snd (run world fuel node state))).
Proof.
  induction fuel as [|fuel IH]; intros node state Htask Hlog; [done|].
  destruct (finished node) eqn:Hfin.
  - by rewrite run_finished.
  - rewrite run_step by done. apply IH.
    + by rewrite step_keeps_task.
    + by apply free_attempts_succeed_step.
Qed.

(** A run on a state without task stops in [validate_request], with an
    empty log. *)
Lemma free_attempts_succeed_from_start world fuel state :
  free_attempts_succeed
    (payment_attempts (snd (run world (S fuel) N_validate_request state))).
Proof.
  rewrite run_step by done. simpl.
  destruct (validate_request_raises state) eqn:Hraises; simpl.
  - rewrite run_finished by done. apply Forall_nil_2.
  - apply free_attempts_succeed_run; [|apply Forall_nil_2].
    unfold validate_request_raises in Hraises.
    apply bool_decide_eq_false in Hraises. simpl.
    by destruct (task state).
Qed.

Lemma free_successes_are_all service log :
  is_free service = true → free_attempts_succeed log →
  successes_on service log = attempts_on service log.
Proof.
  intros Hfree Hlog. unfold successes_on, attempts_on. f_equal.
  induction Hlog as [|e log He Hlog IH]; [done|].
  rewrite !filter_cons, IH.
  destruct (decide (entry_service e = Some service)) as [Hon|Hoff].
  - rewrite decide_True; [done|]. split; [done|].
    destruct e as [a|s]; [|done]. simpl in *. injection Hon as Hon.
    f_equal. apply He. by rewrite Hon.
  - rewrite decide_False; [done|]. by intros [? _].
Qed.

(** X27.  In an analysis of final states of runs of the workflow a free
    service is fully reliable: every attempt counted for it is counted
    as a success, its reliability is 100, and it is never among the
    services found unreliable. *)
Theorem free_service_is_fully_reliable
    (workflow_states : list WorkflowState) (analysis : Analysis)
    (service : string) (stats : ServiceStats) :
  Forall final_state_of_a_run workflow_states →
  analyze_retry_patterns workflow_states = Some analysis →
  is_free service = true →
  dict_get (service_reliability analysis) service = Some stats →
  s_successes stats = s_attempts stats
  ∧ 0 < s_attempts stats
  ∧ (s_reliability stats == 100)%Q
  ∧ Qlt_bool (s_reliability stats) 70 = false.
Proof.
  intros Hruns Hsome Hfree Hget.
  assert (workflow_states ≠ []) as Hne.
  { intros ->. discriminate. }
  destruct (analyze_retry_patterns_counts workflow_states Hne)
    as (_ & analysis' & Hsome' & _ & Hservices & _).
  rewrite Hsome in Hsome'. injection Hsome' as <-.
  rewrite Hservices in Hget.
  assert (free_attempts_succeed (all_attempts workflow_states)) as Hlog.
  { unfold all_attempts. clear -Hruns.
    induction Hruns as [|state states (world & fuel & initial & ->) _ IH].
    - apply Forall_nil_2.
    - simpl. apply Forall_app. split; [|exact IH].
      apply free_attempts_succeed_from_start. }
  rewrite (free_successes_are_all service _ Hfree Hlog) in Hget.
  case_bool_decide as Hnone; [done|]. injection Hget as <-. simpl.
  assert (0 < attempts_on service (all_attempts workflow_states)) as Hpos.
  { destruct (attempts_on service (all_attempts workflow_states)); [|lia].
    exfalso. apply Hnone. by right. }
  assert (of_nat (attempts_on service (all_attempts workflow_states))
          / of_nat (attempts_on service (all_attempts workflow_states)) * 100
          == 100)%Q as Hfull.
  { unfold Qdiv. rewrite Qmult_inv_r; [lra|].
    unfold of_nat, Qeq. simpl. lia. }
  repeat split; try done.
  unfold Qlt_bool. apply negb_false_iff, Qle_bool_iff. rewrite Hfull. lra.
Qed.

Lemma free_service_is_fully_reliable_witness :
  ∃ analysis stats,
    analyze_retry_patterns Examples.three_runs = Some analysis
    ∧ dict_get (service_reliability analysis) "free_service" = Some stats
    ∧ s_successes stats = s_attempts stats.
Proof.
  assert (∃ analysis stats,
            analyze_retry_patterns Examples.three_runs = Some analysis
            ∧ dict_get (service_reliability analysis) "free_service"
              = Some stats) as (analysis & stats & Hsome & Hget).
  { eexists _, _. split; vm_compute; reflexivity. }
  exists analysis, stats. split; [exact Hsome|]. split; [exact Hget|].
  destruct (free_service_is_fully_reliable Examples.three_runs analysis
              "free_service" stats) as (Hall & _);
    [|exact Hsome|reflexivity|exact Hget|exact Hall].
  repeat apply Forall_cons_2; try apply Forall_nil_2.
  - exists Scenarios.network_down, 74, Scenarios.fresh. reflexivity.
  - exists Examples.funded_later, 74, Scenarios.fresh. reflexivity.
  - exists Scenarios.no_funds, 74, Scenarios.fresh. reflexivity.
Defined.

End Analytics.

(** ** The error handler and the FastAPI server *)
Section OtherServers.

(** X25.  [handlePaymentError] knows three error codes.  It answers 400
    with the error's own code exactly for INSUFFICIENT_AMOUNT,
    PAYMENT_EXPIRED and PAYMENT_NOT_FOUND; every other error, with or
    without a code, gets 500 and the code UNKNOWN_ERROR.  Of the seven
    codes of the table "Common Error Codes" only those three get the
    status the table gives them; 402 is never answered. *)
Theorem error_handler_knows_three_codes
    (now : string) (e : PaymentErrorHandler.PaymentError) :
  let known := ["INSUFFICIENT_AMOUNT"; "PAYMENT_EXPIRED"; "PAYMENT_NOT_FOUND"] in
  let response := PaymentErrorHandler.handlePaymentError now e in
  ((∃ c, PaymentErrorHandler.code e = Some c ∧ c ∈ known)
   ∧ PaymentErrorHandler.status response = 400%Z
   ∧ PaymentErrorHandler.r_code response = PaymentErrorHandler.code e
   ∨ (¬ ∃ c, PaymentErrorHandler.code e = Some c ∧ c ∈ known)
     ∧ PaymentErrorHandler.status response = 500%Z
     ∧ PaymentErrorHandler.r_code response = Some "UNKNOWN_ERROR"
     ∧ PaymentErrorHandler.error response = "payment_processing_error")
  ∧ filter (λ entry,
              PaymentErrorHandler.status
                (PaymentErrorHandler.handlePaymentError now
                   (PaymentErrorHandler.with_code (fst entry) e))
              = snd entry)
           PaymentErrorHandler.common_error_codes
    = [("PAYMENT_NOT_FOUND", 400%Z); ("INSUFFICIENT_AMOUNT", 400%Z);
       ("PAYMENT_EXPIRED", 400%Z)].
Proof.
  intros known response. split.
  - subst response. unfold PaymentErrorHandler.handlePaymentError.
    repeat case_bool_decide.
    + left. split; [|done]. eexists. split; [eassumption|]. subst known.
      apply elem_of_cons. by left.
    + left. split; [|done]. eexists. split; [eassumption|]. subst known.
      apply elem_of_cons. right. apply elem_of_cons. by left.
    + left. split; [|done]. eexists. split; [eassumption|]. subst known.
      do 2 (apply elem_of_cons; right). apply elem_of_cons. by left.
    + right. split; [|done]. intros (c & Hc & Hin). subst known.
      rewrite Hc in *.
      repeat (apply elem_of_cons in Hin as [->|Hin]; [done|]).
      by apply elem_of_nil in Hin.
  - reflexivity.
Qed.

(** X26.  The FastAPI handler lets every request with a non-empty
    [X-Payment] header through, whatever the header says: it answers
    valid with the configured amount without reading the header, so the
    retry built by the client is accepted for any payment.  A request
    without the header, or with an empty one, gets the 402 answer, in
    which the client finds the amount line and the purpose but no
    expiry. *)
Theorem fastapi_accepts_every_header
    (self : FastAPI.Handler) (client : X402Handler.Collaborators) :
  (∀ header, header ≠ "" →
     FastAPI.require_payment self (Some header)
     = inr {| FastAPI.valid := true; FastAPI.v_amount := FastAPI.amount self |})
  ∧ (∀ payment,
       FastAPI.require_payment self
         (Some (X402Handler.formatPaymentHeader payment))
       = inr {| FastAPI.valid := true; FastAPI.v_amount := FastAPI.amount self |})
  ∧ (∀ x_payment, x_payment = None ∨ x_payment = Some "" →
       ∃ exception,
         FastAPI.require_payment self x_payment = inl exception
         ∧ FastAPI.status_code exception = 402%Z
         ∧ X402Handler.parseX402Headers client (FastAPI.headers exception)
           = {| X402Handler.acceptedMethods :=
                  X402Handler.parseAcceptPayment client
                    (Some "paystabl agent=required, bitcoin lightning=optional");
                X402Handler.amount :=
                  X402Handler.parseAmount client
                    (Some ("amount=" +:+ FastAPI.amount self
                           +:+ " currency=" +:+ FastAPI.currency self));
                X402Handler.purpose := Some "API access fee";
                X402Handler.expiresAt := X402Handler.newDate client None |}).
Proof.
  split; [|split].
  - intros header Hne. unfold FastAPI.require_payment.
    by rewrite bool_decide_eq_false_2.
  - intros payment. reflexivity.
  - intros x_payment [->| ->]; eexists; (split; [reflexivity|]);
      (split; [reflexivity|]);
      unfold X402Handler.parseX402Headers; by simplify_map_eq.
Qed.

Lemma fastapi_accepts_every_header_witness :
  FastAPI.require_payment (FastAPI.mkHandler "2.50" "USD") (Some "anything")
  = inr {| FastAPI.valid := true; FastAPI.v_amount := "2.50" |}.
Proof.
  destruct (fastapi_accepts_every_header (FastAPI.mkHandler "2.50" "USD")
              Scenarios.sdk) as (Haccept & _).
  apply (Haccept "anything"). discriminate.
Defined.

End OtherServers.
